(** * Documentation build scripts of the C# SDK: a shallow embedding

    The repository holds two Python scripts:
    - [scripts/generate-docusaurus-md.py] turns DocFX metadata into Markdown
      pages (example extraction, type classification, link rewriting, banner
      injection, type-name shortening, method grouping);
    - [scripts/prune-toc.py] prunes the DocFX table of contents.

    The functions below follow the Python text function by function.  Python
    [str] values are lists of characters; a character is an 8-bit code point
    (the Latin-1 range of Unicode), which is what Rocq's [ascii] offers.
    Dictionaries are stdpp [gmap]s, JSON objects are association lists (their
    key order is what [json.dump] writes back). *)

From Stdlib Require Import Ascii String NArith Lia DecimalString Sorted.
From stdpp Require Import base option list gmap strings fin_maps.

Set Warnings "-register-all".
Open Scope list_scope.

(** ** Python strings *)

Module PyStr.

Abbreviation str := (list ascii).

(** A literal of the Python source, as a list of characters. *)
Definition py (s : string) : str := list_ascii_of_string s.

Definition code (c : ascii) : N := N_of_ascii c.

Definition chr_eqb (a b : ascii) : bool := Ascii.eqb a b.

Definition LF : ascii := ascii_of_N 10.

Definition in_range (lo hi : N) (c : ascii) : bool :=
  (lo <=? code c)%N && (code c <=? hi)%N.

(** [str.isspace] on one character, which is also the class [\s] of [re]:
    TAB LF VT FF CR, FS GS RS US, SPACE, NEL and NBSP. *)
Definition is_space (c : ascii) : bool :=
  in_range 9 13 c || in_range 28 32 c || (code c =? 133)%N || (code c =? 160)%N.

(** The class [\w] of [re] on [str] patterns: alphanumeric or underscore. *)
Definition is_word (c : ascii) : bool :=
  in_range 48 57 c || in_range 65 90 c || (code c =? 95)%N || in_range 97 122 c
  || (code c =? 170)%N || in_range 178 179 c || (code c =? 181)%N
  || in_range 185 186 c || in_range 188 190 c || in_range 192 214 c
  || in_range 216 246 c || in_range 248 255 c.

(** The line boundaries of [str.splitlines]: LF VT FF CR FS GS RS NEL. *)
Definition is_linebreak (c : ascii) : bool :=
  in_range 10 13 c || in_range 28 30 c || (code c =? 133)%N.

Fixpoint str_eqb (a b : str) : bool :=
  match a, b with
  | [], [] => true
  | x :: a', y :: b' => chr_eqb x y && str_eqb a' b'
  | _, _ => false
  end.

(** [strip_prefix p s] is [Some t] when [s = p ++ t]. *)
Fixpoint strip_prefix (p s : str) : option str :=
  match p with
  | [] => Some s
  | x :: p' =>
      match s with
      | y :: s' => if chr_eqb x y then strip_prefix p' s' else None
      | [] => None
      end
  end.

(** [s.startswith(p)] *)
Definition startswith (s p : str) : bool :=
  match strip_prefix p s with Some _ => true | None => false end.

(** [s.endswith(p)] *)
Definition endswith (s p : str) : bool := startswith (rev s) (rev p).

(** [p in s] for strings: [p] occurs in [s] as a contiguous substring. *)
Fixpoint contains (p s : str) : bool :=
  startswith s p || match s with [] => false | _ :: s' => contains p s' end.

(** [s.lstrip()], [s.rstrip()], [s.strip()] with no argument. *)
Fixpoint lstrip (s : str) : str :=
  match s with
  | c :: s' => if is_space c then lstrip s' else s
  | [] => []
  end.

Definition rstrip (s : str) : str := rev (lstrip (rev s)).

Definition strip (s : str) : str := rstrip (lstrip s).

(** [s.rstrip(chars)] for a one-character [chars]. *)
Fixpoint lstrip_chr (x : ascii) (s : str) : str :=
  match s with
  | c :: s' => if chr_eqb c x then lstrip_chr x s' else s
  | [] => []
  end.

Definition rstrip_chr (x : ascii) (s : str) : str := rev (lstrip_chr x (rev s)).

(** [sep.join(parts)] *)
Fixpoint join (sep : str) (parts : list str) : str :=
  match parts with
  | [] => []
  | [p] => p
  | p :: ps => p ++ sep ++ join sep ps
  end.

(** [s.replace(old, new)] for a non-empty [old]: every occurrence, scanning
    from the left, occurrences not overlapping.  [skip] counts the characters
    of an occurrence still to be passed over. *)
Fixpoint replace_from (old new : str) (skip : nat) (s : str) : str :=
  match s with
  | [] => []
  | c :: s' =>
      match skip with
      | S n => replace_from old new n s'
      | O =>
          if startswith s old
          then new ++ replace_from old new (length old - 1) s'
          else c :: replace_from old new 0 s'
      end
  end.

Definition replace (s old new : str) : str := replace_from old new 0 s.

(** [s.splitlines()]: the lines of [s] without their line ends; CR LF is one
    line end, and a final line end opens no further line.  [cur] is the line
    being read, reversed. *)
Fixpoint splitlines_from (cur : str) (s : str) : list str :=
  match s with
  | [] => match cur with [] => [] | _ => [rev cur] end
  | c :: s' =>
      if is_linebreak c then
        rev cur ::
          match s' with
          | d :: s'' =>
              if (code c =? 13)%N && (code d =? 10)%N
              then splitlines_from [] s''   (* CR LF *)
              else splitlines_from [] s'
          | [] => []
          end
      else splitlines_from (c :: cur) s'
  end.

Definition splitlines (s : str) : list str := splitlines_from [] s.

(** [s.rsplit(sep, 1)[-1]] for a one-character [sep]: what follows the last
    [sep], or all of [s] when [sep] does not occur. *)
Fixpoint last_segment (sep : ascii) (s : str) : str :=
  match s with
  | [] => []
  | c :: s' =>
      if existsb (chr_eqb sep) s' then last_segment sep s'
      else if chr_eqb sep c then s' else s
  end.

End PyStr.

(** ** Python regular expressions

    The fragment of [re] the two scripts use: literal text, character classes,
    greedy and lazy repetition of one character, optional parts, capturing
    groups and the two anchors.  The matcher is the backtracking one of [re]:
    alternatives are tried in priority order (greedy: longest first, lazy:
    shortest first) and the first that lets the rest of the pattern match
    wins. *)

Module Re.
Import PyStr.

Inductive regex : Type :=
| Chars (s : str)                  (* literal text *)
| Class (p : ascii -> bool)        (* one character of a class *)
| Star (p : ascii -> bool)         (* c* , greedy *)
| Plus (p : ascii -> bool)         (* c+  greedy *)
| StarLazy (p : ascii -> bool)     (* c*? *)
| Opt (r : regex)                  (* (?:r)? greedy *)
| Group (r : regex)                (* (r) capturing *)
| Cat (r1 r2 : regex)
| Bol                              (* ^ *)
| Eol.                             (* $ *)

(** Character classes of the patterns. *)
Definition dot (c : ascii) : bool := negb (chr_eqb c LF).       (* . *)
Definition ws (c : ascii) : bool := is_space c.                  (* \s *)
Definition non_ws (c : ascii) : bool := negb (is_space c).       (* \S *)
Definition word (c : ascii) : bool := is_word c.                 (* \w *)
Definition none_of (x : ascii) (c : ascii) : bool := negb (chr_eqb c x).
Definition one_of (xs : str) (c : ascii) : bool := existsb (chr_eqb c) xs.

(** A position of the matcher in the subject: the character before it (none
    at the start), the text from it on, and the groups closed so far. *)
Record mstate : Type := MState {
  m_prev : option ascii;
  m_rest : str;
  m_groups : list str
}.

Definition last_chr (prev : option ascii) (s : str) : option ascii :=
  match last s with Some c => Some c | None => prev end.

Section Matcher.

(** The [re.MULTILINE] flag. *)
Variable multiline : bool.

Definition at_bol (s : mstate) : bool :=
  match m_prev s with
  | None => true
  | Some c => multiline && chr_eqb c LF
  end.

Definition at_eol (s : mstate) : bool :=
  match m_rest s with
  | [] => true
  | c :: t => chr_eqb c LF && (multiline || match t with [] => true | _ => false end)
  end.

Definition orelse {A} (a b : option A) : option A :=
  match a with Some x => Some x | None => b end.

Fixpoint star_greedy (p : ascii -> bool) (k : mstate -> option mstate)
    (prev : option ascii) (gs : list str) (s : str) : option mstate :=
  match s with
  | c :: t =>
      if p c
      then orelse (star_greedy p k (Some c) gs t) (k (MState prev s gs))
      else k (MState prev s gs)
  | [] => k (MState prev [] gs)
  end.

Fixpoint star_lazy (p : ascii -> bool) (k : mstate -> option mstate)
    (prev : option ascii) (gs : list str) (s : str) : option mstate :=
  orelse (k (MState prev s gs))
    match s with
    | c :: t => if p c then star_lazy p k (Some c) gs t else None
    | [] => None
    end.

(** [exec r k s]: match [r] at [s], then the rest of the pattern [k]. *)
Fixpoint exec (r : regex) (k : mstate -> option mstate) (s : mstate)
    : option mstate :=
  match r with
  | Chars cs =>
      match strip_prefix cs (m_rest s) with
      | Some t => k (MState (last_chr (m_prev s) cs) t (m_groups s))
      | None => None
      end
  | Class p =>
      match m_rest s with
      | c :: t => if p c then k (MState (Some c) t (m_groups s)) else None
      | [] => None
      end
  | Star p => star_greedy p k (m_prev s) (m_groups s) (m_rest s)
  | Plus p =>
      match m_rest s with
      | c :: t => if p c then star_greedy p k (Some c) (m_groups s) t else None
      | [] => None
      end
  | StarLazy p => star_lazy p k (m_prev s) (m_groups s) (m_rest s)
  | Opt r' => orelse (exec r' k s) (k s)
  | Group r' =>
      exec r'
        (fun s' =>
           let n := length (m_rest s) - length (m_rest s') in
           k (MState (m_prev s') (m_rest s')
                (m_groups s' ++ [take n (m_rest s)])))
        s
  | Cat r1 r2 => exec r1 (exec r2 k) s
  | Bol => if at_bol s then k s else None
  | Eol => if at_eol s then k s else None
  end.

(** A match object: where the match starts and ends and its groups. *)
Record rmatch : Type := RMatch {
  m_start : nat;
  m_end : nat;
  groups : list str
}.

(** [m.group(i)] for [i >= 1]. *)
Definition group (i : nat) (m : rmatch) : str := nth (i - 1) (groups m) [].

(** The match of [r] that starts exactly at the position [(prev, s)], which
    is at index [i] of the subject. *)
Definition match_at (r : regex) (prev : option ascii) (i : nat) (s : str)
    : option rmatch :=
  match exec r Some (MState prev s []) with
  | Some e => Some (RMatch i (i + (length s - length (m_rest e))) (m_groups e))
  | None => None
  end.

(** [re.match(r, s)] *)
Definition re_match (r : regex) (s : str) : option rmatch :=
  match_at r None 0 s.

(** [re.search(r, s)]: the first position with a match. *)
Fixpoint search_from (r : regex) (prev : option ascii) (i : nat) (s : str)
    : option rmatch :=
  match match_at r prev i s with
  | Some m => Some m
  | None =>
      match s with
      | c :: t => search_from r (Some c) (S i) t
      | [] => None
      end
  end.

Definition re_search (r : regex) (s : str) : option rmatch :=
  search_from r None 0 s.

(** [re.sub(r, f, s)] with a function [f] of the match: matches are taken
    from the left and do not overlap; [skip] counts the characters of the
    last match still to be passed over.  (Every pattern substituted here
    needs at least one character.) *)
Fixpoint sub_from (r : regex) (f : rmatch -> str) (prev : option ascii)
    (i : nat) (skip : nat) (s : str) : str :=
  match skip with
  | S n =>
      match s with
      | c :: t => sub_from r f (Some c) (S i) n t
      | [] => []
      end
  | O =>
      match match_at r prev i s with
      | Some m =>
          f m ++
          match s with
          | c :: t =>
              match m_end m - m_start m with
              | O => c :: sub_from r f (Some c) (S i) 0 t
              | S n => sub_from r f (Some c) (S i) n t
              end
          | [] => []
          end
      | None =>
          match s with
          | c :: t => c :: sub_from r f (Some c) (S i) 0 t
          | [] => []
          end
      end
  end.

Definition re_sub (r : regex) (f : rmatch -> str) (s : str) : str :=
  sub_from r f None 0 0 s.

(** [re.split(r, s)] for a pattern without groups whose matches are never
    empty (the one pattern split on here needs three dashes): the pieces of
    [s] between the matches.  [cur] is the piece being read, reversed. *)
Fixpoint split_from (r : regex) (prev : option ascii) (i : nat) (skip : nat)
    (cur : str) (s : str) : list str :=
  match skip with
  | S n =>
      match s with
      | c :: t => split_from r (Some c) (S i) n cur t
      | [] => [rev cur]
      end
  | O =>
      match match_at r prev i s with
      | Some m =>
          match s with
          | c :: t =>
              match m_end m - m_start m with
              | O => split_from r (Some c) (S i) 0 (c :: cur) t
              | S n => rev cur :: split_from r (Some c) (S i) n [] t
              end
          | [] => [rev cur]
          end
      | None =>
          match s with
          | c :: t => split_from r (Some c) (S i) 0 (c :: cur) t
          | [] => [rev cur]
          end
      end
  end.

Definition re_split (r : regex) (s : str) : list str :=
  split_from r None 0 0 [] s.

End Matcher.

End Re.

Declare Scope regex_scope.
Delimit Scope regex_scope with re.
Bind Scope regex_scope with Re.regex.
Notation "a ⋅ b" := (Re.Cat a b) (at level 60, right associativity) : regex_scope.

(** ** [textwrap.dedent] (CPython 3.11), used by the example extractor *)

Module Textwrap.
Import PyStr Re.

Definition blank (c : ascii) : bool := one_of (py " " ++ [ascii_of_N 9]) c.

(** The pattern  ^ [ \t]+ $  with [re.MULTILINE] *)
Definition _whitespace_only_re : regex := (Bol ⋅ Plus blank ⋅ Eol)%re.

(** The pattern  ( ^ [ \t]* ) (?: [^ \t\n] )  with [re.MULTILINE] *)
Definition _leading_whitespace_re : regex :=
  (Group (Bol ⋅ Star blank) ⋅ Class (fun c => negb (blank c || chr_eqb c LF)))%re.

(** [r.findall(s)] for a pattern with one group: the group of every match. *)
Fixpoint findall_from (r : regex) (prev : option ascii) (i skip : nat) (s : str)
    : list str :=
  match skip with
  | S n =>
      match s with
      | c :: t => findall_from r (Some c) (S i) n t
      | [] => []
      end
  | O =>
      match match_at true r prev i s with
      | Some m =>
          group 1 m ::
          match s with
          | c :: t => findall_from r (Some c) (S i) (m_end m - m_start m - 1) t
          | [] => []
          end
      | None =>
          match s with
          | c :: t => findall_from r (Some c) (S i) 0 t
          | [] => []
          end
      end
  end.

(** The first index at which two strings differ, if they do within the
    shorter one. *)
Fixpoint first_mismatch (a b : str) : option nat :=
  match a, b with
  | x :: a', y :: b' => if chr_eqb x y then S <$> first_mismatch a' b' else Some 0
  | _, _ => None
  end.

Definition margin_step (margin : option str) (indent : str) : option str :=
  match margin with
  | None => Some indent
  | Some mg =>
      if startswith indent mg then Some mg
      else if startswith mg indent then Some indent
      else match first_mismatch mg indent with
           | Some i => Some (take i mg)
           | None => Some mg
           end
  end.

Definition dedent (text : str) : str :=
  let text := re_sub true _whitespace_only_re (fun _ => []) text in
  let indents := findall_from _leading_whitespace_re None 0 0 text in
  match fold_left margin_step indents None with
  | Some (c :: mg) => re_sub true (Bol ⋅ Chars (c :: mg))%re (fun _ => []) text
  | _ => text
  end.

End Textwrap.

(** ** [scripts/generate-docusaurus-md.py] *)

Module Generate.
Import PyStr Re.

(** *** Technical Preview banner *)

Definition TECH_PREVIEW_BANNER : str :=
  [LF] ++ py ":::caution Technical Preview" ++ [LF]
  ++ py "The C# SDK is a **technical preview** available from Camunda 8.9. "
  ++ py "It will become fully supported in Camunda 8.10. "
  ++ py "Its API surface may change in future releases without following semver."
  ++ [LF] ++ py ":::" ++ [LF].

(** The pattern  ^ # \s+ .+ $  with [re.MULTILINE] *)
Definition H1_RE : regex := (Bol ⋅ Chars (py "#") ⋅ Plus ws ⋅ Plus dot ⋅ Eol)%re.

Definition inject_tech_preview_banner (content : str) : str :=
  match re_search true H1_RE content with
  | Some m =>
      let pos := m_end m in
      take pos content ++ [LF] ++ TECH_PREVIEW_BANNER ++ drop pos content
  | None => content
  end.

(** *** Link rewriting *)

Definition DEPLOYMENT_DEPTH : nat := 3.

Definition _LANDING_PAGE_DEPTH : nat := 2.

Definition _URL_PATH_OVERRIDES : list (str * str) :=
  [ (py "camunda-api-rest", py "orchestration-cluster-api-rest") ].

(** The pattern
      \[ ( [^\]]* ) \] \( http s? :// docs\.camunda\.io/docs/ (?: next/ )? ( .*? ) \)
    (written here with spaces between its parts). *)
Definition _DOCS_LINK_RE : regex :=
  (Chars (py "[") ⋅ Group (Star (none_of "]")) ⋅ Chars (py "](http")
   ⋅ Opt (Chars (py "s")) ⋅ Chars (py "://docs.camunda.io/docs/")
   ⋅ Opt (Chars (py "next/")) ⋅ Group (StarLazy dot) ⋅ Chars (py ")"))%re.

(** [s * n] on strings *)
Definition str_mul (s : str) (n : nat) : str := concat (replicate n s).

(** The loop [for old, new in _URL_PATH_OVERRIDES.items(): ...] *)
Definition apply_overrides (url_path : str) : str :=
  fold_left (fun u on => replace u (fst on) (snd on)) _URL_PATH_OVERRIDES url_path.

(** The body shared by [_rewrite_match] and the inner [_replace]. *)
Definition rewrite_with (prefix : str) (m : rmatch) : str :=
  let text := group 1 m in
  let url_path := rstrip_chr "/" (group 2 m) in
  let url_path := apply_overrides url_path in
  py "[" ++ text ++ py "](" ++ prefix ++ url_path ++ py ".md)".

Definition _rewrite_match (m : rmatch) : str :=
  rewrite_with (str_mul (py "../") DEPLOYMENT_DEPTH) m.

Definition rewrite_camunda_docs_links (content : str) : str :=
  re_sub false _DOCS_LINK_RE _rewrite_match content.

Definition _rewrite_landing_links (content : str) : str :=
  let base_url_re := _DOCS_LINK_RE in
  let prefix := str_mul (py "../") _LANDING_PAGE_DEPTH in
  re_sub false base_url_re (rewrite_with prefix) content.

(** *** Example extraction *)

(** The pattern  ^ // \s* < ( \w+ ) > \s* $ *)
Definition OPEN_RE : regex :=
  (Bol ⋅ Chars (py "//") ⋅ Star ws ⋅ Chars (py "<") ⋅ Group (Plus word)
   ⋅ Chars (py ">") ⋅ Star ws ⋅ Eol)%re.

(** The pattern  ^ // \s* </ ( \w+ ) > \s* $ *)
Definition CLOSE_RE : regex :=
  (Bol ⋅ Chars (py "//") ⋅ Star ws ⋅ Chars (py "</") ⋅ Group (Plus word)
   ⋅ Chars (py ">") ⋅ Star ws ⋅ Eol)%re.

(** The local variables of the loop of [parse_region_tags]. *)
Record region_state : Type := RegionState {
  regions : gmap str str;
  current_tag : option str;
  lines : list str
}.

Definition m_open (line : str) : option rmatch := re_match false OPEN_RE (strip line).

Definition m_close (line : str) : option rmatch := re_match false CLOSE_RE (strip line).

(** One turn of [for line in text.splitlines()]. *)
Definition region_step (st : region_state) (line : str) : region_state :=
  match m_open line with
  | Some mo => RegionState (regions st) (Some (group 1 mo)) []
  | None =>
      match m_close line, current_tag st with
      | Some mc, Some tag =>
          if str_eqb tag (group 1 mc)
          then RegionState
                 (<[tag := Textwrap.dedent (join [LF] (lines st))]> (regions st))
                 None []
          else RegionState (regions st) (current_tag st) (lines st ++ [line])
      | _, Some _ => RegionState (regions st) (current_tag st) (lines st ++ [line])
      | _, None => st
      end
  end.

Definition region_loop (st : region_state) (ls : list str) : region_state :=
  fold_left region_step ls st.

(** [parse_region_tags], on the text of the file. *)
Definition parse_region_tags (text : str) : gmap str str :=
  regions (region_loop (RegionState ∅ None []) (splitlines text)).

(** The pattern  ^ --- \s* $  with [re.MULTILINE] *)
Definition HR_RE : regex := (Bol ⋅ Chars (py "---") ⋅ Star ws ⋅ Eol)%re.

(** The pattern  ^ uid: \s* ( .+ ) $  with [re.MULTILINE] *)
Definition UID_RE : regex :=
  (Bol ⋅ Chars (py "uid:") ⋅ Star ws ⋅ Group (Plus dot) ⋅ Eol)%re.

(** The pattern  \[!code-csharp\[\]\(\.\.\/examples\/ ( \S+ ) # ( \w+ ) \)\] *)
Definition CODE_REF_RE : regex :=
  (Chars (py "[!code-csharp[](../examples/") ⋅ Group (Plus non_ws)
   ⋅ Chars (py "#") ⋅ Group (Plus word) ⋅ Chars (py ")]"))%re.

(** Truth value of [current_uid]: neither [None] nor the empty string. *)
Definition truthy (u : option str) : bool :=
  match u with Some (_ :: _) => true | _ => false end.

(** The variables the section loop of [load_overwrite_examples] updates. *)
Record overwrite_state : Type := OverwriteState {
  uid_to_example : gmap str str;
  current_uid : option str
}.

(** One turn of [for section in sections]. *)
Definition section_step (all_regions : gmap str str) (st : overwrite_state)
    (section : str) : overwrite_state :=
  let section := strip section in
  match section with
  | [] => st
  | _ =>
      match re_search true UID_RE section with
      | Some uid_match => OverwriteState (uid_to_example st) (Some (strip (group 1 uid_match)))
      | None =>
          match re_search false CODE_REF_RE section, current_uid st with
          | Some code_ref, Some uid =>
              if truthy (current_uid st) then
                let region := group 2 code_ref in
                match all_regions !! region with
                | Some example => OverwriteState (<[uid := example]> (uid_to_example st)) None
                | None => OverwriteState (uid_to_example st) None
                end
              else st
          | _, _ => st
          end
      end
  end.

(** One turn of [for md_file in overwrite_dir.glob("*.md")], on the text of
    the file: [current_uid] starts at [None] in every file. *)
Definition overwrite_file (all_regions : gmap str str) (acc : gmap str str)
    (text : str) : gmap str str :=
  let sections := re_split true HR_RE text in
  uid_to_example
    (fold_left (section_step all_regions) sections (OverwriteState acc None)).

(** [load_overwrite_examples], on the texts of the files of the two
    directories in the order [glob] yields them.  [d.update(e)] keeps the
    entries of [e] where both have one. *)
Definition load_overwrite_examples (overwrite_files examples_files : list str)
    : gmap str str :=
  let all_regions :=
    fold_left (fun acc cs => parse_region_tags cs ∪ acc) examples_files ∅ in
  fold_left (overwrite_file all_regions) overwrite_files ∅.

(** *** Data model *)

Record MemberItem : Type := mkMemberItem {
  mi_uid : str;
  mi_name : str;
  mi_type_kind : str;                    (* Method, Property, Constructor, Field *)
  mi_summary : str;
  mi_syntax_content : str;
  mi_parameters : list (str * str * str);  (* name, type, description *)
  mi_return_type : str;
  mi_return_description : str;
  mi_example : str
}.

Record TypeItem : Type := mkTypeItem {
  uid : str;
  name : str;
  full_name : str;
  type_kind : str;                       (* Class, Struct, Enum, Interface *)
  summary : str;
  remarks : str;
  syntax_content : str;
  namespace : str;
  parent : str;
  inheritance : list str;
  implements : list str;
  children_uids : list str;
  members : list MemberItem;
  example : str
}.

(** *** Type-name shortening *)

(** The pattern  \{ ( [^}]+ ) \} *)
Definition GENERIC_RE : regex :=
  (Chars (py "{") ⋅ Group (Plus (none_of "}")) ⋅ Chars (py "}"))%re.

(** [_short_type] calls itself from the replacement function of [re.sub], on
    the text of the group; [fuel] bounds the depth of these calls. *)
Fixpoint _short_type_fuel (fuel : nat) (full : str) : str :=
  match fuel with
  | O => full
  | S fuel' =>
      match full with
      | [] => full
      | _ =>
          let full :=
            re_sub false GENERIC_RE
              (fun m => py "<" ++ _short_type_fuel fuel' (group 1 m) ++ py ">")
              full in
          last_segment "." full
      end
  end.

(** The text of a group is shorter than the subject, so its length bounds
    the depth. *)
Definition _short_type (full : str) : str :=
  _short_type_fuel (S (length full)) full.

(** *** Classification *)

Definition CLIENT_TYPES : list str :=
  [ py "CamundaClient"; py "Camunda"; py "CamundaServiceCollectionExtensions" ].

Definition CONFIGURATION_TYPES : gset str :=
  list_to_set
    [ py "CamundaOptions"; py "CamundaConfig"; py "ConfigurationHydrator";
      py "AuthConfig"; py "BasicAuthConfig"; py "OAuthConfig";
      py "OAuthRetryConfig"; py "HttpRetryConfig"; py "BackpressureConfig";
      py "EventualConfig"; py "ValidationConfig"; py "ValidationMode";
      py "AuthStrategy"; py "JobWorkerConfig"; py "ConfigErrorCode";
      py "ConfigErrorDetail" ].

(** [a or b] on strings: [a] unless it is empty. *)
Definition str_or (a b : str) : str := match a with [] => b | _ => a end.

(** [pages[key].append(t)]; the six keys are there from the start. *)
Definition page_append (key : string) (t : TypeItem)
    (pages : gmap string (list TypeItem)) : gmap string (list TypeItem) :=
  alter (fun l => l ++ [t]) key pages.

(** One turn of [for t in types]. *)
Definition classify_step (pages : gmap string (list TypeItem)) (t : TypeItem)
    : gmap string (list TypeItem) :=
  let ns := str_or (str_or (namespace t) (parent t)) [] in
  let name := name t in
  if bool_decide (name ∈ CLIENT_TYPES) then
    page_append "camunda-client" t pages
  else if bool_decide (name ∈ CONFIGURATION_TYPES) then
    page_append "configuration" t pages
  else if str_eqb (type_kind t) (py "Enum")
          && negb (bool_decide (name ∈ CONFIGURATION_TYPES)) then
    page_append "enums" t pages
  else if str_eqb (type_kind t) (py "Struct") && endswith name (py "Key") then
    page_append "keys" t pages
  else if contains (py "Runtime") ns then
    page_append "runtime" t pages
  else
    page_append "models" t pages.

Definition empty_pages : gmap string (list TypeItem) :=
  <["camunda-client" := []]> (<["configuration" := []]> (<["runtime" := []]>
  (<["models" := []]> (<["enums" := []]> (<["keys" := []]> ∅))))).

Definition classify_types (types : list TypeItem) : gmap string (list TypeItem) :=
  fold_left classify_step types empty_pages.

(** *** Method groups of the client page *)

Definition GROUP_PREFIXES : list (str * str) :=
  [ (py "ProcessInstance", py "Process Instances");
    (py "ProcessDefinition", py "Process Definitions");
    (py "Job", py "Jobs");
    (py "UserTask", py "User Tasks");
    (py "DecisionDefinition", py "Decision Definitions");
    (py "DecisionRequirements", py "Decision Requirements");
    (py "DecisionInstance", py "Decision Instances");
    (py "Decision", py "Decisions");
    (py "Incident", py "Incidents");
    (py "Variable", py "Variables");
    (py "FlowNode", py "Flow Nodes");
    (py "Element", py "Elements");
    (py "Message", py "Messages");
    (py "Signal", py "Signals");
    (py "Resource", py "Resources");
    (py "Deploy", py "Deployments");
    (py "Topology", py "Cluster");
    (py "Authentication", py "Cluster");
    (py "Clock", py "Cluster");
    (py "Backpressure", py "Cluster");
    (py "License", py "Cluster");
    (py "Worker", py "Job Workers");
    (py "RunWorkers", py "Job Workers");
    (py "Tenant", py "Tenants");
    (py "Role", py "Roles");
    (py "Group", py "Groups");
    (py "Mapping", py "Mappings");
    (py "Authorization", py "Authorizations");
    (py "AuditLog", py "Audit Logs");
    (py "BatchOperation", py "Batch Operations");
    (py "DocumentLink", py "Documents");
    (py "Document", py "Documents");
    (py "AdHocSubProcess", py "Ad Hoc Sub-Processes") ].

(** The pattern  Async $ *)
Definition ASYNC_RE : regex := (Chars (py "Async") ⋅ Eol)%re.

(** The loop [for prefix, group in GROUP_PREFIXES: if prefix in base: ...]. *)
Fixpoint first_group (table : list (str * str)) (base : str) : str :=
  match table with
  | (prefix, group) :: rest =>
      if contains prefix base then group else first_group rest base
  | [] => py "Other"
  end.

Definition _method_group (name : str) : str :=
  let base := re_sub false ASYNC_RE (fun _ => []) name in
  first_group GROUP_PREFIXES base.

End Generate.

(** ** [scripts/prune-toc.py] *)

Module PruneToc.
Import PyStr.

(** What [json.load] returns.  Of a number only its truth value matters
    here.  An object lists its members in file order, each key once. *)
Inductive json : Type :=
| JNull
| JBool (b : bool)
| JNum (n : Z)
| JStr (s : str)
| JArr (xs : list json)
| JObj (fields : list (str * json)).

(** Python's truth value: [if not x]. *)
Definition truth (x : json) : bool :=
  match x with
  | JNull => false
  | JBool b => b
  | JNum n => negb (n =? 0)%Z
  | JStr s => match s with [] => false | _ => true end
  | JArr xs => match xs with [] => false | _ => true end
  | JObj fs => match fs with [] => false | _ => true end
  end.

(** [d.get(k)]: [None] stands for a missing key. *)
Fixpoint dict_get (k : str) (d : list (str * json)) : option json :=
  match d with
  | [] => None
  | (k', v) :: d' => if str_eqb k' k then Some v else dict_get k d'
  end.

(** [del d[k]] *)
Fixpoint dict_del (k : str) (d : list (str * json)) : list (str * json) :=
  match d with
  | [] => []
  | (k', v) :: d' => if str_eqb k' k then dict_del k d' else (k', v) :: dict_del k d'
  end.

(** [d[k] = v]: a key already there keeps its place, a new one goes last. *)
Fixpoint dict_set (k : str) (v : json) (d : list (str * json)) : list (str * json) :=
  match d with
  | [] => [(k, v)]
  | (k', v') :: d' => if str_eqb k' k then (k', v) :: d' else (k', v') :: dict_set k v d'
  end.

Definition KEEP_MEMBERS_FOR : gset str := {[ py "Camunda.Client.CamundaClient" ]}.

(** [uid in KEEP_MEMBERS_FOR]: membership in a set hashes [uid], which
    raises [TypeError] ([None] here) for a list or a dict. *)
Definition in_keep (uid : json) : option bool :=
  match uid with
  | JStr s => Some (bool_decide (s ∈ KEEP_MEMBERS_FOR))
  | JArr _ | JObj _ => None
  | _ => Some false
  end.

(** [x == "Namespace"] *)
Definition is_namespace (x : option json) : bool :=
  match x with
  | Some (JStr s) => str_eqb s (py "Namespace")
  | _ => false
  end.

(** [prune] changes its argument in place and returns nothing; here it
    returns the argument as it is after the call, or [None] when the call
    raises an exception.  [visit] is the body of the loop, on one [item];
    [under] is the recursive call [prune(children)], where [children] is the
    value of the key [items] of the item. *)
Fixpoint prune (items : json) : option json :=
  match items with
  | JArr (x :: xs) =>
      JArr <$>
        (fix loop (l : list json) : option (list json) :=
           match l with
           | [] => Some []
           | item :: rest =>
               item' ←
                 match item with
                 | JObj d =>
                     let uid := default (JStr []) (dict_get (py "topicUid") d) in
                     match dict_get (py "items") d with
                     | None => Some item
                     | Some children =>
                         if negb (truth children) then Some item
                         else if is_namespace (dict_get (py "type") d) then
                           JObj <$>
                             (fix under (fs : list (str * json))
                                  : option (list (str * json)) :=
                                match fs with
                                | [] => Some []
                                | (k, v) :: fs' =>
                                    if str_eqb k (py "items")
                                    then v' ← prune v; Some ((k, v') :: fs')
                                    else ((k, v) ::.) <$> under fs'
                                end) d
                         else
                           keep ← in_keep uid;
                           if keep : bool then Some item
                           else Some (JObj (dict_set (py "leaf") (JBool true)
                                              (dict_del (py "items") d)))
                     end
                 | _ => None      (* no [get] on what is not a dict *)
                 end;
               rest' ← loop rest;
               Some (item' :: rest')
           end) (x :: xs)
  | JArr [] | JNull | JBool false | JStr [] | JObj [] => Some items
  | JNum n => if (n =? 0)%Z then Some items else None
  | JBool true | JStr (_ :: _) | JObj (_ :: _) => None
  end.

(** The parts of [prune] by name: the recursive call on the child list found
    under the key [items], the body of the loop, and the loop. *)
Fixpoint under (fs : list (str * json)) : option (list (str * json)) :=
  match fs with
  | [] => Some []
  | (k, v) :: fs' =>
      if str_eqb k (py "items")
      then v' ← prune v; Some ((k, v') :: fs')
      else ((k, v) ::.) <$> under fs'
  end.

Definition visit (item : json) : option json :=
  match item with
  | JObj d =>
      let uid := default (JStr []) (dict_get (py "topicUid") d) in
      match dict_get (py "items") d with
      | None => Some item
      | Some children =>
          if negb (truth children) then Some item
          else if is_namespace (dict_get (py "type") d) then JObj <$> under d
          else
            keep ← in_keep uid;
            if keep : bool then Some item
            else Some (JObj (dict_set (py "leaf") (JBool true)
                               (dict_del (py "items") d)))
      end
  | _ => None
  end.

Fixpoint loop (l : list json) : option (list json) :=
  match l with
  | [] => Some []
  | item :: rest =>
      item' ← visit item; rest' ← loop rest; Some (item' :: rest')
  end.

(** [main], from the parsed file to what is written back. *)
Definition main (data : json) : option json :=
  match data with
  | JObj d =>
      match dict_get (py "items") d with
      | Some root => root' ← prune root; Some (JObj (dict_set (py "items") root' d))
      | None => prune data
      end
  | _ => prune data
  end.

End PruneToc.

(** ** The classifier as the specification words it *)

Module ClassifierSpec.
Import PyStr Generate.

(** The six output pages. *)
Inductive bucket : Type :=
| CamundaClient | Configuration | Runtime | Models | Enums | Keys.

#[global] Instance bucket_eq_dec : EqDecision bucket.
Proof. solve_decision. Defined.

Definition all_buckets : list bucket :=
  [CamundaClient; Configuration; Runtime; Models; Enums; Keys].

Definition bucket_key (b : bucket) : string :=
  match b with
  | CamundaClient => "camunda-client"
  | Configuration => "configuration"
  | Runtime => "runtime"
  | Models => "models"
  | Enums => "enums"
  | Keys => "keys"
  end.

(** A rule is a condition on the type and the page it sends the type to. *)
Definition rule : Type := (TypeItem -> Prop) * bucket.

(** Rule (a): the name is one of the three client names. *)
Definition rule_client (t : TypeItem) : Prop :=
  name t = py "CamundaClient" \/ name t = py "Camunda"
  \/ name t = py "CamundaServiceCollectionExtensions".

(** Rule (b): the name is in the configuration set. *)
Definition rule_configuration (t : TypeItem) : Prop :=
  name t ∈ CONFIGURATION_TYPES.

(** Rule (c): kind Enum, name not in the configuration set. *)
Definition rule_enum (t : TypeItem) : Prop :=
  type_kind t = py "Enum" /\ name t ∉ CONFIGURATION_TYPES.

(** Rule (d): kind Struct, name ending in Key. *)
Definition rule_key (t : TypeItem) : Prop :=
  type_kind t = py "Struct" /\ ∃ stem, name t = stem ++ py "Key".

(** Rule (e): the namespace, or the parent when the namespace is empty,
    contains Runtime. *)
Definition rule_runtime (t : TypeItem) : Prop :=
  let ns := match namespace t with [] => parent t | ns => ns end in
  ∃ before after, ns = before ++ py "Runtime" ++ after.

(** The rules in their order; rule (f), the default, is [Models]. *)
Definition rules : list rule :=
  [ (rule_client, CamundaClient); (rule_configuration, Configuration);
    (rule_enum, Enums); (rule_key, Keys); (rule_runtime, Runtime) ].

(** First match wins: a rule places the type when it applies and none of the
    rules before it does. *)
Inductive first_match : list rule -> TypeItem -> bucket -> Prop :=
| fm_here (P : TypeItem -> Prop) b rs t :
    P t -> first_match ((P, b) :: rs) t b
| fm_later (P : TypeItem -> Prop) b rs t b' :
    ¬ P t -> first_match rs t b' -> first_match ((P, b) :: rs) t b'
| fm_default t :
    first_match [] t Models.

(** The branch of the [if] chain of [classify_types] a type takes. *)
Definition branch_of (t : TypeItem) : bucket :=
  let ns := str_or (str_or (namespace t) (parent t)) [] in
  if bool_decide (name t ∈ CLIENT_TYPES) then CamundaClient
  else if bool_decide (name t ∈ CONFIGURATION_TYPES) then Configuration
  else if str_eqb (type_kind t) (py "Enum")
          && negb (bool_decide (name t ∈ CONFIGURATION_TYPES)) then Enums
  else if str_eqb (type_kind t) (py "Struct") && endswith (name t) (py "Key")
  then Keys
  else if contains (py "Runtime") ns then Runtime
  else Models.

End ClassifierSpec.

(** ** Method groups as the specification words them *)

Module MethodGroupSpec.
Import PyStr Generate.

(** [key] occurs in [base] at its start. *)
Definition is_prefix_of (key base : str) : Prop := ∃ after, base = key ++ after.

(** [key] occurs somewhere in [base]. *)
Definition occurs_in (key base : str) : Prop :=
  ∃ before after, base = before ++ key ++ after.

(** The label of the first entry of the table whose key matches, [Other]
    when no key does. *)
Inductive first_entry (matches : str -> str -> Prop)
    : list (str * str) -> str -> str -> Prop :=
| fe_here key label table base :
    matches key base -> first_entry matches ((key, label) :: table) base label
| fe_later key label table base label' :
    ¬ matches key base -> first_entry matches table base label' ->
    first_entry matches ((key, label) :: table) base label'
| fe_other base :
    first_entry matches [] base (py "Other").

(** The name without a final Async. *)
Definition without_async (name : str) : str :=
  if endswith name (py "Async") then take (length name - 5) name else name.

(** The reading by prefix: the first entry whose key the stripped name
    starts with. *)
Fixpoint first_prefix_group (table : list (str * str)) (base : str) : str :=
  match table with
  | (prefix, group) :: rest =>
      if startswith base prefix then group else first_prefix_group rest base
  | [] => py "Other"
  end.

Definition method_group_by_prefix (name : str) : str :=
  first_prefix_group GROUP_PREFIXES (without_async name).

End MethodGroupSpec.

(** ** Region markers and overwrite sections as the specification words them *)

Module ExampleSpec.
Import PyStr Re Generate.

Definition all_ws (s : str) : Prop := Forall (fun c => is_space c = true) s.

(** A region name: one or more word characters. *)
Definition is_name (n : str) : Prop :=
  n ≠ [] /\ Forall (fun c => is_word c = true) n.

(** A marker on a line of its own: a comment sign, the bracket [bra], the
    name and a closing bracket, with white space allowed around the comment
    sign and at the end. *)
Definition marker (bra name line : str) : Prop :=
  ∃ indent gap trail,
    all_ws indent /\ all_ws gap /\ all_ws trail /\ is_name name
    /\ line = indent ++ py "//" ++ gap ++ bra ++ name ++ py ">" ++ trail.

(** A start marker  // <Name> *)
Definition start_marker (name line : str) : Prop := marker (py "<") name line.

(** A close marker  // </Name> *)
Definition end_marker (name line : str) : Prop := marker (py "</") name line.

(** The two marker patterns differ in the bracket only. *)
Definition marker_re (bra : str) : regex :=
  (Bol ⋅ Chars (py "//") ⋅ Star ws ⋅ Chars bra ⋅ Group (Plus word)
   ⋅ Chars (py ">") ⋅ Star ws ⋅ Eol)%re.

(** The state of the loop of [parse_region_tags] before the first line. *)
Definition region_init : region_state := RegionState ∅ None [].

(** A section of an overwrite file that declares the unique-id [uid]. *)
Definition declares_uid (section uid : str) : Prop :=
  ∃ m, re_search true UID_RE (strip section) = Some m /\ strip (group 1 m) = uid.

(** A section that declares no unique-id and holds a code reference to the
    region [region]. *)
Definition references (section region : str) : Prop :=
  strip section ≠ []
  /\ re_search true UID_RE (strip section) = None
  /\ ∃ m, re_search false CODE_REF_RE (strip section) = Some m /\ group 2 m = region.

(** A section that is empty, or neither declares a unique-id nor holds a
    code reference. *)
Definition inert (section : str) : Prop :=
  strip section = []
  \/ (re_search true UID_RE (strip section) = None
      /\ re_search false CODE_REF_RE (strip section) = None).

End ExampleSpec.

(** ** Pruning as the specification words it *)

Module PruneSpec.
Import PyStr PruneToc.

(** The child list is missing or empty. *)
Definition no_children (d : list (str * json)) : Prop :=
  dict_get (py "items") d = None
  \/ ∃ ch, dict_get (py "items") d = Some ch /\ truth ch = false.

Definition has_children (d : list (str * json)) : Prop :=
  ∃ ch, dict_get (py "items") d = Some ch /\ truth ch = true.

Definition namespace_kind (d : list (str * json)) : Prop :=
  dict_get (py "type") d = Some (JStr (py "Namespace")).

(** The unique-id is in the allow-list. *)
Definition allow_listed (d : list (str * json)) : Prop :=
  ∃ s, dict_get (py "topicUid") d = Some (JStr s) /\ s ∈ KEEP_MEMBERS_FOR.

(** [pruned node node']: what the pass makes of a node it visits.  The
    children of a Namespace node are visited in turn; no other node is
    entered. *)
Inductive pruned : json -> json -> Prop :=
| pruned_leafless d :
    no_children d -> pruned (JObj d) (JObj d)
| pruned_namespace d d' xs ys :
    dict_get (py "items") d = Some (JArr xs) -> xs ≠ [] ->
    namespace_kind d ->
    Forall2 pruned xs ys ->
    dict_get (py "items") d' = Some (JArr ys) ->
    (∀ k, k ≠ py "items" -> dict_get k d' = dict_get k d) ->
    pruned (JObj d) (JObj d')
| pruned_kept d :
    has_children d -> ¬ namespace_kind d -> allow_listed d ->
    pruned (JObj d) (JObj d)
| pruned_stripped d d' :
    has_children d -> ¬ namespace_kind d -> ¬ allow_listed d ->
    dict_get (py "items") d' = None ->
    dict_get (py "leaf") d' = Some (JBool true) ->
    (∀ k, k ≠ py "items" -> k ≠ py "leaf" -> dict_get k d' = dict_get k d) ->
    pruned (JObj d) (JObj d').

(** A node of a table of contents: an object in which [topicUid], when
    there, is a string and [items], when there, is a list of nodes; any of
    [topicUid], [items], [type] and [leaf] may be missing. *)
Inductive toc_node : json -> Prop :=
| toc_node_obj d :
    (∀ u, dict_get (py "topicUid") d = Some u -> ∃ s, u = JStr s) ->
    (∀ ch, dict_get (py "items") d = Some ch ->
           ∃ xs, ch = JArr xs /\ Forall toc_node xs) ->
    toc_node (JObj d).

(** [node_of toc d]: the object [d] is a node of the tree, at any depth. *)
Inductive node_of : json -> list (str * json) -> Prop :=
| node_top xs d :
    JObj d ∈ xs -> node_of (JArr xs) d
| node_below xs d ch d' :
    JObj d ∈ xs -> dict_get (py "items") d = Some ch -> node_of ch d' ->
    node_of (JArr xs) d'.

End PruneSpec.

(** ** Links as the specification words them *)

Module LinkSpec.
Import PyStr Generate.

(** The Markdown link [text](scheme://docs.camunda.io/docs/tail). *)
Definition docs_link (text scheme tail : str) : str :=
  py "[" ++ text ++ py "](" ++ scheme ++ py "://docs.camunda.io/docs/"
  ++ tail ++ py ")".

(** The link is one the rewriter takes: no closing bracket in the text, the
    scheme http or https, and a target that ends at the first closing
    parenthesis, on the line it starts on. *)
Definition is_docs_link (text scheme tail : str) : Prop :=
  ("]"%char ∉ text)
  /\ (scheme = py "http" \/ scheme = py "https")
  /\ (")"%char ∉ tail)
  /\ (LF ∉ tail).

(** A link the rewriter takes occurs somewhere in [content]. *)
Definition has_docs_link (content : str) : Prop :=
  ∃ before text scheme tail after,
    is_docs_link text scheme tail
    /\ content = before ++ docs_link text scheme tail ++ after.

(** [content] starts with a link the rewriter takes. *)
Definition starts_with_docs_link (content : str) : Prop :=
  ∃ text scheme tail after,
    is_docs_link text scheme tail
    /\ content = docs_link text scheme tail ++ after.

(** The path of the target: what follows the optional [next/]. *)
Definition url_path (tail : str) : str :=
  if startswith tail (py "next/") then drop 5 tail else tail.

(** The link as rewritten, [depth] levels up: the text as it was, the path
    without trailing slashes, with the renamed segments, and [.md]. *)
Definition relative_link (depth : nat) (text tail : str) : str :=
  py "[" ++ text ++ py "](" ++ str_mul (py "../") depth
  ++ replace (rstrip_chr "/" (url_path tail))
       (py "camunda-api-rest") (py "orchestration-cluster-api-rest")
  ++ py ".md)".

End LinkSpec.

(** ** Sample inputs *)

Module Samples.
Import PyStr Generate.

(** A type of which only the fields the classifier reads are filled in. *)
Definition type_item (name kind namespace parent : string) : TypeItem :=
  mkTypeItem [] (py name) [] (py kind) [] [] [] (py namespace) (py parent)
    [] [] [] [] [].

Definition client_type : TypeItem :=
  type_item "CamundaClient" "Class" "Camunda.Orchestration.Sdk" "".

Definition runtime_key : TypeItem :=
  type_item "ProcessInstanceKey" "Struct" "Camunda.Orchestration.Sdk.Runtime" "".

Definition status_enum : TypeItem :=
  type_item "JobState" "Enum" "Camunda.Orchestration.Sdk" "".

(** A multi-argument generic type name, as DocFX writes it. *)
Definition dictionary_type : str :=
  py "System.Collections.Generic.Dictionary{System.String,My.Type}".


(** An example file with one region. *)
Definition sample_example_file : str :=
  join [LF]
    [ py "class C {";
      py "  // <Sample>";
      py "    var x = 1;";
      py "      var y = 2;";
      py "  // </Sample>";
      py "}" ].

(** An example file with two regions of the same name. *)
Definition twice_named_file : str :=
  join [LF]
    [ py "// <A>"; py "x"; py "// </A>"; py "// <A>"; py "y"; py "// </A>" ].

(** An example file in which region B starts before region A is closed. *)
Definition nested_file : str :=
  join [LF]
    [ py "// <A>"; py "lost"; py "// <B>"; py "kept"; py "// </B>" ].

(** An overwrite file: a unique-id, a code reference to a region no example
    file has, then a code reference to a region that exists. *)
Definition sample_overwrite_file : str :=
  join [LF]
    [ py "---";
      py "uid: M:Foo.Bar";
      py "example:";
      py "- *content";
      py "---";
      py "[!code-csharp[](../examples/Foo.cs#Missing)]";
      py "---";
      py "[!code-csharp[](../examples/Foo.cs#Sample)]" ].

Definition sample_regions : gmap str str := {[ py "Sample" := py "var x = 1;" ]}.

(** A table of contents in which the client type, whose members are kept,
    has a member with members of its own. *)
Definition nested_member : list (str * PruneToc.json) :=
  [ (py "name", PruneToc.JStr (py "Nested"));
    (py "topicUid", PruneToc.JStr (py "Camunda.Client.CamundaClient.Nested"));
    (py "items", PruneToc.JArr [PruneToc.JObj [(py "name", PruneToc.JStr (py "M"))]]) ].

Definition client_toc : PruneToc.json :=
  PruneToc.JArr
    [ PruneToc.JObj
        [ (py "name", PruneToc.JStr (py "CamundaClient"));
          (py "topicUid", PruneToc.JStr (py "Camunda.Client.CamundaClient"));
          (py "items", PruneToc.JArr [PruneToc.JObj nested_member]) ] ].

(** A namespace with one class that has one member. *)
Definition namespace_toc : PruneToc.json :=
  PruneToc.JArr
    [ PruneToc.JObj
        [ (py "name", PruneToc.JStr (py "Camunda.Client"));
          (py "type", PruneToc.JStr (py "Namespace"));
          (py "items",
            PruneToc.JArr
              [ PruneToc.JObj
                  [ (py "name", PruneToc.JStr (py "Job"));
                    (py "topicUid", PruneToc.JStr (py "Camunda.Client.Job"));
                    (py "items",
                      PruneToc.JArr
                        [PruneToc.JObj [(py "name", PruneToc.JStr (py "Id"))]]) ] ]) ] ].

(** The link of the specification, and a link whose target holds the
    start of another link. *)
Definition sample_link : str :=
  py "[text](https://docs.camunda.io/docs/next/some/path/)".

Definition link_in_target : str :=
  py "[a](https://docs.camunda.io/docs/[b](https://docs.camunda.io/docs/y)".

(** A text whose only link is relative already. *)
Definition relative_page : str := py "See [the guide](../../../guides/intro.md).".

(** An example file with a region and, after it, a close marker that closes
    nothing. *)
Definition stray_close_file : str :=
  join [LF] [ py "// <A>"; py "  x"; py "// </A>"; py "y"; py "// </A>" ].

(** A section that holds a code reference and a unique-id line. *)
Definition redeclaring_section : str :=
  py "uid: M:Other" ++ [LF] ++ py "[!code-csharp[](../examples/Foo.cs#Sample)]".


End Samples.

(** ** The page generators of [scripts/generate-docusaurus-md.py] *)

Module Pages.
Import PyStr Re Generate.

Definition QUOTE : ascii := ascii_of_N 34.
Definition BACKSLASH : ascii := ascii_of_N 92.
Definition BACKTICK : ascii := ascii_of_N 96.

(** [str(n)] for a length. *)
Definition str_of_nat (n : nat) : str :=
  py (NilEmpty.string_of_uint (Nat.to_uint n)).

(** *** Front matter *)

Definition _escape_yaml (s : str) : str := replace s [QUOTE] [BACKSLASH; QUOTE].

(** [FRONTMATTER_TEMPLATE.format(...)]; [label or title] takes the title for
    a label that is [None] or empty. *)
Definition frontmatter (title : str) (label : option str) : str :=
  py "---" ++ [LF]
  ++ py "title: " ++ [QUOTE] ++ _escape_yaml title ++ [QUOTE] ++ [LF]
  ++ py "sidebar_label: " ++ [QUOTE]
  ++ _escape_yaml (str_or (default [] label) title) ++ [QUOTE] ++ [LF]
  ++ py "mdx:" ++ [LF]
  ++ py "  format: md" ++ [LF]
  ++ py "---" ++ [LF].

(** *** Markdown helpers *)

(** The pattern  ^ \[ .*? \] \n?  with [re.MULTILINE] *)
Definition ATTRIBUTE_RE : regex :=
  (Bol ⋅ Chars (py "[") ⋅ StarLazy dot ⋅ Chars (py "]") ⋅ Opt (Chars [LF]))%re.

Definition _md_signature (syntax : str) : str :=
  match syntax with
  | [] => []
  | _ =>
      let clean := strip (re_sub true ATTRIBUTE_RE (fun _ => []) syntax) in
      py "```csharp" ++ [LF] ++ clean ++ [LF] ++ py "```" ++ [LF]
  end.

(** One row of a table: the cells between bars. *)
Definition one_line (s : str) : str := replace s [LF] (py " ").

Definition params_row (p : str * str * str) : str :=
  let '(name, type, description) := p in
  py "| `" ++ name ++ py "` | `" ++ type ++ py "` | " ++ one_line description
  ++ py " |".

Definition _md_params_table (params : list (str * str * str)) : str :=
  match params with
  | [] => []
  | _ =>
      let lines :=
        fold_left (fun lines p => lines ++ [params_row p]) params
          [ py "| Parameter | Type | Description |"; py "| --- | --- | --- |" ] in
      join [LF] lines ++ [LF]
  end.

Definition has_kind (kind : string) (m : MemberItem) : bool :=
  str_eqb (mi_type_kind m) (py kind).

Definition property_row (p : MemberItem) : str :=
  py "| `" ++ mi_name p ++ py "` | `" ++ mi_return_type p ++ py "` | "
  ++ one_line (mi_summary p) ++ py " |".

Definition _md_properties_table (members : list MemberItem) : str :=
  let props := List.filter (has_kind "Property") members in
  match props with
  | [] => []
  | _ =>
      let lines :=
        fold_left (fun lines p => lines ++ [property_row p]) props
          [ py "| Property | Type | Description |"; py "| --- | --- | --- |" ] in
      join [LF] lines ++ [LF]
  end.

Definition value_row (f : MemberItem) : str :=
  py "| `" ++ mi_name f ++ py "` | " ++ one_line (mi_summary f) ++ py " |".

Definition _md_enum_values (t : TypeItem) : str :=
  let fields := List.filter (has_kind "Field") (members t) in
  match fields with
  | [] => []
  | _ =>
      let lines :=
        fold_left (fun lines f => lines ++ [value_row f]) fields
          [ py "| Value | Description |"; py "| --- | --- |" ] in
      join [LF] lines ++ [LF]
  end.

(** *** [sorted(types, key=lambda t: t.name)] *)

(** [a < b] on strings: by code point, a proper prefix first. *)
Fixpoint str_ltb (a b : str) : bool :=
  match a, b with
  | _, [] => false
  | [], _ :: _ => true
  | x :: a', y :: b' =>
      (code x <? code y)%N || ((code x =? code y)%N && str_ltb a' b')
  end.

(** [sorted] is stable: of two items with equal keys the one that comes
    first in the input comes first in the result.  [insert_by key x l] puts
    [x], which stood before the items of [l], in front of the first item
    whose key is not smaller than its own. *)
Fixpoint insert_by {A} (key : A -> str) (x : A) (l : list A) : list A :=
  match l with
  | [] => [x]
  | y :: l' => if str_ltb (key y) (key x) then y :: insert_by key x l' else x :: l
  end.

Definition sorted_by {A} (key : A -> str) (l : list A) : list A :=
  foldr (insert_by key) [] l.

(** *** Pages *)

(** One turn of the loop of [generate_enums]. *)
Definition enums_step (out : str) (t : TypeItem) : str :=
  let out := out ++ [LF] ++ py "## " ++ name t ++ [LF; LF] in
  let out := match summary t with [] => out | s => out ++ s ++ [LF; LF] end in
  out ++ _md_enum_values t ++ [LF].

Definition generate_enums (types : list TypeItem) : str :=
  let out := frontmatter (py "Enums") (Some (py "Enums")) in
  let out := out ++ [LF] ++ py "# Enums" ++ [LF; LF] in
  let out :=
    out ++ py "Enumeration types (" ++ str_of_nat (length types) ++ py " enums)."
    ++ [LF; LF] in
  fold_left enums_step (sorted_by name types) out.

(** The two loops of [generate_keys]. *)
Definition keys_overview_step (out : str) (t : TypeItem) : str :=
  out ++ py "| `" ++ name t ++ py "` | " ++ summary t ++ py " |" ++ [LF].

Definition keys_details_step (out : str) (t : TypeItem) : str :=
  let out := out ++ [LF] ++ py "### " ++ name t ++ [LF; LF] in
  let out := match summary t with [] => out | s => out ++ s ++ [LF; LF] end in
  out ++ _md_signature (syntax_content t).

Definition generate_keys (types : list TypeItem) : str :=
  let out := frontmatter (py "Keys") (Some (py "Keys")) in
  let out := out ++ [LF] ++ py "# Key Types" ++ [LF; LF] in
  let out :=
    out ++ py "Strongly-typed domain key types provide compile-time safety for entity identifiers. " in
  let out :=
    out ++ py "Each key wraps a string value and ensures type-safe API calls."
    ++ [LF; LF] in
  let out := out ++ py "## Overview" ++ [LF; LF] in
  let out := out ++ py "| Key Type | Description |" ++ [LF] in
  let out := out ++ py "| --- | --- |" ++ [LF] in
  let out := fold_left keys_overview_step (sorted_by name types) out in
  let out := out ++ [LF] ++ py "## Common Methods" ++ [LF; LF] in
  let out := out ++ py "All key types share these methods:" ++ [LF; LF] in
  let out := out ++ py "| Method | Description |" ++ [LF] in
  let out := out ++ py "| --- | --- |" ++ [LF] in
  let out :=
    out ++ py "| `AssumeExists(string)` | Creates a key from a known-valid string value. |"
    ++ [LF] in
  let out :=
    out ++ py "| `IsValid(string)` | Validates whether a string is a valid key value. |"
    ++ [LF] in
  let out := out ++ py "| `Value` | Gets the underlying string value. |" ++ [LF] in
  let out := out ++ py "| `ToString()` | Returns the string representation. |" ++ [LF] in
  let out := out ++ [LF] ++ py "## Details" ++ [LF; LF] in
  fold_left keys_details_step (sorted_by name types) out.

(** What [main] does to the text of a generated page before writing it. *)
Definition published (content : str) : str :=
  let content := rewrite_camunda_docs_links content in
  inject_tech_preview_banner content.

(** The grouping loop of [generate_camunda_client]: [groups] is a dict, which
    keeps its keys in the order they were first set.
    [groups.setdefault(group, []).append(m)] *)
Fixpoint group_append (g : str) (m : MemberItem)
    (groups : list (str * list MemberItem)) : list (str * list MemberItem) :=
  match groups with
  | [] => [(g, [m])]
  | (g', ms) :: rest =>
      if str_eqb g' g then (g', ms ++ [m]) :: rest
      else (g', ms) :: group_append g m rest
  end.

Definition group_methods (members : list MemberItem)
    : list (str * list MemberItem) :=
  let methods := List.filter (has_kind "Method") members in
  fold_left (fun groups m => group_append (_method_group (mi_name m)) m groups)
    methods [].

(** *** Landing page clean-up *)

Definition any (c : ascii) : bool := true.                  (* . with DOTALL *)

Definition CUT_START : str := py "<!-- docs:cut:start -->".
Definition CUT_END : str := py "<!-- docs:cut:end -->".

(** The pattern  <!-- docs:cut:start --> .*? <!-- docs:cut:end --> \n?
    with [re.DOTALL] *)
Definition CUT_RE : regex :=
  (Chars CUT_START ⋅ StarLazy any ⋅ Chars CUT_END ⋅ Opt (Chars [LF]))%re.

Definition _strip_cut_sections (content : str) : str :=
  re_sub false CUT_RE (fun _ => []) content.

(** The pattern  \n{4,} *)
Definition EMPTY_LINES_RE : regex := (Chars [LF; LF; LF; LF] ⋅ Star (chr_eqb LF))%re.

Definition _clean_empty_lines (content : str) : str :=
  re_sub false EMPTY_LINES_RE (fun _ => [LF; LF; LF]) content.

End Pages.

(** ** Patterns that do not look at their surroundings *)

Module ReSpec.
Import PyStr Re.

(** A pattern without [^] and [$]: whether and how it matches at a place
    depends on the text from that place on only. *)
Fixpoint anchor_free (r : regex) : bool :=
  match r with
  | Bol | Eol => false
  | Opt r' | Group r' => anchor_free r'
  | Cat r1 r2 => anchor_free r1 && anchor_free r2
  | Chars _ | Class _ | Star _ | Plus _ | StarLazy _ => true
  end.

(** Two positions of the matcher with the same text ahead and the same
    groups, and two results of that kind. *)
Definition same_ahead (a b : mstate) : Prop :=
  m_rest a = m_rest b /\ m_groups a = m_groups b.

Definition same_result (a b : option mstate) : Prop :=
  match a, b with
  | Some x, Some y => same_ahead x y
  | None, None => True
  | _, _ => False
  end.

End ReSpec.

(** ** Signatures with attribute lines *)

Module PagesSpec.
Import PyStr.

(** Attribute lines, as C# writes them above a declaration: each attribute
    in brackets on a line of its own. *)
Definition attribute_lines (attrs : list str) : str :=
  concat (map (fun a => py "[" ++ a ++ py "]" ++ [LF]) attrs).

(** No line of [s] starts with the character [c]. *)
Definition no_line_starts_with (c : ascii) (s : str) : Prop :=
  ∀ p1 p2, s = p1 ++ c :: p2 -> ∃ d, last p1 = Some d /\ d ≠ LF.

End PagesSpec.

(** ** Headings, regions and resolutions, in the words of the claims *)

Module BannerSpec.
Import PyStr Generate.







End BannerSpec.

Module ResolutionSpec.
Import PyStr Re Generate ExampleSpec.

(** The line [o], the lines [body] and the line [c] are a region called
    [name]: a start marker, lines none of which is a start marker or a
    close marker of the name, and a close marker of the name. *)
Definition is_region (name o : str) (body : list str) (c : str) : Prop :=
  start_marker name o /\ end_marker name c
  /\ ∀ l, l ∈ body -> (∀ n, ¬ start_marker n l) /\ ¬ end_marker name l.

(** The region mapping [all_regions] that [load_overwrite_examples] builds
    first. *)
Definition all_regions_of (examples_files : list str) : gmap str str :=
  fold_left (fun acc cs => parse_region_tags cs ∪ acc) examples_files ∅.

(** A section that holds a code reference to the region [region], whatever
    else it holds. *)
Definition holds_code_reference (section region : str) : Prop :=
  strip section ≠ []
  /\ ∃ m, re_search false CODE_REF_RE (strip section) = Some m
          /\ group 2 m = region.

End ResolutionSpec.

(** * Properties *)

(** ** Strings *)

Section PyStrFacts.
Import PyStr.

Lemma chr_eqb_eq (a b : ascii) : chr_eqb a b = true <-> a = b.
Proof. apply Ascii.eqb_eq. Qed.

Lemma chr_eqb_refl (a : ascii) : chr_eqb a a = true.
Proof. by apply chr_eqb_eq. Qed.

Lemma chr_eqb_neq (a b : ascii) : chr_eqb a b = false <-> a ≠ b.
Proof. apply Ascii.eqb_neq. Qed.

Lemma str_eqb_eq (a b : str) : str_eqb a b = true <-> a = b.
Proof.
  revert b; induction a as [|x a IH]; intros [|y b]; simpl; try easy.
  rewrite andb_true_iff, chr_eqb_eq, IH. split.
  - by intros [-> ->].
  - by intros [= -> ->].
Qed.

Lemma str_eqb_refl (a : str) : str_eqb a a = true.
Proof. by apply str_eqb_eq. Qed.

Lemma str_eqb_neq (a b : str) : str_eqb a b = false <-> a ≠ b.
Proof.
  rewrite <- str_eqb_eq. destruct (str_eqb a b); split; congruence.
Qed.

Lemma strip_prefix_Some (p s t : str) : strip_prefix p s = Some t <-> s = p ++ t.
Proof.
  revert s; induction p as [|x p IH]; intros s; simpl.
  - split; [by intros [= ->]|by intros ->].
  - destruct s as [|y s]; [easy|].
    destruct (chr_eqb x y) eqn:E.
    + apply chr_eqb_eq in E as ->. rewrite IH. split; [by intros ->|by intros [= ->]].
    + apply chr_eqb_neq in E. split; [easy|]. intros [= -> _]. by destruct E.
Qed.

Lemma strip_prefix_app (p t : str) : strip_prefix p (p ++ t) = Some t.
Proof. by apply strip_prefix_Some. Qed.

Lemma startswith_true (s p : str) : startswith s p = true <-> ∃ t, s = p ++ t.
Proof.
  unfold startswith. destruct (strip_prefix p s) as [t|] eqn:E.
  - apply strip_prefix_Some in E. split; [by exists t|done].
  - split; [done|]. intros [t Ht]. apply strip_prefix_Some in Ht. congruence.
Qed.

Lemma endswith_true (s p : str) : endswith s p = true <-> ∃ stem, s = stem ++ p.
Proof.
  unfold endswith. rewrite startswith_true. split.
  - intros [t Ht]. exists (rev t).
    apply (f_equal (@rev ascii)) in Ht. by rewrite rev_app_distr, !rev_involutive in Ht.
  - intros [stem ->]. exists (rev stem). by rewrite rev_app_distr.
Qed.

Lemma contains_true (p s : str) :
  contains p s = true <-> ∃ before after, s = before ++ p ++ after.
Proof.
  induction s as [|c s IH]; simpl.
  - rewrite orb_false_r, startswith_true. split.
    + intros [t Ht]. by exists [], t.
    + intros (b & a & H). destruct b; [by exists a|done].
  - rewrite orb_true_iff, startswith_true, IH. split.
    + intros [[t Ht]|(b & a & ->)]; [by exists [], t|by exists (c :: b), a].
    + intros (b & a & H). destruct b as [|x b]; [left; by exists a|].
      injection H as -> ->. right. by exists b, a.
Qed.

End PyStrFacts.

(** ** Classification *)

Section ClassifierFacts.
Import PyStr Generate ClassifierSpec.

Lemma bucket_key_inj (b b' : bucket) : bucket_key b = bucket_key b' -> b = b'.
Proof. by destruct b, b'. Qed.

Lemma all_buckets_complete (b : bucket) : b ∈ all_buckets.
Proof. unfold all_buckets. destruct b; set_solver. Qed.

Lemma classify_step_branch (pages : gmap string (list TypeItem)) (t : TypeItem) :
  classify_step pages t = page_append (bucket_key (branch_of t)) t pages.
Proof.
  unfold classify_step, branch_of.
  repeat match goal with |- context [if ?c then _ else _] => destruct c end; done.
Qed.

Lemma classify_fold (types : list TypeItem) (pages : gmap string (list TypeItem))
    (b : bucket) :
  fold_left classify_step types pages !! bucket_key b
  = (fun l => l ++ filter (fun t => branch_of t = b) types) <$> pages !! bucket_key b.
Proof.
  revert pages; induction types as [|t types IH]; intros pages; simpl.
  - destruct (pages !! bucket_key b); simpl; [by rewrite app_nil_r|done].
  - rewrite IH, classify_step_branch. unfold page_append.
    rewrite filter_cons. destruct (decide (branch_of t = b)) as [->|Hne].
    + rewrite lookup_alter_eq. destruct (pages !! bucket_key b); simpl; [|done].
      by rewrite <- app_assoc.
    + rewrite lookup_alter_ne; [done|]. intros E. by apply bucket_key_inj in E.
Qed.

Lemma empty_pages_lookup (b : bucket) : empty_pages !! bucket_key b = Some [].
Proof. by destruct b. Qed.

Lemma classify_types_lookup (types : list TypeItem) (b : bucket) :
  classify_types types !! bucket_key b
  = Some (filter (fun t => branch_of t = b) types).
Proof. unfold classify_types. by rewrite classify_fold, empty_pages_lookup. Qed.

Lemma classify_step_dom (pages : gmap string (list TypeItem)) (t : TypeItem) :
  dom (classify_step pages t) = dom pages.
Proof. rewrite classify_step_branch. unfold page_append. apply dom_alter_L. Qed.

Lemma classify_types_dom (types : list TypeItem) :
  dom (classify_types types) = list_to_set (bucket_key <$> all_buckets).
Proof.
  unfold classify_types.
  assert (H : ∀ pages, dom (fold_left classify_step types pages) = dom pages).
  { induction types as [|t types IH]; intros pages; simpl; [done|].
    by rewrite IH, classify_step_dom. }
  rewrite H. unfold empty_pages. rewrite !dom_insert_L, dom_empty_L. simpl.
  set_solver.
Qed.

(** Every list is a rearrangement of its six classes. *)
Lemma partition_by_branch (types : list TypeItem) :
  types ≡ₚ concat ((fun b => filter (fun t => branch_of t = b) types) <$> all_buckets).
Proof.
  induction types as [|t types IH]; [done|].
  simpl. rewrite !filter_cons, app_nil_r.
  simpl in IH. rewrite app_nil_r in IH.
  etrans; [apply Permutation_skip, IH|].
  destruct (branch_of t);
    repeat (match goal with |- context [decide ?P] => destruct (decide P); try done end);
    solve_Permutation.
Qed.

(** The rules of the specification, decided by the tests of the code. *)
Lemma rule_client_decide (t : TypeItem) :
  rule_client t <-> bool_decide (name t ∈ CLIENT_TYPES) = true.
Proof.
  rewrite bool_decide_eq_true. unfold rule_client, CLIENT_TYPES.
  rewrite !elem_of_cons, elem_of_nil. tauto.
Qed.

Lemma rule_configuration_decide (t : TypeItem) :
  rule_configuration t <-> bool_decide (name t ∈ CONFIGURATION_TYPES) = true.
Proof. by rewrite bool_decide_eq_true. Qed.

Lemma rule_enum_decide (t : TypeItem) :
  rule_enum t
  <-> str_eqb (type_kind t) (py "Enum")
      && negb (bool_decide (name t ∈ CONFIGURATION_TYPES)) = true.
Proof.
  unfold rule_enum.
  by rewrite andb_true_iff, str_eqb_eq, negb_true_iff, bool_decide_eq_false.
Qed.

Lemma rule_key_decide (t : TypeItem) :
  rule_key t
  <-> str_eqb (type_kind t) (py "Struct") && endswith (name t) (py "Key") = true.
Proof. unfold rule_key. by rewrite andb_true_iff, str_eqb_eq, endswith_true. Qed.

Lemma rule_runtime_decide (t : TypeItem) :
  rule_runtime t
  <-> contains (py "Runtime") (str_or (str_or (namespace t) (parent t)) []) = true.
Proof.
  unfold rule_runtime. rewrite contains_true. unfold str_or.
  destruct (namespace t); [|done]. by destruct (parent t).
Qed.

Lemma first_match_cons (P : TypeItem -> Prop) b rs t b' :
  first_match ((P, b) :: rs) t b' <-> (P t /\ b' = b) \/ (¬ P t /\ first_match rs t b').
Proof.
  split.
  - inversion 1; subst; [by left|by right].
  - intros [[HP ->]|[HP H]]; [by apply fm_here|by apply fm_later].
Qed.

Lemma first_match_nil t b : first_match [] t b <-> b = Models.
Proof. split; [by inversion 1|intros ->; constructor]. Qed.

Lemma first_match_branch (t : TypeItem) (b : bucket) :
  first_match rules t b <-> branch_of t = b.
Proof.
  unfold rules. rewrite !first_match_cons, first_match_nil.
  rewrite rule_client_decide, rule_configuration_decide, rule_enum_decide,
    rule_key_decide, rule_runtime_decide.
  unfold branch_of.
  repeat match goal with |- context [if ?c then _ else _] => destruct c end;
    (split; [intuition congruence|intros <-; intuition congruence]).
Qed.

End ClassifierFacts.

Section ClassifierClaims.
Import PyStr Generate ClassifierSpec Samples.

Lemma classify_types_key (types : list TypeItem) (k : string) (l : list TypeItem) :
  classify_types types !! k = Some l -> ∃ b, k = bucket_key b.
Proof.
  intros H. assert (Hk : k ∈ dom (classify_types types)) by (apply elem_of_dom; eauto).
  rewrite classify_types_dom in Hk. apply elem_of_list_to_set in Hk.
  apply list_elem_of_fmap in Hk as (b & -> & _). by exists b.
Qed.

(** C1.  [classify_types] returns exactly the six pages; the input list is a
    rearrangement of the six page lists put end to end, so no type is dropped
    and none is duplicated; every input type is on one page and on no other;
    and the result is a function of the input list alone. *)
Theorem classify_types_partition (types : list TypeItem) :
  dom (classify_types types)
  = list_to_set ["camunda-client"; "configuration"; "runtime"; "models";
                 "enums"; "keys"]
  /\ types ≡ₚ
       concat ((fun k => default [] (classify_types types !! k)) <$>
                 ["camunda-client"; "configuration"; "runtime"; "models";
                  "enums"; "keys"])
  /\ (∀ t, t ∈ types ->
        ∃ k, (∃ l, classify_types types !! k = Some l /\ t ∈ l)
             /\ ∀ k' l', classify_types types !! k' = Some l' -> t ∈ l' -> k' = k)
  /\ (∀ types', types' = types -> classify_types types' = classify_types types).
Proof.
  split; [apply classify_types_dom|].
  split.
  { etrans; [apply partition_by_branch|]. simpl.
    by rewrite (classify_types_lookup _ CamundaClient),
      (classify_types_lookup _ Configuration), (classify_types_lookup _ Runtime),
      (classify_types_lookup _ Models), (classify_types_lookup _ Enums),
      (classify_types_lookup _ Keys). }
  split; [|by intros ? ->].
  intros t Ht. exists (bucket_key (branch_of t)). split.
  - eexists. split; [apply classify_types_lookup|].
    apply list_elem_of_filter. by split.
  - intros k' l' Hk' Hl'.
    destruct (classify_types_key _ _ _ Hk') as [b' ->].
    rewrite classify_types_lookup in Hk'. injection Hk' as <-.
    apply list_elem_of_filter in Hl' as [<- _]. done.
Qed.

Lemma classify_types_partition_witness :
  ∃ k, (∃ l, classify_types [client_type; runtime_key; status_enum] !! k = Some l
             /\ runtime_key ∈ l)
       /\ ∀ k' l', classify_types [client_type; runtime_key; status_enum] !! k'
                    = Some l' -> runtime_key ∈ l' -> k' = k.
Proof.
  destruct (classify_types_partition [client_type; runtime_key; status_enum])
    as (_ & _ & H & _).
  apply H. apply list_elem_of_In. simpl. tauto.
Defined.

(** C2.  Every page holds exactly the input types that the six rules, tried
    in the order (a) client names, (b) configuration names, (c) Enum kind,
    (d) Struct kind with a name ending in Key, (e) Runtime in the namespace or
    else the parent, (f) otherwise models, send to it, the first rule that
    applies deciding; so a Struct named ...Key in a Runtime namespace is on
    the keys page and not on the runtime page. *)
Theorem classify_types_first_match (types : list TypeItem) (b : bucket) :
  (∃ l, classify_types types !! bucket_key b = Some l
        /\ ∀ t, t ∈ l <-> t ∈ types /\ first_match rules t b)
  /\ classify_types [runtime_key] !! "keys" = Some [runtime_key]
  /\ classify_types [runtime_key] !! "runtime" = Some [].
Proof.
  split; [|split; reflexivity].
  eexists. split; [apply classify_types_lookup|].
  intros t. by rewrite list_elem_of_filter, first_match_branch, (comm and).
Qed.

End ClassifierClaims.

(** ** The matcher *)

Section ReFacts.
Import PyStr Re.

Lemma last_chr_cons (prev : option ascii) (c : ascii) (x : str) :
  last_chr prev (c :: x) = last_chr (Some c) x.
Proof.
  unfold last_chr. rewrite last_cons. by destruct (last x).
Qed.

Lemma last_chr_app (prev : option ascii) (x y : str) :
  last_chr prev (x ++ y) = last_chr (last_chr prev x) y.
Proof.
  revert prev; induction x as [|c x IH]; intros prev; [done|].
  by rewrite <- app_comm_cons, !last_chr_cons, IH.
Qed.

(** Passing over the characters of a match. *)
Lemma sub_from_skip ml r f prev i (x rest : str) :
  sub_from ml r f prev i (length x) (x ++ rest)
  = sub_from ml r f (last_chr prev x) (i + length x) 0 rest.
Proof.
  revert prev i; induction x as [|c x IH]; intros prev i; simpl.
  - by rewrite Nat.add_0_r.
  - rewrite IH, last_chr_cons. f_equal. lia.
Qed.

Lemma sub_from_nomatch ml r f prev i (c : ascii) (t : str) :
  match_at ml r prev i (c :: t) = None ->
  sub_from ml r f prev i 0 (c :: t) = c :: sub_from ml r f (Some c) (S i) 0 t.
Proof. intros H. simpl. by rewrite H. Qed.

Lemma sub_from_match ml r f prev i (x rest : str) (m : rmatch) :
  x ≠ [] ->
  match_at ml r prev i (x ++ rest) = Some m ->
  m_end m - m_start m = length x ->
  sub_from ml r f prev i 0 (x ++ rest)
  = f m ++ sub_from ml r f (last_chr prev x) (i + length x) 0 rest.
Proof.
  intros Hx Hm Hlen. destruct x as [|c x]; [done|].
  simpl. simpl in Hm. rewrite Hm, Hlen. simpl.
  rewrite sub_from_skip, last_chr_cons. do 2 f_equal. lia.
Qed.

(** The equations of [exec]. *)
Lemma exec_Cat ml r1 r2 k s : exec ml (r1 ⋅ r2) k s = exec ml r1 (exec ml r2 k) s.
Proof. done. Qed.

Lemma exec_Star ml p k s :
  exec ml (Star p) k s = star_greedy p k (m_prev s) (m_groups s) (m_rest s).
Proof. done. Qed.

Lemma exec_Bol_start ml k t gs :
  exec ml Bol k (MState None t gs) = k (MState None t gs).
Proof. done. Qed.

Lemma exec_Eol_inv k s e :
  exec false Eol k s = Some e -> (m_rest s = [] \/ m_rest s = [LF]) /\ k s = Some e.
Proof.
  cbn [exec]. unfold at_eol. destruct (m_rest s) as [|c [|d t]]; cbn [orb].
  - by split; [left|].
  - rewrite andb_true_r. destruct (chr_eqb c LF) eqn:E; [|done].
    apply chr_eqb_eq in E as ->. by split; [right|].
  - by rewrite andb_false_r.
Qed.

Lemma exec_Opt ml r k s : exec ml (Opt r) k s = orelse (exec ml r k s) (k s).
Proof. done. Qed.

Lemma exec_StarLazy ml p k s :
  exec ml (StarLazy p) k s = star_lazy p k (m_prev s) (m_groups s) (m_rest s).
Proof. done. Qed.

(** What a successful match of each construct says about the subject. *)

Lemma exec_Chars_inv ml cs k s e :
  exec ml (Chars cs) k s = Some e ->
  ∃ t, m_rest s = cs ++ t
       /\ k (MState (last_chr (m_prev s) cs) t (m_groups s)) = Some e.
Proof.
  cbn [exec]. destruct (strip_prefix cs (m_rest s)) as [t|] eqn:E; [|done].
  apply strip_prefix_Some in E. intros H. by exists t.
Qed.

Lemma exec_Chars_app ml cs k prev t gs :
  exec ml (Chars cs) k (MState prev (cs ++ t) gs)
  = k (MState (last_chr prev cs) t gs).
Proof. cbn [exec m_rest m_prev m_groups]. by rewrite strip_prefix_app. Qed.

Lemma exec_Chars_None ml cs k s :
  (¬ ∃ t, m_rest s = cs ++ t) -> exec ml (Chars cs) k s = None.
Proof.
  intros H. cbn [exec]. destruct (strip_prefix cs (m_rest s)) as [t|] eqn:E; [|done].
  apply strip_prefix_Some in E. destruct H. by exists t.
Qed.

Lemma star_greedy_inv (p : ascii -> bool) k prev gs (s : str) e :
  star_greedy p k prev gs s = Some e ->
  ∃ x t, s = x ++ t /\ Forall (fun c => p c = true) x
         /\ k (MState (last_chr prev x) t gs) = Some e.
Proof.
  revert prev; induction s as [|c s IH]; intros prev; cbn [star_greedy].
  - intros H. by exists [], [].
  - destruct (p c) eqn:Hp.
    + destruct (star_greedy p k (Some c) gs s) as [e'|] eqn:E; cbn [orelse].
      * intros [= ->]. destruct (IH _ E) as (x & t & -> & Hx & Hk).
        exists (c :: x), t. rewrite last_chr_cons. by repeat split; [constructor|].
      * intros H. by exists [], (c :: s).
    + intros H. by exists [], (c :: s).
Qed.

(** The greedy star first tries all the characters of the class it finds. *)
Lemma star_greedy_stop (p : ascii -> bool) k prev gs (t : str) :
  (∀ c t', t = c :: t' -> p c = false) ->
  star_greedy p k prev gs t = k (MState prev t gs).
Proof.
  intros H. destruct t as [|c t']; [done|]. cbn [star_greedy].
  by rewrite (H c t').
Qed.

Lemma star_greedy_app (p : ascii -> bool) k prev gs (x t : str) e :
  Forall (fun c => p c = true) x ->
  (∀ c t', t = c :: t' -> p c = false) ->
  k (MState (last_chr prev x) t gs) = Some e ->
  star_greedy p k prev gs (x ++ t) = Some e.
Proof.
  intros Hx Ht. revert prev; induction Hx as [|c x Hc Hx IH]; intros prev Hk.
  - by rewrite star_greedy_stop.
  - cbn [app star_greedy]. rewrite Hc, (IH (Some c)); [done|]. by rewrite <- (last_chr_cons prev).
Qed.

Lemma star_greedy_app_None (p : ascii -> bool) k prev gs (x t : str) :
  Forall (fun c => p c = true) x ->
  (∀ c t', t = c :: t' -> p c = false) ->
  (∀ x1 x2, x = x1 ++ x2 -> k (MState (last_chr prev x1) (x2 ++ t) gs) = None) ->
  star_greedy p k prev gs (x ++ t) = None.
Proof.
  intros Hx Ht. revert prev; induction Hx as [|c x Hc Hx IH]; intros prev Hk.
  - rewrite star_greedy_stop by done. apply (Hk [] []). done.
  - cbn [app star_greedy]. rewrite Hc, (IH (Some c)); cbn [orelse].
    + apply (Hk [] (c :: x)). done.
    + intros x1 x2 ->. rewrite <- (last_chr_cons prev). by apply (Hk (c :: x1) x2).
Qed.

Lemma star_lazy_inv (p : ascii -> bool) k prev gs (s : str) e :
  star_lazy p k prev gs s = Some e ->
  ∃ x t, s = x ++ t /\ Forall (fun c => p c = true) x
         /\ (∀ x1 c x2, x = x1 ++ c :: x2 ->
               k (MState (last_chr prev x1) (c :: x2 ++ t) gs) = None)
         /\ k (MState (last_chr prev x) t gs) = Some e.
Proof.
  revert prev; induction s as [|c s IH]; intros prev; cbn [star_lazy].
  - destruct (k (MState prev [] gs)) eqn:E; cbn [orelse]; [|done].
    intros [= ->]. exists [], []. repeat split; [constructor| |done].
    by intros [|??] ??.
  - destruct (k (MState prev (c :: s) gs)) eqn:E; cbn [orelse].
    + intros [= ->]. exists [], (c :: s). repeat split; [constructor| |done].
      by intros [|??] ??.
    + destruct (p c) eqn:Hp; [|done]. intros H.
      destruct (IH _ H) as (x & t & -> & Hx & Hmin & Hk).
      exists (c :: x), t. rewrite last_chr_cons.
      repeat split; [by constructor| |done].
      intros [|d x1] c' x2 Hsplit.
      * injection Hsplit as <- <-. exact E.
      * injection Hsplit as <- ->. rewrite last_chr_cons. by apply Hmin.
Qed.

(** The lazy star stops at the first position where the rest matches. *)
Lemma star_lazy_app (p : ascii -> bool) k prev gs (x t : str) :
  Forall (fun c => p c = true) x ->
  (∀ x1 c x2, x = x1 ++ c :: x2 ->
     k (MState (last_chr prev x1) (c :: x2 ++ t) gs) = None) ->
  star_lazy p k prev gs (x ++ t) = star_lazy p k (last_chr prev x) gs t.
Proof.
  intros Hx. revert prev; induction Hx as [|c x Hc Hx IH]; intros prev Hk; [done|].
  cbn [app star_lazy]. pose proof (Hk [] c x eq_refl) as H0. cbn in H0.
  rewrite H0. cbn [orelse]. rewrite Hc.
  rewrite (IH (Some c)), last_chr_cons; [done|].
  intros x1 d x2 ->. rewrite <- (last_chr_cons prev). by apply (Hk (c :: x1) d x2).
Qed.

Lemma star_lazy_here (p : ascii -> bool) k prev gs (t : str) e :
  k (MState prev t gs) = Some e -> star_lazy p k prev gs t = Some e.
Proof. intros H. destruct t; cbn [star_lazy]; by rewrite H. Qed.

Lemma exec_Plus_inv ml (p : ascii -> bool) k s e :
  exec ml (Plus p) k s = Some e ->
  ∃ x t, m_rest s = x ++ t /\ x ≠ [] /\ Forall (fun c => p c = true) x
         /\ k (MState (last_chr (m_prev s) x) t (m_groups s)) = Some e.
Proof.
  cbn [exec]. destruct (m_rest s) as [|c r]; [done|].
  destruct (p c) eqn:Hp; [|done]. intros H.
  apply star_greedy_inv in H as (x & t & -> & Hx & Hk).
  exists (c :: x), t. rewrite last_chr_cons. by repeat split; [|constructor|].
Qed.

Lemma exec_Plus_app ml (p : ascii -> bool) k prev gs (x t : str) e :
  x ≠ [] -> Forall (fun c => p c = true) x ->
  (∀ c t', t = c :: t' -> p c = false) ->
  k (MState (last_chr prev x) t gs) = Some e ->
  exec ml (Plus p) k (MState prev (x ++ t) gs) = Some e.
Proof.
  intros Hne Hx Ht Hk. destruct Hx as [|c x Hc Hx]; [done|].
  cbn [exec app m_rest m_prev m_groups]. rewrite Hc.
  apply star_greedy_app; [done|done|]. by rewrite <- (last_chr_cons prev).
Qed.

Lemma exec_Group ml r k s :
  exec ml (Group r) k s
  = exec ml r
      (fun s' =>
         k (MState (m_prev s') (m_rest s')
              (m_groups s'
               ++ [take (length (m_rest s) - length (m_rest s')) (m_rest s)])))
      s.
Proof. done. Qed.

(** The text a group took, when what is left is a suffix of the subject. *)
Lemma take_consumed (x t : str) : take (length (x ++ t) - length t) (x ++ t) = x.
Proof.
  rewrite length_app. replace (length x + length t - length t) with (length x) by lia.
  by rewrite take_app_length.
Qed.

End ReFacts.

(** ** Method groups *)

Section MethodGroupFacts.
Import PyStr Re Generate MethodGroupSpec.

Lemma async_match_inv prev i (s : str) (m : rmatch) :
  match_at false ASYNC_RE prev i s = Some m ->
  s = py "Async" \/ s = py "Async" ++ [LF].
Proof.
  unfold match_at, ASYNC_RE. cbn [exec m_rest m_prev m_groups].
  destruct (strip_prefix (py "Async") s) as [t|] eqn:E; [|done].
  apply strip_prefix_Some in E as ->.
  unfold at_eol. cbn [m_rest orb].
  destruct t as [|c [|d t]]; [by left| |by rewrite andb_false_r].
  rewrite andb_true_r. destruct (chr_eqb c LF) eqn:Ec; [|done].
  apply chr_eqb_eq in Ec as ->. by right.
Qed.

Lemma async_sub_stem (stem : str) prev i :
  sub_from false ASYNC_RE (fun _ => []) prev i 0 (stem ++ py "Async") = stem.
Proof.
  revert prev i; induction stem as [|c stem IH]; intros prev i.
  - rewrite <- (app_nil_r ([] ++ py "Async")).
    erewrite sub_from_match; [done|done|reflexivity|simpl; lia].
  - rewrite <- app_comm_cons, sub_from_nomatch; [by rewrite IH|].
    destruct (match_at _ _ _ _ _) as [m|] eqn:E; [|done].
    apply async_match_inv in E as [E|E].
    + apply (f_equal length) in E. simpl in E. rewrite length_app in E.
      simpl in E. lia.
    + apply (f_equal last) in E.
      rewrite app_comm_cons, (last_app _ (py "Async")) in E. done.
Qed.

Lemma async_sub_other (s : str) prev i :
  LF ∉ s -> (¬ ∃ stem, s = stem ++ py "Async") ->
  sub_from false ASYNC_RE (fun _ => []) prev i 0 s = s.
Proof.
  revert prev i; induction s as [|c s IH]; intros prev i HLF Hend; [done|].
  rewrite sub_from_nomatch.
  - rewrite IH; [done|set_solver|].
    intros [stem ->]. apply Hend. by exists (c :: stem).
  - destruct (match_at _ _ _ _ _) as [m|] eqn:E; [|done].
    apply async_match_inv in E as [E|E].
    + destruct Hend. exists []. done.
    + destruct HLF. rewrite E. apply list_elem_of_In, in_or_app. right. by left.
Qed.

Lemma without_async_stem (stem : str) : without_async (stem ++ py "Async") = stem.
Proof.
  unfold without_async.
  assert (H : endswith (stem ++ py "Async") (py "Async") = true)
    by (apply endswith_true; by exists stem).
  rewrite H, length_app. simpl.
  replace (length stem + 5 - 5) with (length stem) by lia.
  by rewrite take_app_length.
Qed.

Lemma re_sub_async (name : str) :
  LF ∉ name -> re_sub false ASYNC_RE (fun _ => []) name = without_async name.
Proof.
  intros HLF. unfold re_sub.
  destruct (endswith name (py "Async")) eqn:E.
  - apply endswith_true in E as [stem ->].
    by rewrite async_sub_stem, without_async_stem.
  - unfold without_async. rewrite E. apply async_sub_other; [done|].
    intros H. apply endswith_true in H. congruence.
Qed.

Lemma first_group_first_entry (table : list (str * str)) (base : str) :
  first_entry occurs_in table base (first_group table base).
Proof.
  induction table as [|[key label] table IH]; simpl; [constructor|].
  destruct (contains key base) eqn:E.
  - apply fe_here. by apply contains_true.
  - apply fe_later; [|done]. intros H. apply contains_true in H. congruence.
Qed.

(** C8, as amended.  For every method name (a name holds no line feed),
    [_method_group] strips a final Async and returns the label of the first
    entry of the table whose key occurs anywhere in the stripped name, a
    key being matched as a substring and not only at the start; it returns
    Other when no key occurs in it. *)
Theorem method_group_first_substring (name : str) :
  LF ∉ name ->
  first_entry occurs_in GROUP_PREFIXES (without_async name) (_method_group name).
Proof.
  intros HLF. unfold _method_group. rewrite re_sub_async by done.
  apply first_group_first_entry.
Qed.

Lemma method_group_first_substring_witness :
  first_entry occurs_in GROUP_PREFIXES (without_async (py "GetJobAsync"))
    (_method_group (py "GetJobAsync")).
Proof.
  apply (method_group_first_substring (py "GetJobAsync")).
  apply (bool_decide_unpack _). vm_compute. exact I.
Defined.

(** C8 as stated fails: Job occurs in GetJob, but not at its start; the
    code answers Jobs where matching by prefix answers Other. *)
Lemma method_group_prefix_counterexample :
  _method_group (py "GetJobAsync") = py "Jobs"
  /\ method_group_by_prefix (py "GetJobAsync") = py "Other"
  /\ _method_group (py "GetJobAsync") ≠ method_group_by_prefix (py "GetJobAsync").
Proof. split; [reflexivity|]. split; [reflexivity|]. by vm_compute. Qed.

End MethodGroupFacts.

(** ** Type names and the banner on sample inputs *)

Section ShortTypeFacts.
Import PyStr Re Generate.

Lemma generic_match_inv prev i (s : str) (m : rmatch) :
  match_at false GENERIC_RE prev i s = Some m ->
  ∃ rest, s = py "{" ++ group 1 m ++ py "}" ++ rest /\ ("}"%char ∉ group 1 m).
Proof.
  unfold match_at. destruct (exec _ _ _ _) as [e|] eqn:E; [|done]. intros [= <-].
  unfold GENERIC_RE in E. rewrite exec_Cat in E.
  apply exec_Chars_inv in E as (t1 & H1 & E). cbn [m_rest m_prev m_groups] in *.
  subst s. rewrite exec_Cat, exec_Group in E.
  apply exec_Plus_inv in E as (g & t2 & H2 & Hne & Hg & E).
  cbn [m_rest m_prev m_groups] in *. subst t1. rewrite take_consumed in E.
  apply exec_Chars_inv in E as (rest & H3 & [= <-]).
  cbn [m_rest m_prev m_groups] in *. subst t2.
  exists rest. unfold group. cbn [groups Nat.sub nth app]. split; [done|].
  rewrite Forall_forall in Hg. intros Hin. specialize (Hg _ Hin).
  unfold none_of in Hg. by rewrite chr_eqb_refl in Hg.
Qed.

(** Without a closing brace nothing is replaced. *)
Lemma generic_sub_plain f prev i (s : str) :
  ("}"%char ∉ s) -> sub_from false GENERIC_RE f prev i 0 s = s.
Proof.
  revert prev i; induction s as [|c s IH]; intros prev i H.
  - cbn [sub_from]. destruct (match_at _ _ _ _ _) as [m|] eqn:E; [|done].
    apply generic_match_inv in E as (rest & E & _). done.
  - rewrite sub_from_nomatch.
    + rewrite IH; [done|]. intros Hin. by apply H, list_elem_of_further.
    + destruct (match_at _ _ _ _ _) as [m|] eqn:E; [|done].
      apply generic_match_inv in E as (rest & E & _). destruct H. rewrite E.
      apply elem_of_app. right. apply elem_of_app. right. apply list_elem_of_here.
Qed.

Lemma short_type_fuel_S (n : nat) (c : ascii) (full : str) :
  _short_type_fuel (S n) (c :: full)
  = last_segment "."
      (re_sub false GENERIC_RE
         (fun m => py "<" ++ _short_type_fuel n (group 1 m) ++ py ">")
         (c :: full)).
Proof. done. Qed.

(** A name without a closing brace is cut to its last segment, whatever the
    fuel. *)
Lemma short_type_fuel_plain (n : nat) (full : str) :
  ("}"%char ∉ full) -> _short_type_fuel (S n) full = last_segment "." full.
Proof.
  intros H. destruct full as [|c full]; [done|]. rewrite short_type_fuel_S.
  unfold re_sub. by rewrite generic_sub_plain.
Qed.

Lemma sub_from_ext ml r (f f' : rmatch -> str) :
  (∀ prev i s m, match_at ml r prev i s = Some m -> f m = f' m) ->
  ∀ (s : str) prev i skip,
    sub_from ml r f prev i skip s = sub_from ml r f' prev i skip s.
Proof.
  intros H. induction s as [|c s IH]; intros prev i skip.
  - destruct skip; [|done]. cbn [sub_from].
    destruct (match_at ml r prev i []) as [m|] eqn:E; [|done]. by rewrite (H _ _ _ _ E).
  - destruct skip as [|n]; [|apply IH]. cbn [sub_from].
    destruct (match_at ml r prev i (c :: s)) as [m|] eqn:E.
    + rewrite (H _ _ _ _ E). f_equal. destruct (m_end m - m_start m); [f_equal|]; apply IH.
    + f_equal. apply IH.
Qed.

(** The calls of [_short_type] from the replacement function go one level
    deep: fuel 2 is enough, and [_short_type] has more. *)
Lemma short_type_fuel_enough (n : nat) (full : str) :
  _short_type_fuel (S (S n)) full = _short_type_fuel 2 full.
Proof.
  destruct full as [|c full]; [done|]. rewrite !short_type_fuel_S.
  f_equal. unfold re_sub. apply sub_from_ext.
  intros prev i s m Hm. apply generic_match_inv in Hm as (_ & _ & Hg).
  by rewrite !short_type_fuel_plain.
Qed.

Lemma short_type_fuel_independent (full : str) :
  full ≠ [] -> _short_type full = _short_type_fuel 2 full.
Proof.
  intros H. unfold _short_type. destruct full as [|c full]; [done|].
  cbn [length]. apply short_type_fuel_enough.
Qed.

(** A name without braces is shortened to its final dot-delimited segment. *)
Lemma short_type_plain (full : str) :
  ("}"%char ∉ full) -> _short_type full = last_segment "." full.
Proof. apply short_type_fuel_plain. Qed.

End ShortTypeFacts.

Section Evaluations.
Import PyStr Re Generate Samples.

(** C7.  On a generic with two type arguments the shortened name keeps only
    the last segment of the last argument: the text between the braces is
    shortened as one name, so [System.String,My] is cut off as if it were a
    namespace prefix, where the arguments shortened one by one would read
    [Dictionary<String,Type>]. *)
Theorem short_type_drops_type_arguments :
  _short_type dictionary_type = py "Dictionary<Type>"
  /\ _short_type dictionary_type ≠ py "Dictionary<String,Type>".
Proof. split; [reflexivity|by vm_compute]. Qed.


End Evaluations.

(** ** Region markers *)

Section MarkerFacts.
Import PyStr Re Generate ExampleSpec.

Lemma lstrip_split (s : str) : ∃ indent, all_ws indent /\ s = indent ++ lstrip s.
Proof.
  induction s as [|c s (indent & Hi & Hs)]; [exists []; by split; [constructor|]|].
  cbn [lstrip]. destruct (is_space c) eqn:E.
  - exists (c :: indent). split; [by constructor|]. by rewrite <- app_comm_cons, <- Hs.
  - exists []. by split; [constructor|].
Qed.

Lemma all_ws_rev (s : str) : all_ws s -> all_ws (rev s).
Proof. apply List.Forall_rev. Qed.

Lemma strip_split (s : str) :
  ∃ indent trail, all_ws indent /\ all_ws trail /\ s = indent ++ strip s ++ trail.
Proof.
  destruct (lstrip_split s) as (indent & Hi & Hs).
  destruct (lstrip_split (rev (lstrip s))) as (w & Hw & Hr).
  exists indent, (rev w). split; [done|]. split; [by apply all_ws_rev|].
  unfold strip, rstrip. rewrite <- rev_app_distr, <- Hr, rev_involutive. done.
Qed.

Lemma lstrip_ws_app (indent s : str) : all_ws indent -> lstrip (indent ++ s) = lstrip s.
Proof.
  induction 1 as [|c indent Hc _ IH]; [done|]. cbn [app lstrip]. by rewrite Hc.
Qed.

Lemma lstrip_head (c : ascii) (s : str) : is_space c = false -> lstrip (c :: s) = c :: s.
Proof. intros H. cbn [lstrip]. by rewrite H. Qed.

(** Stripping a line leaves its core, when the core starts and ends with
    characters that are not white space. *)
Lemma strip_core (indent trail mid : str) (a z : ascii) :
  all_ws indent -> all_ws trail -> is_space a = false -> is_space z = false ->
  strip (indent ++ (a :: mid ++ [z]) ++ trail) = a :: mid ++ [z].
Proof.
  intros Hi Ht Ha Hz. unfold strip, rstrip.
  rewrite lstrip_ws_app by done. rewrite <- app_comm_cons, lstrip_head by done.
  rewrite app_comm_cons, rev_app_distr, lstrip_ws_app by (by apply all_ws_rev).
  rewrite app_comm_cons, rev_app_distr. cbn [rev app].
  rewrite lstrip_head by done.
  cbn [rev]. by rewrite rev_app_distr, rev_involutive.
Qed.

Lemma all_ws_app (a b : str) : all_ws a -> all_ws b -> all_ws (a ++ b).
Proof. apply Forall_app_2. Qed.

(** A line the marker pattern matches is a marker. *)
Lemma marker_re_inv (bra line : str) (m : rmatch) :
  re_match false (marker_re bra) (strip line) = Some m ->
  marker bra (group 1 m) line.
Proof.
  unfold re_match, match_at.
  destruct (exec _ _ _ _) as [e|] eqn:E; [|done]. intros [= <-].
  unfold marker_re in E.
  rewrite exec_Cat, exec_Bol_start, exec_Cat in E.
  apply exec_Chars_inv in E as (t1 & H1 & E). cbn [m_rest m_prev m_groups] in *.
  rewrite exec_Cat, exec_Star in E. cbn [m_rest m_prev m_groups] in E.
  apply star_greedy_inv in E as (gap & t2 & -> & Hgap & E).
  rewrite exec_Cat in E.
  apply exec_Chars_inv in E as (t3 & H3 & E). cbn [m_rest m_prev m_groups] in *.
  subst t2. rewrite exec_Cat, exec_Group in E.
  apply exec_Plus_inv in E as (name & t4 & H4 & Hne & Hname & E).
  cbn [m_rest m_prev m_groups] in *. subst t3.
  rewrite take_consumed, exec_Cat in E.
  apply exec_Chars_inv in E as (t5 & H5 & E). cbn [m_rest m_prev m_groups] in *.
  subst t4. rewrite exec_Cat, exec_Star in E. cbn [m_rest m_prev m_groups] in E.
  apply star_greedy_inv in E as (w & t6 & -> & Hw & E).
  apply exec_Eol_inv in E as [Ht6 [= <-]]. cbn [m_rest m_prev m_groups] in *.
  unfold group. cbn [groups Nat.sub nth app].
  destruct (strip_split line) as (indent & trail & Hi & Ht & Hline).
  exists indent, gap, (w ++ t6 ++ trail).
  repeat split; try done.
  - apply all_ws_app; [done|]. apply all_ws_app; [|done].
    destruct Ht6 as [->| ->]; [constructor|]. by repeat constructor.
  - rewrite Hline, H1, <- !app_assoc. done.
Qed.

(** A marker is matched by the marker pattern, which yields its name. *)
Lemma marker_re_match (bra' line name : str) (a : ascii) :
  is_space a = false -> is_word a = false ->
  marker (a :: bra') name line ->
  re_match false (marker_re (a :: bra')) (strip line)
  = Some (RMatch 0 (length (strip line)) [name]).
Proof.
  intros Ha Hw (indent & gap & trail & Hi & Hg & Ht & [Hne Hname] & ->).
  assert (Hs : strip (indent ++ py "//" ++ gap ++ (a :: bra') ++ name ++ py ">" ++ trail)
               = py "//" ++ gap ++ (a :: bra') ++ name ++ py ">").
  { pose proof (strip_core indent trail
                  (py "/" ++ gap ++ (a :: bra') ++ name) "/" ">" Hi Ht eq_refl eq_refl) as H.
    cbn [py list_ascii_of_string app] in *.
    rewrite <- !app_assoc in H. cbn [app] in H. rewrite <- !app_assoc in H.
    exact H. }
  rewrite Hs. unfold re_match, match_at, marker_re.
  rewrite exec_Cat, exec_Bol_start, exec_Cat, exec_Chars_app, exec_Cat, exec_Star.
  cbn [m_rest m_prev m_groups].
  erewrite star_greedy_app; [| done | by intros c t' [= <- _] |].
  2:{ rewrite exec_Cat, exec_Chars_app, exec_Cat, exec_Group.
      apply exec_Plus_app; [done|done|by intros c t' [= <- _]|].
      cbn [m_rest m_prev m_groups]. rewrite take_consumed.
      rewrite <- (app_nil_r (py ">")), exec_Cat, exec_Chars_app, exec_Cat, exec_Star.
      cbn [m_rest m_prev m_groups star_greedy]. reflexivity. }
  cbn [m_rest m_groups app length]. by rewrite Nat.sub_0_r.
Qed.

End MarkerFacts.

(** ** Example regions *)

Section RegionFacts.
Import PyStr Re Generate ExampleSpec.

Lemma m_open_inv (line : str) (m : rmatch) :
  m_open line = Some m -> start_marker (group 1 m) line.
Proof. apply (marker_re_inv (py "<")). Qed.

Lemma m_close_inv (line : str) (m : rmatch) :
  m_close line = Some m -> end_marker (group 1 m) line.
Proof. apply (marker_re_inv (py "</")). Qed.

Lemma m_open_start (name line : str) :
  start_marker name line -> ∃ m, m_open line = Some m /\ group 1 m = name.
Proof.
  intros H. eexists. split; [|shelve].
  apply (marker_re_match [] line name "<"); done.
  Unshelve. done.
Qed.

Lemma m_close_end (name line : str) :
  end_marker name line -> ∃ m, m_close line = Some m /\ group 1 m = name.
Proof.
  intros H. eexists. split; [|shelve].
  apply (marker_re_match (py "/") line name "<"); done.
  Unshelve. done.
Qed.

Lemma m_open_None (line : str) :
  (∀ n, ¬ start_marker n line) -> m_open line = None.
Proof.
  intros H. destruct (m_open line) as [m|] eqn:E; [|done].
  destruct (H _ (m_open_inv _ _ E)).
Qed.

Lemma ws_prefix_unique (a b x y : str) (c d : ascii) :
  all_ws a -> all_ws b -> is_space c = false -> is_space d = false ->
  a ++ c :: x = b ++ d :: y -> a = b /\ c :: x = d :: y.
Proof.
  intros Ha; revert b; induction Ha as [|e a He Ha IH]; intros b Hb Hc Hd H.
  - destruct Hb as [|f b Hf Hb]; [done|]. injection H as -> _. congruence.
  - destruct Hb as [|f b Hf Hb].
    + injection H as -> _. congruence.
    + injection H as -> H. destruct (IH b Hb Hc Hd H) as [-> ?]. done.
Qed.

(** The text of a marker line once stripped. *)
Lemma marker_strip (bra' name line : str) :
  marker ("<"%char :: bra') name line ->
  ∃ gap, all_ws gap
         /\ strip line = py "//" ++ gap ++ ("<"%char :: bra') ++ name ++ py ">".
Proof.
  intros H. pose proof (marker_re_match bra' line name "<" eq_refl eq_refl H) as Hm.
  destruct H as (indent & gap & trail & Hi & Hg & Ht & Hn & ->).
  exists gap. split; [done|].
  pose proof (strip_core indent trail (py "/" ++ gap ++ ("<"%char :: bra') ++ name)
                "/" ">" Hi Ht eq_refl eq_refl) as H.
  cbn [py list_ascii_of_string app] in *.
  rewrite <- !app_assoc in H. cbn [app] in H. rewrite <- !app_assoc in H.
  exact H.
Qed.

(** No line is a start marker and a close marker at once. *)
Lemma end_marker_not_start (name name' line : str) :
  end_marker name line -> ¬ start_marker name' line.
Proof.
  intros He Hs.
  destruct (marker_strip _ _ _ He) as (g & Hg & E).
  destruct (marker_strip _ _ _ Hs) as (g' & Hg' & E').
  destruct Hs as (_ & _ & _ & _ & _ & _ & [Hne Hw] & _).
  rewrite E in E'. cbn [py list_ascii_of_string app] in E'.
  injection E' as E'.
  apply ws_prefix_unique in E' as [_ E']; [|done..].
  injection E' as E'. destruct Hw as [|c n Hc Hw]; [done|].
  injection E' as <- _. done.
Qed.

Lemma region_step_start (st : region_state) (name line : str) :
  start_marker name line ->
  region_step st line = RegionState (regions st) (Some name) [].
Proof.
  intros H. destruct (m_open_start _ _ H) as (m & Hm & <-).
  unfold region_step. by rewrite Hm.
Qed.

Lemma region_step_end (st : region_state) (name line : str) :
  end_marker name line -> current_tag st = Some name ->
  region_step st line
  = RegionState (<[name := Textwrap.dedent (join [LF] (lines st))]> (regions st))
      None [].
Proof.
  intros H Hc. destruct (m_close_end _ _ H) as (m & Hm & Hg).
  unfold region_step. rewrite m_open_None, Hm, Hc.
  - cbv beta iota. by rewrite Hg, str_eqb_refl.
  - intros n. by eapply end_marker_not_start.
Qed.

Lemma region_step_body (st : region_state) (tag line : str) :
  (∀ n, ¬ start_marker n line) -> ¬ end_marker tag line ->
  current_tag st = Some tag ->
  region_step st line = RegionState (regions st) (Some tag) (lines st ++ [line]).
Proof.
  intros Hs He Hc. unfold region_step. rewrite m_open_None, Hc by done.
  destruct (m_close line) as [m|] eqn:E; [|done].
  destruct (str_eqb tag (group 1 m)) eqn:Eq; [|done].
  apply str_eqb_eq in Eq as ->. destruct He. by apply m_close_inv.
Qed.

Lemma region_step_other (st : region_state) (name line : str) :
  ¬ end_marker name line ->
  regions (region_step st line) !! name = regions st !! name.
Proof.
  intros He. unfold region_step.
  destruct (m_open line); [done|].
  destruct (m_close line) as [m|] eqn:E, (current_tag st) as [tag|]; try done.
  destruct (str_eqb tag (group 1 m)) eqn:Eq; [|done].
  apply str_eqb_eq in Eq as ->. cbn [regions].
  apply lookup_insert_ne. intros <-. destruct He. by apply m_close_inv.
Qed.

Lemma region_loop_app (st : region_state) (l1 l2 : list str) :
  region_loop st (l1 ++ l2) = region_loop (region_loop st l1) l2.
Proof. apply fold_left_app. Qed.

Lemma region_loop_body (st : region_state) (tag : str) (body : list str) :
  (∀ l, l ∈ body -> (∀ n, ¬ start_marker n l) /\ ¬ end_marker tag l) ->
  current_tag st = Some tag ->
  region_loop st body = RegionState (regions st) (Some tag) (lines st ++ body).
Proof.
  revert st; induction body as [|l body IH]; intros st H Hc.
  - rewrite app_nil_r. destruct st. by simplify_eq/=.
  - destruct (H l) as [Hs He]; [apply list_elem_of_here|].
    cbn [region_loop fold_left]. rewrite (region_step_body st tag) by done.
    fold (region_loop (RegionState (regions st) (Some tag) (lines st ++ [l])) body).
    rewrite IH; [|intros x Hx; by apply H, list_elem_of_further|done].
    cbn [regions lines]. by rewrite <- app_assoc.
Qed.

Lemma region_loop_other (st : region_state) (name : str) (post : list str) :
  (∀ l, l ∈ post -> ¬ end_marker name l) ->
  regions (region_loop st post) !! name = regions st !! name.
Proof.
  revert st; induction post as [|l post IH]; intros st H; [done|].
  cbn [region_loop fold_left].
  fold (region_loop (region_step st l) post).
  rewrite IH by (intros x Hx; by apply H, list_elem_of_further).
  apply region_step_other, H, list_elem_of_here.
Qed.

End RegionFacts.

Section RegionClaims.
Import PyStr Re Generate ExampleSpec Samples.

Lemma m_open_None_inv (line : str) :
  m_open line = None -> ∀ n, ¬ start_marker n line.
Proof. intros H n Hn. destruct (m_open_start _ _ Hn) as (m & Hm & _). congruence. Qed.

Lemma m_close_other_inv (name line : str) :
  (∀ m, m_close line = Some m -> group 1 m ≠ name) -> ¬ end_marker name line.
Proof. intros H Hn. destruct (m_close_end _ _ Hn) as (m & Hm & Hg). by apply (H m). Qed.

(** What [all_regions] holds comes from one of the example files. *)
Lemma all_regions_source (exs : list str) (acc : gmap str str) (r v : str) :
  fold_left (fun acc cs => parse_region_tags cs ∪ acc) exs acc !! r = Some v ->
  acc !! r = Some v \/ ∃ cs, cs ∈ exs /\ parse_region_tags cs !! r = Some v.
Proof.
  revert acc; induction exs as [|cs exs IH]; intros acc H; [by left|].
  cbn [fold_left] in H. apply IH in H as [H|(cs' & Hin & H)].
  - apply lookup_union_Some_raw in H as [H|[_ H]]; [|by left].
    right. exists cs. split; [apply list_elem_of_here|done].
  - right. exists cs'. split; [by apply list_elem_of_further|done].
Qed.

(** Every example stored by a section is a value of [all_regions]. *)
Lemma section_step_source (all_regions : gmap str str) (st : overwrite_state)
    (section u v : str) :
  uid_to_example (section_step all_regions st section) !! u = Some v ->
  uid_to_example st !! u = Some v \/ ∃ r, all_regions !! r = Some v.
Proof.
  unfold section_step. destruct (strip section); [by left|].
  destruct (re_search true UID_RE _); [by left|].
  destruct (re_search false CODE_REF_RE _) as [m|]; [|by left].
  destruct (current_uid st) as [uid|]; [|by left].
  destruct (truthy _); [|by left].
  destruct (all_regions !! group 2 m) as [ex|] eqn:E; [|by left].
  cbn [uid_to_example]. destruct (decide (uid = u)) as [->|Hne].
  - rewrite lookup_insert_eq. intros [= <-]. right. by exists (group 2 m).
  - rewrite lookup_insert_ne by done. by left.
Qed.

Lemma overwrite_file_source (all_regions acc : gmap str str) (text u v : str) :
  overwrite_file all_regions acc text !! u = Some v ->
  acc !! u = Some v \/ ∃ r, all_regions !! r = Some v.
Proof.
  unfold overwrite_file.
  generalize (re_split true HR_RE text) as sections.
  generalize (@None str) as cur.
  intros cur sections; revert cur acc.
  induction sections as [|sec sections IH]; intros cur acc H; [by left|].
  cbn [fold_left] in H.
  destruct (section_step all_regions (OverwriteState acc cur) sec) as [acc' cur'] eqn:E.
  apply IH in H as [H|H]; [|by right].
  apply (section_step_source all_regions (OverwriteState acc cur) sec).
  by rewrite E.
Qed.

(** C4 as stated fails when a name is used twice: the first region A of
    the file holds the line x, yet A is mapped to y, the text of the second
    region. *)
Lemma region_last_wins_counterexample :
  ¬ (∀ (text : str) (pre body post : list str) (o c name : str),
       splitlines text = pre ++ [o] ++ body ++ [c] ++ post ->
       start_marker name o ->
       end_marker name c ->
       (∀ l, l ∈ body -> (∀ n, ¬ start_marker n l) /\ ¬ end_marker name l) ->
       parse_region_tags text !! name = Some (Textwrap.dedent (join [LF] body))).
Proof.
  intros H.
  specialize (H twice_named_file [] [py "x"] [py "// <A>"; py "y"; py "// </A>"]
                (py "// <A>") (py "// </A>") (py "A")).
  assert (E : parse_region_tags twice_named_file !! py "A"
              = Some (Textwrap.dedent (join [LF] [py "x"]))).
  { apply H.
    - reflexivity.
    - exists [], (py " "), []. repeat split; try done; by repeat constructor.
    - exists [], (py " "), []. repeat split; try done; by repeat constructor.
    - intros l Hl. apply list_elem_of_singleton in Hl as ->. split.
      + apply m_open_None_inv. by vm_compute.
      + apply m_close_other_inv. by vm_compute. }
  vm_compute in E. discriminate E.
Qed.

(** C5.  When a start marker comes while a region is still open, the lines
    gathered for the open region are dropped, nothing is recorded for it,
    and the new region starts with no lines; the loop goes on with the rest
    of the file from that state, and the function returns. *)
Theorem nested_start_discards (text : str) (pre body rest : list str)
    (o o' name name' : str) :
  splitlines text = pre ++ [o] ++ body ++ [o'] ++ rest ->
  start_marker name o ->
  (∀ l, l ∈ body -> (∀ n, ¬ start_marker n l) /\ ¬ end_marker name l) ->
  start_marker name' o' ->
  region_loop region_init (pre ++ [o] ++ body)
  = RegionState (regions (region_loop region_init pre)) (Some name) body
  /\ region_loop region_init (pre ++ [o] ++ body ++ [o'])
     = RegionState (regions (region_loop region_init pre)) (Some name') []
  /\ parse_region_tags text
     = regions (region_loop
                  (RegionState (regions (region_loop region_init pre))
                     (Some name') [])
                  rest).
Proof.
  intros Hsplit Ho Hbody Ho'.
  assert (H1 : region_loop region_init (pre ++ [o] ++ body)
               = RegionState (regions (region_loop region_init pre)) (Some name) body).
  { rewrite !region_loop_app. cbn [region_loop fold_left].
    rewrite (region_step_start _ name o) by done.
    by rewrite (region_loop_body _ name). }
  assert (H2 : region_loop region_init (pre ++ [o] ++ body ++ [o'])
               = RegionState (regions (region_loop region_init pre)) (Some name') []).
  { rewrite !app_assoc, region_loop_app, <- !app_assoc, H1.
    cbn [region_loop fold_left]. by rewrite (region_step_start _ name' o'). }
  split; [done|]. split; [done|].
  unfold parse_region_tags. fold region_init.
  by rewrite Hsplit, !app_assoc, region_loop_app, <- !app_assoc, H2.
Qed.

Lemma nested_start_discards_witness :
  region_loop region_init ([] ++ [py "// <A>"] ++ [py "lost"])
  = RegionState (regions (region_loop region_init [])) (Some (py "A")) [py "lost"]
  /\ region_loop region_init ([] ++ [py "// <A>"] ++ [py "lost"] ++ [py "// <B>"])
     = RegionState (regions (region_loop region_init [])) (Some (py "B")) []
  /\ parse_region_tags nested_file
     = regions (region_loop
                  (RegionState (regions (region_loop region_init []))
                     (Some (py "B")) [])
                  [py "kept"; py "// </B>"]).
Proof.
  apply (nested_start_discards nested_file [] [py "lost"] [py "kept"; py "// </B>"]
           (py "// <A>") (py "// <B>") (py "A") (py "B")).
  - reflexivity.
  - exists [], (py " "), []. repeat split; try done; by repeat constructor.
  - intros l Hl. apply list_elem_of_singleton in Hl as ->. split.
    + apply m_open_None_inv. by vm_compute.
    + apply m_close_other_inv. by vm_compute.
  - exists [], (py " "), []. repeat split; try done; by repeat constructor.
Defined.

End RegionClaims.

(** ** Overwrite files *)

Section OverwriteClaims.
Import PyStr Re Generate ExampleSpec Samples.

Lemma section_step_declares (all_regions : gmap str str) (st : overwrite_state)
    (section uid : str) :
  declares_uid section uid ->
  section_step all_regions st section = OverwriteState (uid_to_example st) (Some uid).
Proof.
  intros (m & Hm & <-). unfold section_step.
  destruct (strip section) as [|c t] eqn:E; [done|]. by rewrite Hm.
Qed.

Lemma section_step_inert (all_regions : gmap str str) (st : overwrite_state)
    (section : str) :
  inert section -> section_step all_regions st section = st.
Proof.
  unfold section_step. intros [-> |[Hu Hc]]; [done|].
  rewrite Hu, Hc. by destruct (strip section).
Qed.

Lemma section_step_unknown (all_regions : gmap str str) (st : overwrite_state)
    (section region uid : str) :
  references section region ->
  current_uid st = Some uid -> uid ≠ [] ->
  all_regions !! region = None ->
  section_step all_regions st section = OverwriteState (uid_to_example st) None.
Proof.
  intros (Hne & Hu & m & Hm & <-) Hc Huid Hr. unfold section_step.
  destruct (strip section) as [|c t] eqn:E; [done|].
  rewrite Hu, Hm, Hc, Hr. by destruct uid.
Qed.

Lemma section_step_known (all_regions : gmap str str) (st : overwrite_state)
    (section region uid example : str) :
  references section region ->
  current_uid st = Some uid -> uid ≠ [] ->
  all_regions !! region = Some example ->
  section_step all_regions st section
  = OverwriteState (<[uid := example]> (uid_to_example st)) None.
Proof.
  intros (Hne & Hu & m & Hm & <-) Hc Huid Hr. unfold section_step.
  destruct (strip section) as [|c t] eqn:E; [done|].
  rewrite Hu, Hm, Hc, Hr. by destruct uid.
Qed.

Lemma section_step_idle (all_regions : gmap str str) (st : overwrite_state)
    (section : str) :
  current_uid st = None -> (∀ u, ¬ declares_uid section u) ->
  section_step all_regions st section = st.
Proof.
  intros Hc Hd. unfold section_step.
  destruct (strip section) as [|c t] eqn:E; [done|].
  destruct (re_search true UID_RE (c :: t)) as [m|] eqn:Hm.
  - destruct (Hd (strip (group 1 m))). exists m. by rewrite E.
  - rewrite Hc. by destruct (re_search false CODE_REF_RE (c :: t)).
Qed.

Lemma sections_idle (all_regions : gmap str str) (st : overwrite_state)
    (rest : list str) :
  current_uid st = None -> (∀ s, s ∈ rest -> ∀ u, ¬ declares_uid s u) ->
  fold_left (section_step all_regions) rest st = st.
Proof.
  intros Hc. induction rest as [|s rest IH]; intros H; [done|].
  cbn [fold_left]. rewrite section_step_idle; [|done|apply H, list_elem_of_here].
  apply IH. intros x Hx. by apply H, list_elem_of_further.
Qed.

Lemma sections_inert (all_regions : gmap str str) (st : overwrite_state)
    (mid : list str) :
  (∀ s, s ∈ mid -> inert s) ->
  fold_left (section_step all_regions) mid st = st.
Proof.
  induction mid as [|s mid IH]; intros H; [done|].
  cbn [fold_left]. rewrite section_step_inert by apply H, list_elem_of_here.
  apply IH. intros x Hx. by apply H, list_elem_of_further.
Qed.

End OverwriteClaims.

(** ** Pruning the table of contents *)

Section PruneFacts.
Import PyStr PruneToc PruneSpec Samples.

Lemma prune_cons (x : json) (xs : list json) :
  prune (JArr (x :: xs)) = JArr <$> loop (x :: xs).
Proof. reflexivity. Qed.

Lemma dict_get_del_eq (k : str) (d : list (str * json)) :
  dict_get k (dict_del k d) = None.
Proof.
  induction d as [|[k' v] d IH]; [done|]. cbn [dict_del].
  destruct (str_eqb k' k) eqn:E; [done|]. cbn [dict_get]. by rewrite E.
Qed.

Lemma dict_get_del_ne (k k' : str) (d : list (str * json)) :
  k' ≠ k -> dict_get k' (dict_del k d) = dict_get k' d.
Proof.
  intros Hne. induction d as [|[k0 v] d IH]; [done|]. cbn [dict_del dict_get].
  destruct (str_eqb k0 k) eqn:E.
  - apply str_eqb_eq in E as ->.
    assert (E' : str_eqb k k' = false) by (apply str_eqb_neq; congruence).
    by rewrite E'.
  - cbn [dict_get]. by rewrite IH.
Qed.

Lemma dict_get_set_eq (k : str) (v : json) (d : list (str * json)) :
  dict_get k (dict_set k v d) = Some v.
Proof.
  induction d as [|[k' v'] d IH]; cbn [dict_set dict_get].
  - by rewrite str_eqb_refl.
  - destruct (str_eqb k' k) eqn:E; cbn [dict_get]; by rewrite E.
Qed.

Lemma dict_get_set_ne (k k' : str) (v : json) (d : list (str * json)) :
  k' ≠ k -> dict_get k' (dict_set k v d) = dict_get k' d.
Proof.
  intros Hne. induction d as [|[k0 v0] d IH]; cbn [dict_set dict_get].
  - assert (E' : str_eqb k k' = false) by (apply str_eqb_neq; congruence).
    by rewrite E'.
  - destruct (str_eqb k0 k) eqn:E; cbn [dict_get]; [|by rewrite IH].
    apply str_eqb_eq in E as ->.
    assert (E' : str_eqb k k' = false) by (apply str_eqb_neq; congruence).
    by rewrite E'.
Qed.

Lemma dict_get_In (k : str) (v : json) (d : list (str * json)) :
  dict_get k d = Some v -> (k, v) ∈ d.
Proof.
  induction d as [|[k' v'] d IH]; [done|]. cbn [dict_get].
  destruct (str_eqb k' k) eqn:E.
  - apply str_eqb_eq in E as ->. intros [= ->]. apply list_elem_of_here.
  - intros H. by apply list_elem_of_further, IH.
Qed.

(** The recursive call works on the value of [items], in its place. *)
Lemma under_items (d : list (str * json)) (ch : json) :
  dict_get (py "items") d = Some ch ->
  under d = (fun ch' => dict_set (py "items") ch' d) <$> prune ch.
Proof.
  induction d as [|[k v] d IH]; [done|]. cbn [dict_get under dict_set].
  destruct (str_eqb k (py "items")) eqn:E.
  - intros [= ->]. by destruct (prune ch).
  - intros H. rewrite (IH H). by destruct (prune ch).
Qed.

(** Induction on JSON values, through arrays and object members. *)
Lemma json_induction (P : json -> Prop) :
  P JNull -> (∀ b, P (JBool b)) -> (∀ n, P (JNum n)) -> (∀ s, P (JStr s)) ->
  (∀ xs, Forall P xs -> P (JArr xs)) ->
  (∀ d, Forall (fun kv => P (snd kv)) d -> P (JObj d)) ->
  ∀ j, P j.
Proof.
  intros Hnull Hbool Hnum Hstr Harr Hobj.
  fix IH 1. intros [| b | n | s | xs | d].
  - apply Hnull.
  - apply Hbool.
  - apply Hnum.
  - apply Hstr.
  - apply Harr. induction xs as [|x xs IHxs]; constructor; [apply IH|apply IHxs].
  - apply Hobj. induction d as [|[k v] d IHd]; constructor; [apply IH|apply IHd].
Qed.

(** A truthy value on which [prune] returns is a non-empty list. *)
Lemma prune_truthy (ch out : json) :
  truth ch = true -> prune ch = Some out -> ∃ x xs, ch = JArr (x :: xs).
Proof.
  destruct ch as [| [] | n | [|c s] | [|x xs] | [|kv d]]; try done.
  - cbn [truth prune]. intros H. apply negb_true_iff in H. by rewrite H.
  - intros _ _. by exists x, xs.
Qed.

Lemma loop_Forall2 (P : json -> json -> Prop) (xs ys : list json) :
  Forall (fun x => ∀ out, visit x = Some out -> P x out) xs ->
  loop xs = Some ys -> Forall2 P xs ys.
Proof.
  intros H; revert ys; induction H as [|x xs Hx _ IH]; intros ys; cbn [loop].
  - intros [= <-]. constructor.
  - destruct (visit x) as [x'|] eqn:Ex; [|done]. cbn.
    destruct (loop xs) as [xs'|] eqn:Exs; [|done]. cbn. intros [= <-].
    constructor; [by apply Hx|by apply IH].
Qed.

Lemma in_keep_allow_listed (d : list (str * json)) :
  in_keep (default (JStr []) (dict_get (py "topicUid") d)) = Some true ->
  allow_listed d.
Proof.
  destruct (dict_get (py "topicUid") d) as [[| b | n | s | xs | fs]|] eqn:E;
    cbn [default in_keep]; try done.
  intros [= H]. apply bool_decide_eq_true in H. by exists s.
Qed.

Lemma in_keep_not_allow_listed (d : list (str * json)) :
  in_keep (default (JStr []) (dict_get (py "topicUid") d)) = Some false ->
  ¬ allow_listed d.
Proof.
  intros H (s & Hs & Hin). rewrite Hs in H. cbn [default in_keep] in H.
  injection H as H. apply bool_decide_eq_false in H. done.
Qed.

Lemma is_namespace_kind (d : list (str * json)) :
  is_namespace (dict_get (py "type") d) = true <-> namespace_kind d.
Proof.
  unfold namespace_kind.
  destruct (dict_get (py "type") d) as [[| b | n | s | xs | fs]|]; cbn [is_namespace];
    try (split; [done|intros [=]]).
  rewrite str_eqb_eq. split; [by intros ->|by intros [= ->]].
Qed.

(** What [visit] returns is the pruned node, and what [prune] returns on a
    list is the list of the pruned nodes. *)
Lemma prune_pruned (j : json) :
  (∀ out, visit j = Some out -> pruned j out)
  /\ (∀ xs out, j = JArr xs -> prune j = Some out ->
        ∃ ys, out = JArr ys /\ Forall2 pruned xs ys).
Proof.
  induction j as [| b | n | s | xs IH | d IH] using json_induction;
    split; try done; try (by intros ? ? [=]).
  - intros ys out [= <-]. destruct xs as [|x xs].
    + intros [= <-]. exists []. by split; [|constructor].
    + rewrite prune_cons. destruct (loop (x :: xs)) as [ys'|] eqn:E; [|done].
      intros [= <-]. exists ys'. split; [done|].
      eapply loop_Forall2; [|done]. eapply Forall_impl; [exact IH|].
      by intros y [Hy _].
  - intros out. cbn [visit].
    destruct (dict_get (py "items") d) as [ch|] eqn:Ech.
    2:{ intros [= <-]. apply pruned_leafless. by left. }
    destruct (truth ch) eqn:Et; cbn [negb].
    2:{ intros [= <-]. apply pruned_leafless. right. by exists ch. }
    destruct (is_namespace (dict_get (py "type") d)) eqn:Ens.
    + rewrite (under_items d ch) by done.
      destruct (prune ch) as [ch'|] eqn:Ep; [|done]. cbn. intros [= <-].
      destruct (prune_truthy _ _ Et Ep) as (x & xs & ->).
      assert (Hch : ∃ ys, ch' = JArr ys /\ Forall2 pruned (x :: xs) ys).
      { apply dict_get_In in Ech. rewrite Forall_forall in IH.
        destruct (IH _ Ech) as [_ H]. by apply (H (x :: xs)). }
      destruct Hch as (ys & -> & Hys).
      eapply (pruned_namespace d _ (x :: xs) ys); try done.
      * by apply is_namespace_kind.
      * apply dict_get_set_eq.
      * intros k Hk. by apply dict_get_set_ne.
    + assert (Hns : ¬ namespace_kind d).
      { intros H. apply is_namespace_kind in H. congruence. }
      destruct (in_keep _) as [[|]|] eqn:Ek; [| |done]; cbn; intros [= <-].
      * apply pruned_kept; [by exists ch|done|by apply in_keep_allow_listed].
      * apply pruned_stripped; [by exists ch|done|by apply in_keep_not_allow_listed|..].
        -- rewrite dict_get_set_ne by done. apply dict_get_del_eq.
        -- apply dict_get_set_eq.
        -- intros k Hi Hl. rewrite dict_get_set_ne by done. by apply dict_get_del_ne.
Qed.

(** On a table of contents [visit] and [prune] raise no error. *)
Lemma prune_total (j : json) :
  (toc_node j -> is_Some (visit j))
  /\ (∀ xs, j = JArr xs -> Forall toc_node xs -> is_Some (prune j)).
Proof.
  induction j as [| b | n | s | xs IH | d IH] using json_induction;
    split; try (by inversion 1); try (by intros ? [=]).
  - intros ys [= <-] Hys. destruct xs as [|x xs]; [done|].
    rewrite prune_cons.
    assert (H : is_Some (loop (x :: xs))); [|by destruct H as [l ->]].
    revert IH Hys. generalize (x :: xs). intros l Hl Hn.
    induction Hl as [|y l [Hy _] _ IHl]; [done|].
    inversion Hn as [|? ? Hy' Hl']; subst. cbn [loop].
    destruct (Hy Hy') as [y' ->]. destruct (IHl Hl') as [l' ->]. done.
  - inversion 1 as [d' Huid Hitems]; subst. cbn [visit].
    destruct (dict_get (py "items") d) as [ch|] eqn:Ech; [|done].
    destruct (truth ch) eqn:Et; cbn [negb]; [|done].
    destruct (Hitems ch eq_refl) as (xs & -> & Hxs).
    destruct (is_namespace _).
    + rewrite (under_items d (JArr xs)) by done.
      apply dict_get_In in Ech. rewrite Forall_forall in IH.
      destruct (IH _ Ech) as [_ Hp]. cbn [snd] in Hp.
      destruct (Hp xs eq_refl Hxs) as [out ->]. done.
    + destruct (dict_get (py "topicUid") d) as [u|] eqn:Eu; cbn [default].
      * destruct (Huid u eq_refl) as [s' ->]. cbn [in_keep]. cbn.
        by destruct (bool_decide _).
      * cbn [in_keep]. cbn. by destruct (bool_decide _).
Qed.

(** C9, as amended.  [prune] visits the nodes of the list it is given and,
    through the Namespace nodes that have a non-empty child list, the nodes
    of their child lists.  On every node it visits: a node with a non-empty
    child list that is not a Namespace and whose unique-id is not in the
    allow-list loses the key [items] and gets [leaf] set to true, its other
    keys unchanged; a Namespace node keeps its child list, whose nodes are
    visited in turn; an allow-listed node is left as it is, children
    included; a node with a missing or empty child list is left untouched.
    Below a node that is not a Namespace nothing is visited.  On a table of
    contents with any of the fields missing no error is raised. *)
Theorem prune_visited_nodes (xs : list json) :
  (∀ out, prune (JArr xs) = Some out ->
          ∃ ys, out = JArr ys /\ Forall2 pruned xs ys)
  /\ (Forall toc_node xs -> ∃ ys, prune (JArr xs) = Some (JArr ys)
                                  /\ Forall2 pruned xs ys).
Proof.
  split.
  - intros out. by apply (proj2 (prune_pruned (JArr xs)) xs out).
  - intros Hxs. destruct (proj2 (prune_total (JArr xs)) xs eq_refl Hxs) as [out H].
    destruct (proj2 (prune_pruned (JArr xs)) xs out eq_refl H) as (ys & -> & Hys).
    by exists ys.
Qed.

Lemma prune_visited_nodes_witness :
  ∃ ys, prune namespace_toc = Some (JArr ys)
        /\ Forall2 pruned
             [ JObj
                 [ (py "name", JStr (py "Camunda.Client"));
                   (py "type", JStr (py "Namespace"));
                   (py "items",
                     JArr
                       [ JObj
                           [ (py "name", JStr (py "Job"));
                             (py "topicUid", JStr (py "Camunda.Client.Job"));
                             (py "items",
                               JArr [JObj [(py "name", JStr (py "Id"))]]) ] ]) ] ]
             ys.
Proof.
  apply (proj2 (prune_visited_nodes _)).
  repeat first
    [ apply Forall_nil_2
    | apply Forall_cons_2
    | apply toc_node_obj;
      [ intros u Hu; vm_compute in Hu; first [discriminate Hu | injection Hu as <-; eexists; reflexivity]
      | intros ch Hch; vm_compute in Hch;
        first [discriminate Hch | injection Hch as <-; eexists; split; [reflexivity|]] ] ].
Defined.

(** C9 as stated fails below an allow-listed node: the member Nested of the
    client type has a non-empty child list, is no Namespace and is not
    allow-listed, and yet keeps its child list, since [prune] leaves the
    client type as it is and does not look at its members. *)
Lemma prune_kept_subtree_counterexample :
  ¬ (∀ xs out, prune (JArr xs) = Some out ->
       ∀ d, node_of out d ->
            ¬ (has_children d /\ ¬ namespace_kind d /\ ¬ allow_listed d)).
Proof.
  intros H.
  apply (H _ client_toc (eq_refl : prune client_toc = Some client_toc) nested_member).
  - eapply node_below; [apply list_elem_of_here|reflexivity|].
    apply node_top, list_elem_of_here.
  - split; [|split].
    + eexists. split; reflexivity.
    + by vm_compute.
    + intros (s & Hs & Hin). vm_compute in Hs. injection Hs as <-.
      apply elem_of_singleton in Hin. by vm_compute in Hin.
Qed.

End PruneFacts.

(** ** Link rewriting *)

Section LinkFacts.
Import PyStr Re Generate LinkSpec Samples.

Lemma Forall_none_of (x : ascii) (s : str) :
  Forall (fun c => none_of x c = true) s <-> x ∉ s.
Proof.
  rewrite Forall_forall. unfold none_of. split.
  - intros H Hx. specialize (H x Hx). by rewrite chr_eqb_refl in H.
  - intros H c Hc. apply negb_true_iff, chr_eqb_neq. by intros ->.
Qed.

Lemma Forall_dot (s : str) : Forall (fun c => dot c = true) s <-> LF ∉ s.
Proof. apply Forall_none_of. Qed.

(** The literal [p] does not start a text whose first part neither starts
    with [p] nor reaches a character outside [p]. *)
Lemma strip_prefix_app_None (p tail rest : str) (c : ascii) :
  startswith tail p = false -> c ∉ p ->
  strip_prefix p (tail ++ c :: rest) = None.
Proof.
  unfold startswith. revert tail; induction p as [|x p IH]; intros tail; [done|].
  intros H Hc. destruct tail as [|y tail]; cbn [app strip_prefix] in *.
  - destruct (chr_eqb x c) eqn:E; [|done]. apply chr_eqb_eq in E as ->.
    destruct Hc. apply list_elem_of_here.
  - destruct (chr_eqb x y); [|done]. apply IH; [done|].
    intros Hin. apply Hc. by apply list_elem_of_further.
Qed.

(** The end of the pattern: the target, taken up to the first closing
    parenthesis. *)
Lemma link_target_exec prev gs (x rest : str) :
  ")"%char ∉ x -> LF ∉ x ->
  exec false (Group (StarLazy dot) ⋅ Chars (py ")")) Some
    (MState prev (x ++ py ")" ++ rest) gs)
  = Some (MState (Some ")"%char) rest (gs ++ [x])).
Proof.
  intros Hp HLF. rewrite exec_Cat, exec_Group, exec_StarLazy.
  cbn [m_rest m_prev m_groups].
  rewrite star_lazy_app.
  - apply star_lazy_here. cbn [m_rest m_prev m_groups].
    rewrite take_consumed, exec_Chars_app. done.
  - by apply Forall_dot.
  - intros x1 c x2 ->. cbn [m_rest m_prev m_groups].
    apply exec_Chars_None. cbn [m_rest]. intros [t [= -> _]].
    apply Hp, elem_of_app. right. apply list_elem_of_here.
Qed.

(** The host and the optional [next/]. *)
Lemma link_host_exec prev gs (tail rest : str) :
  ")"%char ∉ tail -> LF ∉ tail ->
  exec false
    (Chars (py "://docs.camunda.io/docs/") ⋅ Opt (Chars (py "next/"))
     ⋅ Group (StarLazy dot) ⋅ Chars (py ")")) Some
    (MState prev (py "://docs.camunda.io/docs/" ++ tail ++ py ")" ++ rest) gs)
  = Some (MState (Some ")"%char) rest (gs ++ [url_path tail])).
Proof.
  intros Hp HLF. rewrite exec_Cat, exec_Chars_app, exec_Cat, exec_Opt.
  unfold url_path. destruct (startswith tail (py "next/")) eqn:E.
  - apply startswith_true in E as [x ->].
    rewrite <- app_assoc, exec_Chars_app, link_target_exec; [done| |].
    + intros H. apply Hp, elem_of_app. by right.
    + intros H. apply HLF, elem_of_app. by right.
  - rewrite (exec_Chars_None _ (py "next/")).
    + cbn [orelse]. by apply link_target_exec.
    + cbn [m_rest]. intros [t Ht]. apply strip_prefix_Some in Ht.
      assert (Hn : ")"%char ∉ py "next/") by (apply (bool_decide_unpack _); by vm_compute).
      pose proof (strip_prefix_app_None (py "next/") tail rest ")"%char E Hn) as Hnone.
      change (py ")" ++ rest) with (")"%char :: rest) in Ht. congruence.
Qed.

(** A link the rewriter takes is matched, with its text and its path as the
    two groups. *)
Lemma docs_link_exec prev (text scheme tail rest : str) :
  is_docs_link text scheme tail ->
  exec false _DOCS_LINK_RE Some
    (MState prev (docs_link text scheme tail ++ rest) [])
  = Some (MState (Some ")"%char) rest [text; url_path tail]).
Proof.
  intros (Ht & Hs & Hp & HLF). unfold docs_link, _DOCS_LINK_RE.
  rewrite <- !app_assoc.
  rewrite exec_Cat, exec_Chars_app, exec_Cat, exec_Group, exec_Star.
  cbn [m_rest m_prev m_groups].
  apply star_greedy_app; [by apply Forall_none_of|by intros c t' [= <- _]|].
  cbn [m_rest m_prev m_groups]. rewrite take_consumed. cbn [app].
  destruct Hs as [-> | ->].
  - change (py "](" ++ py "http" ++ ?x) with (py "](http" ++ x).
    rewrite exec_Cat, exec_Chars_app, exec_Cat, exec_Opt.
    rewrite (exec_Chars_None _ (py "s")) by (cbn [m_rest]; by intros [t [=]]).
    cbn [orelse]. by rewrite (link_host_exec _ [text]).
  - change (py "](" ++ py "https" ++ ?x) with (py "](http" ++ py "s" ++ x).
    rewrite exec_Cat, exec_Chars_app, exec_Cat, exec_Opt, exec_Chars_app.
    by rewrite (link_host_exec _ [text]).
Qed.

(** What the pattern matches starts with a link the rewriter takes. *)
Lemma docs_link_exec_inv prev (s : str) (e : mstate) :
  exec false _DOCS_LINK_RE Some (MState prev s []) = Some e ->
  starts_with_docs_link s.
Proof.
  unfold _DOCS_LINK_RE. intros E.
  rewrite exec_Cat in E. apply exec_Chars_inv in E as (t1 & H1 & E).
  cbn [m_rest m_prev m_groups] in *. subst s.
  rewrite exec_Cat, exec_Group, exec_Star in E. cbn [m_rest m_prev m_groups] in E.
  apply star_greedy_inv in E as (text & t2 & -> & Htext & E).
  cbn [m_rest m_prev m_groups] in E. rewrite exec_Cat in E.
  apply exec_Chars_inv in E as (t3 & H3 & E). cbn [m_rest m_prev m_groups] in *.
  subst t2. rewrite exec_Cat, exec_Opt in E.
  assert (Hhost : ∃ scheme t4,
            (scheme = py "http" \/ scheme = py "https")
            /\ py "](http" ++ t3 = py "](" ++ scheme ++ py "://docs.camunda.io/docs/" ++ t4
            /\ ∃ pv gs, exec false
                  (Opt (Chars (py "next/")) ⋅ Group (StarLazy dot) ⋅ Chars (py ")"))
                  Some (MState pv t4 gs) = Some e).
  { destruct (exec false (Chars (py "s")) _ _) as [e'|] eqn:Es; cbn [orelse] in E.
    - injection E as ->. apply exec_Chars_inv in Es as (t & Ht & Es).
      cbn [m_rest m_prev m_groups] in *. subst t3. rewrite exec_Cat in Es.
      apply exec_Chars_inv in Es as (t4 & Ht4 & Es).
      cbn [m_rest m_prev m_groups] in *. subst t.
      exists (py "https"), t4. split; [by right|]. split; [done|]. eauto.
    - rewrite exec_Cat in E. apply exec_Chars_inv in E as (t4 & Ht4 & E).
      cbn [m_rest m_prev m_groups] in *. subst t3.
      exists (py "http"), t4. split; [by left|]. split; [done|]. eauto. }
  destruct Hhost as (scheme & t4 & Hscheme & Heq & pv & gs & E').
  assert (Htail : ∃ tail rest, t4 = tail ++ py ")" ++ rest
                               /\ (")"%char ∉ tail) /\ (LF ∉ tail)).
  { assert (Hlazy : ∀ pv' gs' u,
              exec false (Group (StarLazy dot) ⋅ Chars (py ")")) Some
                (MState pv' u gs') = Some e ->
              ∃ x rest, u = x ++ py ")" ++ rest /\ (")"%char ∉ x) /\ (LF ∉ x)).
    { intros pv' gs' u Hu. rewrite exec_Cat, exec_Group, exec_StarLazy in Hu.
      cbn [m_rest m_prev m_groups] in Hu.
      apply star_lazy_inv in Hu as (x & t & -> & Hx & Hmin & Hk).
      cbn [m_rest m_prev m_groups] in Hk.
      apply exec_Chars_inv in Hk as (rest & Hrest & _). cbn [m_rest] in Hrest.
      subst t. exists x, rest. split; [done|]. split; [|by apply Forall_dot].
      intros Hin. apply list_elem_of_split in Hin as (x1 & x2 & ->).
      specialize (Hmin x1 ")"%char x2 eq_refl). cbn [m_rest m_prev m_groups] in Hmin.
      change (")"%char :: x2 ++ py ")" ++ rest)
        with (py ")" ++ (x2 ++ py ")" ++ rest)) in Hmin.
      by rewrite exec_Chars_app in Hmin. }
    rewrite exec_Cat, exec_Opt in E'.
    destruct (exec false (Chars (py "next/")) _ _) as [e'|] eqn:En; cbn [orelse] in E'.
    - injection E' as ->. apply exec_Chars_inv in En as (t & Ht & En).
      cbn [m_rest m_prev m_groups] in *. subst t4.
      apply Hlazy in En as (x & rest & -> & Hp & HLF).
      exists (py "next/" ++ x), rest. split; [by rewrite <- app_assoc|].
      split; intros Hin; apply elem_of_app in Hin as [Hin|Hin]; try done;
        revert Hin; apply (bool_decide_unpack _); by vm_compute.
    - by apply Hlazy in E'. }
  destruct Htail as (tail & rest & -> & Hp & HLF).
  exists text, scheme, tail, rest. split.
  - split; [by apply Forall_none_of|done].
  - unfold docs_link. rewrite <- !app_assoc. do 2 f_equal. exact Heq.
Qed.

Lemma match_at_docs_link prev i (text scheme tail rest : str) :
  is_docs_link text scheme tail ->
  match_at false _DOCS_LINK_RE prev i (docs_link text scheme tail ++ rest)
  = Some (RMatch i (i + length (docs_link text scheme tail)) [text; url_path tail]).
Proof.
  intros H. unfold match_at. rewrite docs_link_exec by done.
  cbn [m_rest m_groups]. do 3 f_equal. rewrite length_app. lia.
Qed.

Lemma match_at_no_link prev i (s : str) :
  ¬ starts_with_docs_link s -> match_at false _DOCS_LINK_RE prev i s = None.
Proof.
  intros H. unfold match_at.
  destruct (exec false _DOCS_LINK_RE Some _) as [e|] eqn:E; [|done].
  destruct H. by eapply docs_link_exec_inv.
Qed.

Lemma docs_link_nonempty (text scheme tail : str) : docs_link text scheme tail ≠ [].
Proof. done. Qed.

(** Whether a text starts with a link can be told from the matcher. *)
Lemma starts_with_docs_link_dec (s : str) :
  starts_with_docs_link s \/ ¬ starts_with_docs_link s.
Proof.
  destruct (exec false _DOCS_LINK_RE Some (MState None s [])) as [e|] eqn:E.
  - left. by eapply docs_link_exec_inv.
  - right. intros (text & scheme & tail & rest & H & ->).
    by rewrite docs_link_exec in E.
Qed.

(** The substitution does not depend on where in the subject it is. *)
Lemma sub_from_docs_link_shift (prefix : str) prev i prev' i' (skip : nat) (s : str) :
  sub_from false _DOCS_LINK_RE (rewrite_with prefix) prev i skip s
  = sub_from false _DOCS_LINK_RE (rewrite_with prefix) prev' i' skip s.
Proof.
  revert prev i prev' i' skip; induction s as [|c s IH]; intros prev i prev' i' skip.
  - destruct skip; [|done]. cbn [sub_from].
    rewrite !match_at_no_link; [done| |];
      intros (text & scheme & tail & rest & _ & H); by destruct text.
  - destruct skip as [|n]; [|apply IH].
    destruct (starts_with_docs_link_dec (c :: s)) as [(text & scheme & tail & rest & H & E)|H].
    + cbn [sub_from]. rewrite E, !match_at_docs_link by done.
      cbn [m_end m_start]. f_equal.
      replace (i + length (docs_link text scheme tail) - i)
        with (i' + length (docs_link text scheme tail) - i') by lia.
      destruct (i' + _ - i'); [f_equal|]; apply IH.
    + cbn [sub_from]. rewrite !match_at_no_link by done. f_equal. apply IH.
Qed.

(** The three equations of the substitution. *)
Lemma rewrite_link (prefix : str) (text scheme tail rest : str) :
  is_docs_link text scheme tail ->
  re_sub false _DOCS_LINK_RE (rewrite_with prefix) (docs_link text scheme tail ++ rest)
  = rewrite_with prefix (RMatch 0 (length (docs_link text scheme tail))
                           [text; url_path tail])
    ++ re_sub false _DOCS_LINK_RE (rewrite_with prefix) rest.
Proof.
  intros H. unfold re_sub.
  rewrite (sub_from_match _ _ _ _ _ _ _ _ (docs_link_nonempty _ _ _)
             (match_at_docs_link _ _ _ _ _ _ H)) by (cbn [m_end m_start]; lia).
  f_equal. apply sub_from_docs_link_shift.
Qed.

Lemma rewrite_other (prefix : str) (c : ascii) (s : str) :
  ¬ starts_with_docs_link (c :: s) ->
  re_sub false _DOCS_LINK_RE (rewrite_with prefix) (c :: s)
  = c :: re_sub false _DOCS_LINK_RE (rewrite_with prefix) s.
Proof.
  intros H. unfold re_sub. rewrite sub_from_nomatch by by apply match_at_no_link.
  f_equal. apply sub_from_docs_link_shift.
Qed.

Lemma rewrite_no_link (prefix : str) (content : str) :
  ¬ has_docs_link content ->
  re_sub false _DOCS_LINK_RE (rewrite_with prefix) content = content.
Proof.
  induction content as [|c s IH]; intros H.
  - unfold re_sub. cbn [sub_from]. rewrite match_at_no_link; [done|].
    intros (text & scheme & tail & rest & _ & E); by destruct text.
  - rewrite rewrite_other.
    + f_equal. apply IH. intros (b & text & scheme & tail & a & Hl & ->).
      apply H. exists (c :: b), text, scheme, tail, a. by split.
    + intros (text & scheme & tail & rest & Hl & E). apply H.
      exists [], text, scheme, tail, rest. by split.
Qed.

Lemma rewrite_with_relative (depth : nat) (n : nat) (text tail : str) :
  rewrite_with (str_mul (py "../") depth) (RMatch 0 n [text; url_path tail])
  = relative_link depth text tail.
Proof. done. Qed.

(** A text in which the search finds nothing holds no link. *)
Lemma search_finds_link prev i (before text scheme tail after : str) :
  is_docs_link text scheme tail ->
  search_from false _DOCS_LINK_RE prev i (before ++ docs_link text scheme tail ++ after)
  ≠ None.
Proof.
  intros H. revert prev i; induction before as [|c before IH]; intros prev i.
  - cbn [app]. destruct (docs_link text scheme tail ++ after) eqn:E;
      cbn [search_from]; rewrite <- E, match_at_docs_link by done; done.
  - cbn [app search_from]. destruct (match_at _ _ _ _ _); [done|apply IH].
Qed.

Lemma no_link_by_search (content : str) :
  re_search false _DOCS_LINK_RE content = None -> ¬ has_docs_link content.
Proof.
  intros E (before & text & scheme & tail & after & H & ->).
  by apply (search_finds_link None 0 before text scheme tail after H).
Qed.

(** C3, as amended.  Both rewriters return a text that holds no link to the
    documentation host as it is, so that a second pass changes nothing more
    on such a text.  Scanning from the left, a link
    [text](http(s)://docs.camunda.io/docs/(next/)path) found at the current
    place becomes [text](../../../path.md) on a reference page and
    [text](../../path.md) on the landing page, with the link text as it was,
    every trailing slash of the path dropped and [camunda-api-rest] renamed
    to [orchestration-cluster-api-rest]; the scan goes on after the link.  A
    character that starts no such link is copied.  Links do not overlap: a
    link that starts inside the text or the target of a link already taken
    stays as it is. *)
Theorem docs_links_rewritten :
  (∀ content, ¬ has_docs_link content ->
     rewrite_camunda_docs_links content = content
     /\ _rewrite_landing_links content = content
     /\ rewrite_camunda_docs_links (rewrite_camunda_docs_links content)
        = rewrite_camunda_docs_links content
     /\ _rewrite_landing_links (_rewrite_landing_links content)
        = _rewrite_landing_links content)
  /\ (∀ text scheme tail rest, is_docs_link text scheme tail ->
       rewrite_camunda_docs_links (docs_link text scheme tail ++ rest)
       = relative_link 3 text tail ++ rewrite_camunda_docs_links rest
       /\ _rewrite_landing_links (docs_link text scheme tail ++ rest)
          = relative_link 2 text tail ++ _rewrite_landing_links rest)
  /\ (∀ c s, ¬ starts_with_docs_link (c :: s) ->
       rewrite_camunda_docs_links (c :: s) = c :: rewrite_camunda_docs_links s
       /\ _rewrite_landing_links (c :: s) = c :: _rewrite_landing_links s)
  /\ rewrite_camunda_docs_links [] = [] /\ _rewrite_landing_links [] = []
  /\ rewrite_camunda_docs_links sample_link = py "[text](../../../some/path.md)"
  /\ _rewrite_landing_links sample_link = py "[text](../../some/path.md)"
  /\ rewrite_camunda_docs_links
       (py "[REST](http://docs.camunda.io/docs/apis-tools/camunda-api-rest/overview//)")
     = py "[REST](../../../apis-tools/orchestration-cluster-api-rest/overview.md)".
Proof.
  split; [|split; [|split]].
  - intros content H.
    unfold rewrite_camunda_docs_links, _rewrite_landing_links, _rewrite_match.
    rewrite !(rewrite_no_link _ content) by done. done.
  - intros text scheme tail rest H.
    unfold rewrite_camunda_docs_links, _rewrite_landing_links, _rewrite_match.
    rewrite !rewrite_link by done. by rewrite !rewrite_with_relative.
  - intros c s H.
    unfold rewrite_camunda_docs_links, _rewrite_landing_links, _rewrite_match.
    rewrite !rewrite_other by done. done.
  - split; [by vm_compute|]. split; [by vm_compute|].
    split; [by vm_compute|]. split; by vm_compute.
Qed.

Lemma docs_links_rewritten_witness :
  rewrite_camunda_docs_links relative_page = relative_page
  /\ rewrite_camunda_docs_links
       (docs_link (py "text") (py "https") (py "next/some/path/") ++ py " and more")
     = relative_link 3 (py "text") (py "next/some/path/")
       ++ rewrite_camunda_docs_links (py " and more").
Proof.
  destruct docs_links_rewritten as (Hnone & Hlink & _).
  split.
  - refine (proj1 (Hnone relative_page _)).
    apply no_link_by_search. vm_compute. reflexivity.
  - refine (proj1 (Hlink (py "text") (py "https") (py "next/some/path/")
                     (py " and more") _)).
    split; [|split; [by right|split]];
      apply (bool_decide_unpack _); vm_compute; exact I.
Defined.

(** C3 as stated fails: the rewriter is not idempotent, and not every
    matching link is rewritten.  In the sample text the target of the first
    link holds the start of a second link; the first pass takes the first
    link and leaves the second as it is, and a second pass rewrites it. *)
Lemma rewrite_twice_counterexample :
  ¬ (∀ content,
       rewrite_camunda_docs_links (rewrite_camunda_docs_links content)
       = rewrite_camunda_docs_links content).
Proof. intros H. specialize (H link_in_target). by vm_compute in H. Qed.

End LinkFacts.

(** * Further properties *)

(** ** Classification keeps the input order *)

Section ClassifierMore.
Import PyStr Generate ClassifierSpec Samples.

(** X1.  Classifying two lists one after the other gives, on every page,
    the page of the first list followed by the page of the second: within a
    page the types stand in the order of the input. *)
Theorem classify_types_app (l1 l2 : list TypeItem) (k : string)
    (a b : list TypeItem) :
  classify_types l1 !! k = Some a ->
  classify_types l2 !! k = Some b ->
  classify_types (l1 ++ l2) !! k = Some (a ++ b).
Proof.
  intros Ha Hb. destruct (classify_types_key _ _ _ Ha) as [bk ->].
  rewrite classify_types_lookup in *. injection Ha as <-. injection Hb as <-.
  by rewrite filter_app.
Qed.

Lemma classify_types_app_witness :
  classify_types ([client_type; runtime_key] ++ [status_enum; runtime_key]) !! "keys"
  = Some ([runtime_key] ++ [runtime_key]).
Proof.
  apply (classify_types_app [client_type; runtime_key] [status_enum; runtime_key]);
    reflexivity.
Defined.

End ClassifierMore.

(** ** Shortened type names *)

Section ShortTypeMore.
Import PyStr Re Generate.

Lemma existsb_chr_false (sep : ascii) (s : str) :
  existsb (chr_eqb sep) s = false <-> sep ∉ s.
Proof.
  induction s as [|c s IH]; cbn [existsb].
  - split; [intros _ H; by apply elem_of_nil in H|done].
  - rewrite orb_false_iff, IH, chr_eqb_neq, not_elem_of_cons. done.
Qed.

Lemma last_segment_no_sep (sep : ascii) (s : str) : sep ∉ last_segment sep s.
Proof.
  induction s as [|c s IH]; cbn [last_segment]; [by intros H; apply elem_of_nil in H|].
  destruct (existsb (chr_eqb sep) s) eqn:E; [done|].
  apply existsb_chr_false in E.
  destruct (chr_eqb sep c) eqn:Ec; [done|].
  apply chr_eqb_neq in Ec. by apply not_elem_of_cons.
Qed.

Lemma last_segment_app (sep : ascii) (s t : str) :
  sep ∉ t -> last_segment sep (s ++ t) = last_segment sep s ++ t.
Proof.
  intros Ht. induction s as [|c s IH]; cbn [app last_segment].
  - destruct t as [|d t]; [done|]. cbn [last_segment].
    apply not_elem_of_cons in Ht as [Hd Ht].
    apply existsb_chr_false in Ht. rewrite Ht.
    apply chr_eqb_neq in Hd. by rewrite Hd.
  - assert (E : existsb (chr_eqb sep) (s ++ t) = existsb (chr_eqb sep) s).
    { rewrite existsb_app. apply existsb_chr_false in Ht. rewrite Ht.
      apply orb_false_r. }
    rewrite E. destruct (existsb (chr_eqb sep) s); [done|].
    by destruct (chr_eqb sep c).
Qed.

(** X2.  A shortened type name holds no dot, whatever the input. *)
Theorem short_type_no_dot (full : str) : "."%char ∉ _short_type full.
Proof.
  unfold _short_type. destruct full as [|c full].
  - intros H. by apply elem_of_nil in H.
  - rewrite short_type_fuel_S. apply last_segment_no_sep.
Qed.

Lemma generic_sub_outer f prev i (outer rest : str) :
  ("{"%char ∉ outer) ->
  sub_from false GENERIC_RE f prev i 0 (outer ++ rest)
  = outer ++ sub_from false GENERIC_RE f (last_chr prev outer) (i + length outer) 0 rest.
Proof.
  revert prev i; induction outer as [|c outer IH]; intros prev i H.
  - cbn [app length]. by rewrite Nat.add_0_r.
  - apply not_elem_of_cons in H as [Hc H].
    rewrite <- app_comm_cons, sub_from_nomatch.
    + rewrite IH by done. rewrite last_chr_cons. cbn [app length].
      do 3 f_equal. lia.
    + destruct (match_at _ _ _ _ _) as [m|] eqn:E; [|done].
      apply generic_match_inv in E as (r & E & _). injection E as ->. done.
Qed.

Lemma generic_match_arg prev i (arg rest : str) :
  arg ≠ [] -> ("}"%char ∉ arg) ->
  match_at false GENERIC_RE prev i (py "{" ++ arg ++ py "}" ++ rest)
  = Some (RMatch i (i + (length arg + 2)) [arg]).
Proof.
  intros Hne Harg. unfold match_at, GENERIC_RE.
  rewrite exec_Cat, exec_Chars_app, exec_Cat, exec_Group.
  erewrite exec_Plus_app; [|done| |by intros c t' [= <- _]|].
  3:{ cbn [m_rest m_prev m_groups]. rewrite take_consumed, exec_Chars_app.
      reflexivity. }
  2:{ rewrite Forall_forall. intros c Hc. unfold none_of.
      apply negb_true_iff, chr_eqb_neq. by intros ->. }
  cbn [m_rest m_groups app]. do 3 f_equal.
  cbn [py list_ascii_of_string app length]. rewrite !length_app.
  cbn [length]. lia.
Qed.

Lemma generic_sub_end f prev i : sub_from false GENERIC_RE f prev i 0 [] = [].
Proof.
  cbn [sub_from]. destruct (match_at _ _ _ _ _) as [m|] eqn:Em; [|done].
  apply generic_match_inv in Em as (r & Em & _). done.
Qed.

Lemma short_type_fuel_one_argument (n : nat) (outer arg : str) :
  ("{"%char ∉ outer) -> arg ≠ [] -> ("}"%char ∉ arg) ->
  _short_type_fuel (S (S n)) (outer ++ py "{" ++ arg ++ py "}")
  = last_segment "." outer ++ py "<" ++ last_segment "." arg ++ py ">".
Proof.
  intros Ho Hne Harg.
  destruct (outer ++ py "{" ++ arg ++ py "}") as [|c full] eqn:E.
  { by destruct outer. }
  rewrite short_type_fuel_S, <- E. unfold re_sub.
  rewrite generic_sub_outer by done.
  replace (py "{" ++ arg ++ py "}") with ((py "{" ++ arg ++ py "}") ++ [])
    by apply app_nil_r.
  erewrite sub_from_match.
  2:{ done. }
  2:{ rewrite <- !app_assoc. by apply generic_match_arg. }
  2:{ cbn [m_end m_start]. rewrite !length_app. cbn [py list_ascii_of_string length].
      lia. }
  rewrite generic_sub_end, app_nil_r. unfold group. cbn [groups Nat.sub nth].
  rewrite short_type_fuel_plain by done.
  rewrite last_segment_app; [done|].
  intros H. apply elem_of_app in H as [H|H].
  { revert H. apply (bool_decide_unpack _). by vm_compute. }
  apply elem_of_app in H as [H|H].
  { by apply last_segment_no_sep in H. }
  revert H. apply (bool_decide_unpack _). by vm_compute.
Qed.

(** X3.  A generic with one pair of braces, around a name without braces:
    the outer name and the argument are each cut to their last segment, and
    the braces become angle brackets. *)
Theorem short_type_one_argument (outer arg : str) :
  ("{"%char ∉ outer) -> arg ≠ [] -> ("}"%char ∉ arg) ->
  _short_type (outer ++ py "{" ++ arg ++ py "}")
  = last_segment "." outer ++ py "<" ++ last_segment "." arg ++ py ">".
Proof.
  intros Ho Hne Harg. unfold _short_type.
  assert (Hlen : ∃ n, length (outer ++ py "{" ++ arg ++ py "}") = S n).
  { rewrite !length_app. cbn [py list_ascii_of_string length].
    exists (length outer + (length arg + 1)). lia. }
  destruct Hlen as [n ->]. by apply short_type_fuel_one_argument.
Qed.

Lemma short_type_one_argument_witness :
  _short_type (py "System.Collections.Generic.List" ++ py "{" ++ py "My.Type" ++ py "}")
  = last_segment "." (py "System.Collections.Generic.List") ++ py "<"
    ++ last_segment "." (py "My.Type") ++ py ">".
Proof.
  apply (short_type_one_argument (py "System.Collections.Generic.List") (py "My.Type"));
    apply (bool_decide_unpack _); vm_compute; exact I.
Defined.

End ShortTypeMore.

(** ** Method groups *)

Section MethodGroupMore.
Import PyStr Re Generate.

Lemma first_group_range (table : list (str * str)) (base : str) :
  first_group table base ∈ py "Other" :: (snd <$> table).
Proof.
  induction table as [|[key label] table IH]; cbn [first_group fmap list_fmap].
  - apply list_elem_of_here.
  - destruct (contains key base).
    + apply list_elem_of_further, list_elem_of_here.
    + apply elem_of_cons in IH as [-> |IH]; [apply list_elem_of_here|].
      by do 2 apply list_elem_of_further.
Qed.

(** X4.  Whatever the method name, its group is one of the labels of the
    table or Other: the client page never gets a heading from elsewhere. *)
Theorem method_group_range (name : str) :
  _method_group name ∈ py "Other" :: (snd <$> GROUP_PREFIXES).
Proof. apply first_group_range. Qed.

End MethodGroupMore.

(** ** A second run of the pruning pass *)

Section PruneMore.
Import PyStr PruneToc PruneSpec Samples.

Lemma dict_set_set (k : str) (v v' : json) (d : list (str * json)) :
  dict_set k v (dict_set k v' d) = dict_set k v d.
Proof.
  induction d as [|[k0 v0] d IH]; cbn [dict_set].
  - by rewrite str_eqb_refl.
  - destruct (str_eqb k0 k) eqn:E; cbn [dict_set]; rewrite E; [done|by rewrite IH].
Qed.

Lemma dict_set_get (k : str) (v : json) (d : list (str * json)) :
  dict_get k d = Some v -> dict_set k v d = d.
Proof.
  induction d as [|[k0 v0] d IH]; [done|]. cbn [dict_get dict_set].
  destruct (str_eqb k0 k) eqn:E; [by intros [= ->]|]. intros H. by rewrite IH.
Qed.

Lemma loop_fixed (xs ys : list json) :
  Forall (fun x => ∀ out, visit x = Some out -> visit out = Some out) xs ->
  loop xs = Some ys -> loop ys = Some ys.
Proof.
  intros H; revert ys; induction H as [|x xs Hx _ IH]; intros ys; cbn [loop].
  - by intros [= <-].
  - destruct (visit x) as [x'|] eqn:Ex; [|done]. cbn.
    destruct (loop xs) as [xs'|] eqn:Exs; [|done]. cbn. intros [= <-].
    cbn [loop]. rewrite (Hx _ eq_refl). cbn. by rewrite (IH _ eq_refl).
Qed.

Lemma prune_falsy (j : json) : truth j = false -> prune j = Some j.
Proof.
  destruct j as [| [] | n | [|c s] | [|x xs] | [|kv d]]; try done.
  cbn [truth prune]. intros H. apply negb_false_iff in H. by rewrite H.
Qed.

Lemma prune_truth (j out : json) : prune j = Some out -> truth out = truth j.
Proof.
  destruct (truth j) eqn:E.
  - intros H. destruct (prune_truthy _ _ E H) as (x & xs & ->).
    rewrite prune_cons in H. cbn [loop] in H.
    destruct (visit x) as [x'|]; [|done]. cbn in H.
    destruct (loop xs) as [xs'|]; [|done]. cbn in H. by injection H as <-.
  - rewrite (prune_falsy _ E). by intros [= <-].
Qed.

Lemma prune_fixed_other (j out : json) :
  (∀ xs, j ≠ JArr xs) -> prune j = Some out -> prune out = Some out.
Proof.
  intros Hj H. destruct (truth j) eqn:E.
  - destruct (prune_truthy _ _ E H) as (x & xs & ->). by destruct (Hj (x :: xs)).
  - rewrite (prune_falsy _ E) in H. injection H as <-. by apply prune_falsy.
Qed.

Lemma prune_fixed (j : json) :
  (∀ out, visit j = Some out -> visit out = Some out)
  /\ (∀ out, prune j = Some out -> prune out = Some out).
Proof.
  induction j as [| b | n | s | xs IH | d IH] using json_induction;
    (split; [|try (by intros out; apply prune_fixed_other)]);
    try (by intros out [=]).
  - intros out. destruct xs as [|x xs]; [by intros [= <-]|].
    rewrite prune_cons. destruct (loop (x :: xs)) as [ys|] eqn:E; [|done].
    intros [= <-]. assert (Hys : loop ys = Some ys).
    { eapply loop_fixed; [|exact E]. eapply Forall_impl; [exact IH|].
      by intros y [Hy _]. }
    destruct ys as [|y ys]; [|by rewrite prune_cons, Hys].
    cbn [loop] in E. destruct (visit x); [|done]. cbn in E.
    by destruct (loop xs).
  - intros out. cbn [visit].
    destruct (dict_get (py "items") d) as [ch|] eqn:Ech.
    2:{ intros [= <-]. cbn [visit]. by rewrite Ech. }
    destruct (truth ch) eqn:Etr; cbn [negb].
    2:{ intros [= <-]. cbn [visit]. by rewrite Ech, Etr. }
    destruct (is_namespace (dict_get (py "type") d)) eqn:Ens.
    + rewrite (under_items _ _ Ech).
      destruct (prune ch) as [ch'|] eqn:Ep; [|done]. intros [= <-].
      assert (Hch : prune ch' = Some ch').
      { rewrite Forall_forall in IH.
        apply (proj2 (IH _ (dict_get_In _ _ _ Ech))), Ep. }
      cbn [visit]. rewrite dict_get_set_eq, (prune_truth _ _ Ep), Etr.
      cbn [negb]. rewrite dict_get_set_ne, Ens by done.
      rewrite (under_items _ ch') by apply dict_get_set_eq.
      rewrite Hch. cbn. by rewrite dict_set_set.
    + destruct (in_keep _) as [[]|] eqn:Ek; cbn; [| |done].
      * intros [= <-]. cbn [visit]. by rewrite Ech, Etr, Ens, Ek.
      * intros [= <-]. cbn [visit].
        by rewrite dict_get_set_ne, dict_get_del_eq.
Qed.

(** X5.  Pruning what a run of [prune] left changes nothing: the pass has
    the same result when run again. *)
Theorem prune_idempotent (toc out : json) :
  prune toc = Some out -> prune out = Some out.
Proof. apply prune_fixed. Qed.

Lemma prune_idempotent_witness :
  ∃ out, prune namespace_toc = Some out /\ prune out = Some out.
Proof.
  eexists. split; [reflexivity|].
  by apply (prune_idempotent namespace_toc).
Defined.

(** X6.  The script run on the file it wrote writes the same file again. *)
Theorem main_idempotent (data out : json) :
  main data = Some out -> main out = Some out.
Proof.
  assert (Hp : ∀ j, prune j = Some out -> main out = Some out).
  { intros j H. pose proof (proj2 (prune_fixed j) _ H) as H'.
    destruct out as [| | | | |d]; try done.
    destruct j as [| [] | n | [|c s] | [|x xs] | [|kv d']]; try done.
    - cbn [prune] in H. by destruct (n =? 0)%Z.
    - rewrite prune_cons in H. by destruct (loop (x :: xs)).
    - by injection H as <-. }
  destruct data as [| b | n | s | xs | d]; try apply Hp.
  cbn [main]. destruct (dict_get (py "items") d) as [root|] eqn:E; [|apply Hp].
  destruct (prune root) as [root'|] eqn:Er; [|done]. intros [= <-].
  cbn [main]. rewrite dict_get_set_eq, (proj2 (prune_fixed root) _ Er). cbn.
  by rewrite dict_set_set.
Qed.

Lemma main_idempotent_witness :
  ∃ out, main (JObj [(py "items", namespace_toc)]) = Some out
         /\ main out = Some out.
Proof.
  eexists. split; [reflexivity|].
  by apply (main_idempotent (JObj [(py "items", namespace_toc)])).
Defined.

(** X7.  For a file that holds an object with the node list under [items],
    the script succeeds: what it writes is that object with the list under
    [items] pruned node by node, in the same place, every other member as
    it was. *)
Theorem main_object_with_items (d : list (str * json)) (xs : list json) :
  dict_get (py "items") d = Some (JArr xs) -> Forall toc_node xs ->
  ∃ d' ys, main (JObj d) = Some (JObj d')
    /\ dict_get (py "items") d' = Some (JArr ys)
    /\ Forall2 pruned xs ys
    /\ (fst <$> d') = (fst <$> d)
    /\ ∀ k, k ≠ py "items" -> dict_get k d' = dict_get k d.
Proof.
  intros Hd Hxs.
  destruct (proj2 (prune_total (JArr xs)) xs eq_refl Hxs) as [out H].
  destruct (proj2 (prune_pruned (JArr xs)) xs out eq_refl H) as (ys & -> & Hys).
  exists (dict_set (py "items") (JArr ys) d), ys. cbn [main]. rewrite Hd, H.
  split; [done|]. split; [apply dict_get_set_eq|]. split; [done|]. split.
  - clear -Hd. induction d as [|[k v] d IH]; [done|]. cbn [dict_get dict_set] in *.
    destruct (str_eqb k (py "items")); [done|]. cbn [fmap list_fmap]. f_equal.
    by apply IH.
  - intros k Hk. by apply dict_get_set_ne.
Qed.

Lemma main_object_with_items_witness :
  ∃ d' ys, main (JObj [(py "memberLayout", JStr (py "SamePage"));
                       (py "items", JArr [JObj nested_member])])
           = Some (JObj d')
    /\ dict_get (py "items") d' = Some (JArr ys)
    /\ Forall2 pruned [JObj nested_member] ys
    /\ (fst <$> d') = [py "memberLayout"; py "items"]
    /\ ∀ k, k ≠ py "items" ->
         dict_get k d' = dict_get k [(py "memberLayout", JStr (py "SamePage"));
                                     (py "items", JArr [JObj nested_member])].
Proof.
  apply (main_object_with_items
           [(py "memberLayout", JStr (py "SamePage"));
            (py "items", JArr [JObj nested_member])]
           [JObj nested_member]); [reflexivity|].
  constructor; [|constructor]. constructor.
  - intros u [= <-]. by eexists.
  - intros ch [= <-]. eexists. split; [reflexivity|].
    constructor; [|constructor]. constructor; by intros ? [=].
Defined.

(** X8.  A file whose top level is an object with members but none called
    [items] makes the script fail (it walks the keys of the object, which
    are strings and have no [get]); so does any item of a visited list that
    is not an object. *)
Theorem main_needs_node_list (data out : json) :
  main data = Some out ->
  match data with
  | JObj d => d = [] \/ is_Some (dict_get (py "items") d)
  | JArr xs => Forall (fun x => ∃ d, x = JObj d) xs
  | _ => truth data = false
  end.
Proof.
  destruct data as [| b | n | s | xs | d]; cbn [main]; try done.
  - by destruct b.
  - cbn [prune truth]. by destruct (n =? 0)%Z.
  - by destruct s.
  - destruct xs as [|x xs]; [by constructor|]. rewrite prune_cons.
    destruct (loop (x :: xs)) as [ys|] eqn:E; [|done]. intros _.
    revert ys E. generalize (x :: xs). intros l. induction l as [|y l IH]; [done|].
    intros ys. cbn [loop]. destruct (visit y) as [y'|] eqn:Ey; [|done]. cbn.
    destruct (loop l) as [l'|] eqn:El; [|done]. intros _. constructor; [|by eapply IH].
    destruct y; try done. by eexists.
  - destruct (dict_get (py "items") d) as [root|]; [by right; eexists|].
    destruct d; [by left|done].
Qed.

Lemma main_needs_node_list_witness :
  Forall (fun x => ∃ d, x = JObj d)
    [ JObj [ (py "name", JStr (py "CamundaClient"));
             (py "topicUid", JStr (py "Camunda.Client.CamundaClient"));
             (py "items", JArr [JObj nested_member]) ] ].
Proof. apply (main_needs_node_list client_toc client_toc). reflexivity. Defined.

End PruneMore.

(** ** Where the banner goes *)

Section BannerMore.
Import PyStr Re Generate.

Lemma search_from_here ml r prev i (s : str) (m : rmatch) :
  match_at ml r prev i s = Some m -> search_from ml r prev i s = Some m.
Proof. intros H. destruct s; cbn [search_from]; by rewrite H. Qed.

Lemma search_from_inv ml r prev i (s : str) (m : rmatch) :
  search_from ml r prev i s = Some m ->
  ∃ pre s', s = pre ++ s'
    /\ match_at ml r (last_chr prev pre) (i + length pre) s' = Some m.
Proof.
  revert prev i; induction s as [|c s IH]; intros prev i; cbn [search_from].
  - destruct (match_at ml r prev i []) eqn:E; [|done]. intros [= <-].
    exists [], []. by rewrite Nat.add_0_r.
  - destruct (match_at ml r prev i (c :: s)) eqn:E.
    + intros [= <-]. exists [], (c :: s). by rewrite Nat.add_0_r.
    + intros H. apply IH in H as (pre & s' & -> & H). exists (c :: pre), s'.
      split; [done|]. rewrite last_chr_cons. cbn [length].
      by replace (i + S (length pre)) with (S i + length pre) by lia.
Qed.

Lemma search_from_app ml r prev i (pre s' : str) :
  (∀ p1 c p2, pre = p1 ++ c :: p2 ->
     match_at ml r (last_chr prev p1) (i + length p1) (c :: p2 ++ s') = None) ->
  search_from ml r prev i (pre ++ s')
  = search_from ml r (last_chr prev pre) (i + length pre) s'.
Proof.
  revert prev i; induction pre as [|c pre IH]; intros prev i H.
  - cbn [app length]. by rewrite Nat.add_0_r.
  - pose proof (H [] c pre eq_refl) as H0. cbn [length app] in H0.
    rewrite Nat.add_0_r in H0. cbn [app search_from].
    change (last_chr prev []) with prev in H0. rewrite H0, IH.
    + rewrite last_chr_cons. cbn [length]. f_equal. lia.
    + intros p1 d p2 ->. specialize (H (c :: p1) d p2 eq_refl).
      rewrite last_chr_cons in H. cbn [length] in H.
      by replace (S i + length p1) with (i + S (length p1)) by lia.
Qed.

Lemma exec_Bol_inv ml k s e :
  exec ml Bol k s = Some e ->
  (m_prev s = None \/ m_prev s = Some LF) /\ k s = Some e.
Proof.
  cbn [exec]. unfold at_bol. destruct (m_prev s) as [c|]; [|by split; [left|]].
  destruct ml; cbn [andb]; [|done]. destruct (chr_eqb c LF) eqn:E; [|done].
  apply chr_eqb_eq in E as ->. by split; [right|].
Qed.

Lemma exec_Bol_line k prev t gs :
  prev = None \/ prev = Some LF ->
  exec true Bol k (MState prev t gs) = k (MState prev t gs).
Proof. by intros [-> | ->]. Qed.

Lemma exec_Eol_line_inv k s e :
  exec true Eol k s = Some e ->
  (m_rest s = [] \/ ∃ r, m_rest s = LF :: r) /\ k s = Some e.
Proof.
  cbn [exec]. unfold at_eol. destruct (m_rest s) as [|c t]; [by split; [left|]|].
  cbn [orb]. rewrite andb_true_r. destruct (chr_eqb c LF) eqn:E; [|done].
  apply chr_eqb_eq in E as ->. split; [right; by exists t|done].
Qed.

Lemma exec_Eol_line k prev t gs :
  t = [] \/ (∃ r, t = LF :: r) ->
  exec true Eol k (MState prev t gs) = k (MState prev t gs).
Proof. by intros [-> | [r ->]]. Qed.

(** What a match of the heading pattern says about the text at its start. *)
Lemma h1_match_inv prev i (s : str) (m : rmatch) :
  match_at true H1_RE prev i s = Some m ->
  (prev = None \/ prev = Some LF)
  /\ ∃ sep title rest,
       s = py "#" ++ sep ++ title ++ rest
       /\ sep ≠ [] /\ Forall (fun c => ws c = true) sep
       /\ title ≠ [] /\ (LF ∉ title)
       /\ (rest = [] \/ ∃ r, rest = LF :: r)
       /\ m_end m = i + (1 + length sep + length title).
Proof.
  unfold match_at. destruct (exec _ _ _ _) as [e|] eqn:E; [|done]. intros [= <-].
  unfold H1_RE in E. rewrite exec_Cat in E. apply exec_Bol_inv in E as (Hb & E).
  rewrite exec_Cat in E. apply exec_Chars_inv in E as (t1 & H1 & E).
  cbn [m_rest m_prev m_groups] in *. subst s. rewrite exec_Cat in E.
  apply exec_Plus_inv in E as (sep & t2 & H2 & Hsep & Hws & E).
  cbn [m_rest m_prev m_groups] in *. subst t1. rewrite exec_Cat in E.
  apply exec_Plus_inv in E as (title & t3 & H3 & Htitle & Hdot & E).
  cbn [m_rest m_prev m_groups] in *. subst t2.
  apply exec_Eol_line_inv in E as (Hrest & [= <-]).
  cbn [m_rest m_prev m_groups] in *.
  split; [done|]. exists sep, title, t3. repeat split; try done.
  - intros Hin. rewrite Forall_forall in Hdot. apply Hdot in Hin.
    unfold dot in Hin. by rewrite (proj2 (chr_eqb_eq LF LF) eq_refl) in Hin.
  - cbn [m_end]. rewrite !length_app. cbn [py list_ascii_of_string length]. lia.
Qed.

Lemma h1_match_app prev i (sep title rest : str) :
  prev = None \/ prev = Some LF ->
  sep ≠ [] -> Forall (fun c => ws c = true) sep ->
  (∃ c t, title = c :: t /\ ws c = false) -> (LF ∉ title) ->
  rest = [] \/ (∃ r, rest = LF :: r) ->
  match_at true H1_RE prev i (py "#" ++ sep ++ title ++ rest)
  = Some (RMatch i (i + (1 + length sep + length title)) []).
Proof.
  intros Hprev Hsep Hws (c & t & -> & Hc) Hlf Hrest. unfold match_at, H1_RE.
  rewrite exec_Cat, exec_Bol_line, exec_Cat, exec_Chars_app, exec_Cat by done.
  erewrite exec_Plus_app; [|done|done|by intros c' t' [= <- _]|].
  2:{ rewrite exec_Cat. erewrite exec_Plus_app; [reflexivity|done| | |].
      - rewrite Forall_forall. intros d Hd. unfold dot.
        apply negb_true_iff, chr_eqb_neq. by intros ->.
      - intros d t' ->. destruct Hrest as [|[r [= -> _]]]; [done|]. done.
      - by rewrite exec_Eol_line. }
  cbn [m_rest m_groups]. do 3 f_equal. rewrite !length_app.
  cbn [py list_ascii_of_string length]. lia.
Qed.

(** X9.  The banner goes in at one place at most, and only at the end of a
    line: when the page is changed, it reads [#] at a line start, white
    space, then text up to the end of a line, and the banner, after a line
    feed, is put right behind that text; nothing else of the page is
    touched. *)
Theorem banner_only_behind_heading (content : str) :
  inject_tech_preview_banner content = content
  \/ ∃ pre sep title rest,
       content = pre ++ py "#" ++ sep ++ title ++ rest
       /\ (pre = [] \/ last pre = Some LF)
       /\ sep ≠ [] /\ Forall (fun c => is_space c = true) sep
       /\ title ≠ [] /\ (LF ∉ title)
       /\ (rest = [] \/ ∃ r, rest = LF :: r)
       /\ inject_tech_preview_banner content
          = pre ++ py "#" ++ sep ++ title ++ [LF] ++ TECH_PREVIEW_BANNER ++ rest.
Proof.
  unfold inject_tech_preview_banner, re_search.
  destruct (search_from true H1_RE None 0 content) as [m|] eqn:E; [right|by left].
  apply search_from_inv in E as (pre & s' & -> & E).
  apply h1_match_inv in E
    as (Hprev & sep & title & rest & -> & Hsep & Hws & Htitle & Hlf & Hrest & Hend).
  exists pre, sep, title, rest. repeat split; try done.
  - unfold last_chr in Hprev. destruct (last pre) as [c|] eqn:El.
    + right. by destruct Hprev as [|[= ->]].
    + left. by apply last_None.
  - rewrite Hend. cbn [Nat.add].
    replace (pre ++ py "#" ++ sep ++ title ++ rest)
      with ((pre ++ py "#" ++ sep ++ title) ++ rest) by by rewrite <- !app_assoc.
    assert (Hl : length pre + S (length sep + length title)
                 = length (pre ++ py "#" ++ sep ++ title)).
    { rewrite !length_app. cbn [py list_ascii_of_string length]. lia. }
    rewrite Hl, take_app_length, drop_app_length. by rewrite <- !app_assoc.
Qed.

(** The banner behind a heading with nothing like a heading before it. *)
Lemma inject_behind_heading (pre sep title rest : str) :
  (∀ p1 p2, pre = p1 ++ py "#" ++ p2 -> ∃ c, last p1 = Some c /\ c ≠ LF) ->
  pre = [] \/ last pre = Some LF ->
  sep ≠ [] -> Forall (fun c => is_space c = true) sep ->
  (∃ c t, title = c :: t /\ is_space c = false) -> (LF ∉ title) ->
  rest = [] \/ (∃ r, rest = LF :: r) ->
  inject_tech_preview_banner (pre ++ py "#" ++ sep ++ title ++ rest)
  = pre ++ py "#" ++ sep ++ title ++ [LF] ++ TECH_PREVIEW_BANNER ++ rest.
Proof.
  intros Hpre Hlast Hsep Hws Htitle Hlf Hrest.
  unfold inject_tech_preview_banner, re_search.
  rewrite search_from_app.
  2:{ intros p1 c p2 ->.
      destruct (match_at _ _ _ _ _) as [m|] eqn:E; [|done].
      apply h1_match_inv in E as (Hprev & sp & ti & re & E & _).
      injection E as -> _. destruct (Hpre p1 p2 eq_refl) as (c & Hc & Hne).
      unfold last_chr in Hprev. rewrite Hc in Hprev.
      by destruct Hprev as [|[= ->]]. }
  erewrite search_from_here.
  2:{ apply h1_match_app; try done. unfold last_chr.
      destruct Hlast as [-> | ->]; [by left|by right]. }
  cbn [m_end Nat.add].
  replace (pre ++ py "#" ++ sep ++ title ++ rest)
    with ((pre ++ py "#" ++ sep ++ title) ++ rest) by by rewrite <- !app_assoc.
  assert (Hl : length pre + S (length sep + length title)
               = length (pre ++ py "#" ++ sep ++ title)).
  { rewrite !length_app. cbn [py list_ascii_of_string length]. lia. }
  rewrite Hl, take_app_length, drop_app_length. by rewrite <- !app_assoc.
Qed.

(** X10.  The usual page: no line before the heading starts with [#]; the
    heading is [#] at a line start, white space, and a title that starts
    with a character that is not white space and runs to the end of its
    line.  The banner then goes right behind that title. *)
Theorem banner_behind_first_heading (pre sep title rest : str) :
  (∀ p1 p2, pre = p1 ++ py "#" ++ p2 -> ∃ c, last p1 = Some c /\ c ≠ LF) ->
  pre = [] \/ last pre = Some LF ->
  sep ≠ [] -> Forall (fun c => is_space c = true) sep ->
  (∃ c t, title = c :: t /\ is_space c = false) -> (LF ∉ title) ->
  rest = [] \/ (∃ r, rest = LF :: r) ->
  inject_tech_preview_banner (pre ++ py "#" ++ sep ++ title ++ rest)
  = pre ++ py "#" ++ sep ++ title ++ [LF] ++ TECH_PREVIEW_BANNER ++ rest.
Proof. apply inject_behind_heading. Qed.

Lemma banner_behind_first_heading_witness :
  inject_tech_preview_banner
    ((py "---" ++ [LF] ++ py "title: Enums" ++ [LF] ++ py "---" ++ [LF])
     ++ py "#" ++ py " " ++ py "Enums" ++ ([LF] ++ py "text"))
  = (py "---" ++ [LF] ++ py "title: Enums" ++ [LF] ++ py "---" ++ [LF])
    ++ py "#" ++ py " " ++ py "Enums" ++ [LF] ++ TECH_PREVIEW_BANNER
    ++ ([LF] ++ py "text").
Proof.
  apply (banner_behind_first_heading
           (py "---" ++ [LF] ++ py "title: Enums" ++ [LF] ++ py "---" ++ [LF])
           (py " ") (py "Enums") ([LF] ++ py "text")).
  - intros p1 p2 H. exfalso.
    assert (Hin : "#"%char ∈ p1 ++ py "#" ++ p2).
    { apply elem_of_app. right. apply list_elem_of_here. }
    rewrite <- H in Hin. revert Hin. apply (bool_decide_unpack _).
    vm_compute. exact I.
  - right. reflexivity.
  - done.
  - repeat constructor.
  - exists "E"%char, (py "nums"). split; reflexivity.
  - apply (bool_decide_unpack _). vm_compute. exact I.
  - right. by eexists.
Defined.

End BannerMore.

(** ** Where a region and an example come from *)

Section RegionMore.
Import PyStr Re Generate ExampleSpec.

Lemma m_close_None_inv (name line : str) :
  m_close line = None -> ¬ end_marker name line.
Proof. intros H Hn. destruct (m_close_end _ _ Hn) as (m & Hm & _). congruence. Qed.

Lemma m_open_none_start (line : str) :
  m_open line = None -> ∀ n, ¬ start_marker n line.
Proof. intros H n Hn. destruct (m_open_start _ _ Hn) as (m & Hm & _). congruence. Qed.

Lemma m_close_other_end (tag line : str) (mc : rmatch) :
  m_close line = Some mc -> tag ≠ group 1 mc -> ¬ end_marker tag line.
Proof.
  intros Hc Hne Hn. destruct (m_close_end _ _ Hn) as (m & Hm & Hg). congruence.
Qed.

(** The loop of [parse_region_tags] after the lines [ls]: every region
    recorded was closed by a close marker of its name, and the lines kept
    for the open region are those since its start marker. *)
Lemma region_loop_sound (ls : list str) :
  (∀ name v, regions (region_loop region_init ls) !! name = Some v ->
     ∃ pre o body c post,
       ls = pre ++ [o] ++ body ++ [c] ++ post
       /\ start_marker name o /\ end_marker name c
       /\ (∀ l, l ∈ body -> (∀ n, ¬ start_marker n l) /\ ¬ end_marker name l)
       /\ v = Textwrap.dedent (join [LF] body))
  /\ (∀ tag, current_tag (region_loop region_init ls) = Some tag ->
        ∃ pre o,
          ls = pre ++ [o] ++ lines (region_loop region_init ls)
          /\ start_marker tag o
          /\ ∀ l, l ∈ lines (region_loop region_init ls) ->
               (∀ n, ¬ start_marker n l) /\ ¬ end_marker tag l).
Proof.
  induction ls as [|l ls [I1 I2]] using rev_ind; [by split|].
  rewrite region_loop_app. cbn [region_loop fold_left].
  fold (region_loop region_init ls).
  set (st := region_loop region_init ls) in *.
  assert (Hkeep : ∀ name v, regions st !! name = Some v ->
            ∃ pre o body c post,
              ls ++ [l] = pre ++ [o] ++ body ++ [c] ++ post
              /\ start_marker name o /\ end_marker name c
              /\ (∀ l, l ∈ body -> (∀ n, ¬ start_marker n l) /\ ¬ end_marker name l)
              /\ v = Textwrap.dedent (join [LF] body)).
  { intros name v H. destruct (I1 name v H) as (pre & o & body & c & post & -> & R).
    exists pre, o, body, c, (post ++ [l]). split; [|done]. by rewrite <- !app_assoc. }
  assert (Hbody : ∀ tag, current_tag st = Some tag ->
            (∀ n, ¬ start_marker n l) -> ¬ end_marker tag l ->
            ∃ pre o,
              ls ++ [l] = pre ++ [o] ++ lines st ++ [l]
              /\ start_marker tag o
              /\ ∀ x, x ∈ lines st ++ [l] ->
                   (∀ n, ¬ start_marker n x) /\ ¬ end_marker tag x).
  { intros tag Ht Hs He. destruct (I2 tag Ht) as (pre & o & E & Ho & Hl).
    exists pre, o. split; [|split; [done|]].
    - rewrite E at 1. by rewrite <- !app_assoc.
    - intros x Hx. apply elem_of_app in Hx as [Hx|Hx]; [by apply Hl|].
      apply list_elem_of_singleton in Hx as ->. done. }
  unfold region_step. destruct (m_open l) as [mo|] eqn:Eo.
  { split; [exact Hkeep|]. cbn [current_tag lines]. intros tag [= <-].
    exists ls, l. split; [done|]. split; [by apply m_open_inv|].
    intros x Hx. by apply elem_of_nil in Hx. }
  pose proof (m_open_none_start _ Eo) as Hs.
  destruct (m_close l) as [mc|] eqn:Ec, (current_tag st) as [tag|] eqn:Et.
  - destruct (str_eqb tag (group 1 mc)) eqn:Eq.
    + apply str_eqb_eq in Eq. split; [|by intros ? [=]].
      cbn [regions]. intros name v. destruct (decide (tag = name)) as [<-|Hne].
      * rewrite lookup_insert_eq. intros [= <-].
        destruct (I2 tag eq_refl) as (pre & o & E & Ho & Hl).
        exists pre, o, (lines st), l, []. split; [|split; [done|split; [|done]]].
        -- rewrite E at 1. by rewrite <- !app_assoc.
        -- rewrite Eq. by apply m_close_inv.
      * rewrite lookup_insert_ne by done. apply Hkeep.
    + apply str_eqb_neq in Eq. split; [exact Hkeep|]. cbn [current_tag lines].
      intros ? [= <-]. apply Hbody; [done|done|]. by eapply m_close_other_end.
  - split; [exact Hkeep|]. rewrite Et. by intros ? [=].
  - split; [exact Hkeep|]. cbn [current_tag lines].
    intros ? [= <-]. apply Hbody; [done|done|]. by apply m_close_None_inv.
  - split; [exact Hkeep|]. rewrite Et. by intros ? [=].
Qed.

(** X11.  Every region [parse_region_tags] returns was written in the file:
    a start marker of its name, then lines none of which is a start marker or
    a close marker of the name, then a close marker of the name; the text of
    the region is those lines, joined and dedented. *)
Theorem region_was_marked (text name v : str) :
  parse_region_tags text !! name = Some v ->
  ∃ pre o body c post,
    splitlines text = pre ++ [o] ++ body ++ [c] ++ post
    /\ start_marker name o /\ end_marker name c
    /\ (∀ l, l ∈ body -> (∀ n, ¬ start_marker n l) /\ ¬ end_marker name l)
    /\ v = Textwrap.dedent (join [LF] body).
Proof. apply (proj1 (region_loop_sound (splitlines text))). Qed.

Lemma region_was_marked_witness :
  ∃ pre o body c post,
    splitlines Samples.sample_example_file = pre ++ [o] ++ body ++ [c] ++ post
    /\ start_marker (py "Sample") o /\ end_marker (py "Sample") c
    /\ (∀ l, l ∈ body ->
          (∀ n, ¬ start_marker n l) /\ ¬ end_marker (py "Sample") l)
    /\ py "var x = 1;" ++ [LF] ++ py "  var y = 2;"
       = Textwrap.dedent (join [LF] body).
Proof.
  apply (region_was_marked Samples.sample_example_file (py "Sample")).
  reflexivity.
Defined.

(** The section loop of [load_overwrite_examples] after the sections [secs]
    of one file. *)
Lemma sections_sound (all_regions acc : gmap str str) (secs : list str) :
  (∀ u v,
     uid_to_example
       (fold_left (section_step all_regions) secs (OverwriteState acc None)) !! u
     = Some v ->
     acc !! u = Some v
     \/ ∃ pre decl mid ref rest region,
          secs = pre ++ [decl] ++ mid ++ [ref] ++ rest
          /\ declares_uid decl u /\ u ≠ []
          /\ (∀ s, s ∈ mid -> inert s)
          /\ references ref region
          /\ all_regions !! region = Some v)
  /\ (∀ uid,
        current_uid
          (fold_left (section_step all_regions) secs (OverwriteState acc None))
        = Some uid ->
        uid ≠ [] ->
        ∃ pre decl mid,
          secs = pre ++ [decl] ++ mid
          /\ declares_uid decl uid /\ ∀ s, s ∈ mid -> inert s).
Proof.
  induction secs as [|sec secs [I1 I2]] using rev_ind.
  { split; [by left|by intros ? [=]]. }
  rewrite fold_left_app. cbn [fold_left].
  set (st := fold_left (section_step all_regions) secs (OverwriteState acc None)) in *.
  assert (Hkeep : ∀ u v, uid_to_example st !! u = Some v ->
            acc !! u = Some v
            \/ ∃ pre decl mid ref rest region,
                 secs ++ [sec] = pre ++ [decl] ++ mid ++ [ref] ++ rest
                 /\ declares_uid decl u /\ u ≠ []
                 /\ (∀ s, s ∈ mid -> inert s)
                 /\ references ref region
                 /\ all_regions !! region = Some v).
  { intros u v H.
    destruct (I1 u v H) as [?|(pre & decl & mid & ref & rest & region & -> & R)];
      [by left|right].
    exists pre, decl, mid, ref, (rest ++ [sec]), region. split; [|done].
    by rewrite <- !app_assoc. }
  assert (Hinert : inert sec -> ∀ uid, current_uid st = Some uid -> uid ≠ [] ->
            ∃ pre decl mid,
              secs ++ [sec] = pre ++ [decl] ++ mid
              /\ declares_uid decl uid /\ ∀ s, s ∈ mid -> inert s).
  { intros Hi uid Hu Hne. destruct (I2 uid Hu Hne) as (pre & decl & mid & -> & Hd & Hm).
    exists pre, decl, (mid ++ [sec]). split; [by rewrite <- !app_assoc|].
    split; [done|]. intros s Hs. apply elem_of_app in Hs as [Hs|Hs]; [by apply Hm|].
    by apply list_elem_of_singleton in Hs as ->. }
  unfold section_step. destruct (strip sec) as [|c t] eqn:Es.
  { split; [exact Hkeep|]. apply Hinert. by left. }
  destruct (re_search true UID_RE (c :: t)) as [um|] eqn:Eu.
  { split; [exact Hkeep|]. cbn [current_uid]. intros uid [= <-] Hne.
    exists secs, sec, []. split; [done|]. split.
    - exists um. by rewrite Es.
    - intros s Hs. by apply elem_of_nil in Hs. }
  destruct (re_search false CODE_REF_RE (c :: t)) as [cm|] eqn:Ec.
  2:{ assert (Hi : inert sec) by (right; by rewrite Es).
      destruct (current_uid st); (split; [exact Hkeep|by apply Hinert]). }
  destruct (current_uid st) as [uid|] eqn:Ecur.
  2:{ split; [exact Hkeep|]. rewrite Ecur. by intros ? [=]. }
  destruct uid as [|a uid]; cbn [truthy].
  { split; [exact Hkeep|]. rewrite Ecur. by intros ? [= <-]. }
  destruct (all_regions !! group 2 cm) as [ex|] eqn:Er.
  2:{ split; [exact Hkeep|]. by intros ? [=]. }
  split; [|by intros ? [=]]. cbn [uid_to_example]. intros u v.
  destruct (decide (a :: uid = u)) as [<-|Hne].
  - rewrite lookup_insert_eq. intros [= <-]. right.
    destruct (I2 (a :: uid) eq_refl) as (pre & decl & mid & -> & Hd & Hm); [done|].
    exists pre, decl, mid, sec, [], (group 2 cm).
    split; [by rewrite <- !app_assoc|]. split; [done|]. split; [done|].
    split; [done|]. split; [|done]. unfold references. rewrite Es.
    split; [done|]. split; [done|]. by exists cm.
  - rewrite lookup_insert_ne by done. apply Hkeep.
Qed.

(** X12.  Every entry of the table [load_overwrite_examples] returns was
    written in an overwrite file: a section of the file declares its
    unique-id, the sections that follow are empty or hold neither a
    declaration nor a code reference, and the next one holds a code
    reference to a region of an example file, whose text is the entry. *)
Theorem example_was_referenced (overwrite_files examples_files : list str)
    (u v : str) :
  load_overwrite_examples overwrite_files examples_files !! u = Some v ->
  ∃ text cs pre decl mid ref rest region,
    text ∈ overwrite_files /\ cs ∈ examples_files
    /\ re_split true HR_RE text = pre ++ [decl] ++ mid ++ [ref] ++ rest
    /\ declares_uid decl u /\ u ≠ []
    /\ (∀ s, s ∈ mid -> inert s)
    /\ references ref region
    /\ parse_region_tags cs !! region = Some v.
Proof.
  unfold load_overwrite_examples.
  set (all_regions := fold_left _ examples_files ∅).
  assert (H : ∀ files acc,
            fold_left (overwrite_file all_regions) files acc !! u = Some v ->
            acc !! u = Some v
            \/ ∃ text pre decl mid ref rest region,
                 text ∈ files
                 /\ re_split true HR_RE text = pre ++ [decl] ++ mid ++ [ref] ++ rest
                 /\ declares_uid decl u /\ u ≠ []
                 /\ (∀ s, s ∈ mid -> inert s)
                 /\ references ref region
                 /\ all_regions !! region = Some v).
  { induction files as [|text files IH]; intros acc H; [by left|].
    cbn [fold_left] in H. apply IH in H
      as [H|(text' & pre & decl & mid & ref & rest & region & Hin & R)].
    - apply (proj1 (sections_sound all_regions acc _)) in H
        as [H|(pre & decl & mid & ref & rest & region & R)]; [by left|right].
      exists text, pre, decl, mid, ref, rest, region.
      split; [apply list_elem_of_here|done].
    - right. exists text', pre, decl, mid, ref, rest, region.
      split; [by apply list_elem_of_further|done]. }
  intros Hl. apply H in Hl
    as [Hl|(text & pre & decl & mid & ref & rest & region & Hin & Hs & Hd & Hne
            & Hm & Hr & Hv)]; [done|].
  apply all_regions_source in Hv as [Hv|(cs & Hcs & Hv)]; [done|].
  by exists text, cs, pre, decl, mid, ref, rest, region.
Qed.

Lemma example_was_referenced_witness :
  ∃ text cs pre decl mid ref rest region,
    text ∈ [py "---" ++ [LF] ++ py "uid: M:Foo.Bar" ++ [LF] ++ py "---" ++ [LF]
            ++ py "[!code-csharp[](../examples/Foo.cs#Sample)]"]
    /\ cs ∈ [Samples.sample_example_file]
    /\ re_split true HR_RE text = pre ++ [decl] ++ mid ++ [ref] ++ rest
    /\ declares_uid decl (py "M:Foo.Bar") /\ py "M:Foo.Bar" ≠ []
    /\ (∀ s, s ∈ mid -> inert s)
    /\ references ref region
    /\ parse_region_tags cs !! region
       = Some (py "var x = 1;" ++ [LF] ++ py "  var y = 2;").
Proof.
  apply (example_was_referenced
           [py "---" ++ [LF] ++ py "uid: M:Foo.Bar" ++ [LF] ++ py "---" ++ [LF]
            ++ py "[!code-csharp[](../examples/Foo.cs#Sample)]"]
           [Samples.sample_example_file] (py "M:Foo.Bar")).
  by vm_compute.
Defined.

End RegionMore.

(** ** Front matter and tables *)

Section MarkdownFacts.
Import PyStr Re Generate Pages.

(** Replacing a one-character string, character by character. *)
Lemma replace_chr_cons (x c : ascii) (new s : str) :
  replace (c :: s) [x] new
  = (if chr_eqb x c then new else [c]) ++ replace s [x] new.
Proof.
  unfold replace. cbn [replace_from length Nat.sub]. unfold startswith.
  cbn [strip_prefix]. by destruct (chr_eqb x c).
Qed.

Lemma escape_yaml_cons (c : ascii) (s : str) :
  _escape_yaml (c :: s)
  = (if chr_eqb QUOTE c then [BACKSLASH; QUOTE] else [c]) ++ _escape_yaml s.
Proof. apply replace_chr_cons. Qed.

Lemma escape_yaml_head (s t : str) : _escape_yaml s ≠ QUOTE :: t.
Proof.
  destruct s as [|c s]; [done|]. rewrite escape_yaml_cons.
  destruct (chr_eqb QUOTE c) eqn:E; [done|]. apply chr_eqb_neq in E.
  cbn [app]. congruence.
Qed.

Lemma escape_yaml_quote (s a b : str) :
  _escape_yaml s = a ++ QUOTE :: b -> ∃ a', a = a' ++ [BACKSLASH].
Proof.
  revert a; induction s as [|c s IH]; intros a.
  { by destruct a. }
  rewrite escape_yaml_cons. destruct (chr_eqb QUOTE c) eqn:E; cbn [app].
  - destruct a as [|x [|y a]]; [done|..].
    + intros H. injection H as <-. by exists [].
    + intros H. injection H as <- <- H. destruct (IH _ H) as [a' ->].
      by exists (BACKSLASH :: QUOTE :: a').
  - apply chr_eqb_neq in E. destruct a as [|x a]; [intros [= Hc _]; by destruct E|].
    intros [= <- H]. destruct (IH _ H) as [a' ->]. by exists (c :: a').
Qed.

Lemma unescape_yaml (s : str) :
  replace (_escape_yaml s) [BACKSLASH; QUOTE] [QUOTE] = s.
Proof.
  induction s as [|c s IH]; [done|]. rewrite escape_yaml_cons.
  destruct (chr_eqb QUOTE c) eqn:E; cbn [app].
  - apply chr_eqb_eq in E as <-. unfold replace in *.
    destruct (_escape_yaml s) as [|d t] eqn:Es.
    + destruct s; [done|]. rewrite escape_yaml_cons in Es.
      by destruct (chr_eqb QUOTE a).
    + cbn. cbn in IH. by rewrite IH.
  - unfold replace in *. cbn [replace_from].
    assert (Hs : startswith (c :: _escape_yaml s) [BACKSLASH; QUOTE] = false).
    { destruct (startswith _ _) eqn:Hs; [|done].
      apply startswith_true in Hs as [t Ht]. injection Ht as -> Ht.
      by apply escape_yaml_head in Ht. }
    by rewrite Hs, IH.
Qed.

(** X13.  In an escaped title every double quote stands right behind a
    backslash, so none of them ends the quoted YAML value early; and the
    escaping loses nothing: putting a quote back for every backslash-quote
    pair gives the title again. *)
Theorem escape_yaml_quotes_escaped (s : str) :
  (∀ a b, _escape_yaml s = a ++ QUOTE :: b -> ∃ a', a = a' ++ [BACKSLASH])
  /\ replace (_escape_yaml s) [BACKSLASH; QUOTE] [QUOTE] = s.
Proof. split; [apply escape_yaml_quote|apply unescape_yaml]. Qed.

Lemma escape_yaml_quotes_escaped_witness :
  ∃ a', py "say " ++ [BACKSLASH] = a' ++ [BACKSLASH].
Proof.
  apply (proj1 (escape_yaml_quotes_escaped (py "say " ++ [QUOTE] ++ py "hi"))
           (py "say " ++ [BACKSLASH]) (py "hi")).
  reflexivity.
Defined.

(** Counting line feeds. *)
Lemma one_line_no_LF (s : str) : count_occ ascii_dec (one_line s) LF = 0.
Proof.
  induction s as [|c s IH]; [done|]. unfold one_line in *.
  rewrite replace_chr_cons, count_occ_app, IH.
  destruct (chr_eqb LF c) eqn:E; [done|]. apply chr_eqb_neq in E.
  cbn [count_occ]. by destruct (ascii_dec c LF) as [->|].
Qed.

Lemma count_LF_none (s : str) : (LF ∉ s) -> count_occ ascii_dec s LF = 0.
Proof.
  intros H. apply count_occ_not_In. intros Hin. apply H.
  by apply list_elem_of_In.
Qed.

Lemma join_count_LF (ls : list str) :
  Forall (fun l => count_occ ascii_dec l LF = 0) ls ->
  count_occ ascii_dec (join [LF] ls) LF = length ls - 1.
Proof.
  induction 1 as [|l ls Hl Hls IH]; [done|].
  destruct ls as [|l' ls]; [done|].
  change (join [LF] (l :: l' :: ls)) with (l ++ [LF] ++ join [LF] (l' :: ls)).
  rewrite !count_occ_app, Hl, IH. cbn [count_occ length].
  destruct (ascii_dec LF LF); [lia|done].
Qed.

Lemma fold_append {A} (f : A -> str) (l : list A) (init : list str) :
  fold_left (fun lines p => lines ++ [f p]) l init = init ++ map f l.
Proof.
  revert init; induction l as [|x l IH]; intros init; cbn [fold_left map].
  - by rewrite app_nil_r.
  - by rewrite IH, <- app_assoc.
Qed.

Lemma table_count_LF {A} (f : A -> str) (h1 h2 : str) (l : list A) :
  count_occ ascii_dec h1 LF = 0 -> count_occ ascii_dec h2 LF = 0 ->
  Forall (fun x => count_occ ascii_dec (f x) LF = 0) l ->
  count_occ ascii_dec
    (join [LF] (fold_left (fun lines p => lines ++ [f p]) l [h1; h2]) ++ [LF]) LF
  = length l + 2.
Proof.
  intros H1 H2 Hl. rewrite fold_append, count_occ_app, join_count_LF.
  - cbn [app length count_occ]. rewrite length_map.
    destruct (ascii_dec LF LF); [lia|done].
  - cbn [app]. do 2 (constructor; [done|]). by apply Forall_map.
Qed.

(** X14.  Each table has one line for every item it lists and two lines of
    heading, however many lines a summary or a description has: their line
    feeds are turned into spaces.  (A name or a type has none.)  With no
    item to list there is no table. *)
Theorem tables_one_line_per_row :
  (∀ members : list MemberItem,
     Forall (fun m => (LF ∉ mi_name m) /\ (LF ∉ mi_return_type m)) members ->
     let props := List.filter (has_kind "Property") members in
     (props = [] -> _md_properties_table members = [])
     /\ (props ≠ [] ->
         count_occ ascii_dec (_md_properties_table members) LF
         = length props + 2))
  /\ (∀ t : TypeItem,
        Forall (fun m => LF ∉ mi_name m) (members t) ->
        let fields := List.filter (has_kind "Field") (members t) in
        (fields = [] -> _md_enum_values t = [])
        /\ (fields ≠ [] ->
            count_occ ascii_dec (_md_enum_values t) LF = length fields + 2))
  /\ (∀ params : list (str * str * str),
        Forall (fun p => (LF ∉ p.1.1) /\ (LF ∉ p.1.2)) params ->
        (params = [] -> _md_params_table params = [])
        /\ (params ≠ [] ->
            count_occ ascii_dec (_md_params_table params) LF
            = length params + 2)).
Proof.
  split; [|split].
  - intros members Hm props. unfold _md_properties_table. fold props.
    assert (Hp : Forall (fun m => (LF ∉ mi_name m) /\ (LF ∉ mi_return_type m)) props).
    { rewrite Forall_forall in *. intros m Hin. apply Hm.
      apply list_elem_of_In. apply list_elem_of_In in Hin.
      by apply filter_In in Hin as [? _]. }
    split; [by intros ->|]. intros Hne.
    destruct props as [|p props'] eqn:E; [done|]. rewrite <- E in *.
    apply table_count_LF; [done|done|].
    eapply Forall_impl; [exact Hp|]. intros m [Hn Ht]. unfold property_row.
    rewrite !count_occ_app, one_line_no_LF, (count_LF_none _ Hn), (count_LF_none _ Ht).
    reflexivity.
  - intros t Hm fields. unfold _md_enum_values. fold fields.
    assert (Hp : Forall (fun m => LF ∉ mi_name m) fields).
    { rewrite Forall_forall in *. intros m Hin. apply Hm.
      apply list_elem_of_In. apply list_elem_of_In in Hin.
      by apply filter_In in Hin as [? _]. }
    split; [by intros ->|]. intros Hne.
    destruct fields as [|p fields'] eqn:E; [done|]. rewrite <- E in *.
    apply table_count_LF; [done|done|].
    eapply Forall_impl; [exact Hp|]. intros m Hn. unfold value_row.
    rewrite !count_occ_app, one_line_no_LF, (count_LF_none _ Hn). reflexivity.
  - intros params Hp. unfold _md_params_table.
    split; [by intros ->|]. intros Hne.
    destruct params as [|p params'] eqn:E; [done|]. rewrite <- E in *.
    apply table_count_LF; [done|done|].
    eapply Forall_impl; [exact Hp|]. intros [[n ty] d] [Hn Ht]. unfold params_row.
    cbn [fst snd] in Hn, Ht.
    rewrite !count_occ_app, one_line_no_LF, (count_LF_none _ Hn), (count_LF_none _ Ht).
    reflexivity.
Qed.

Lemma tables_one_line_per_row_witness :
  count_occ ascii_dec
    (_md_params_table
       [ (py "request", py "ActivateJobsRequest",
          py "The request." ++ [LF] ++ py "See the guide.");
         (py "ct", py "CancellationToken", []) ]) LF
  = 2 + 2.
Proof.
  refine (proj2 (proj2 (proj2 tables_one_line_per_row)
            [ (py "request", py "ActivateJobsRequest",
               py "The request." ++ [LF] ++ py "See the guide.");
              (py "ct", py "CancellationToken", []) ] _) _).
  - repeat constructor; apply (bool_decide_unpack _); vm_compute; exact I.
  - discriminate.
Defined.

End MarkdownFacts.

(** ** Runs of empty lines on the landing page *)

Section EmptyLinesFacts.
Import PyStr Re Generate Pages.

Lemma lf_run_split (s : str) :
  ∃ j t, s = replicate j LF ++ t /\ ∀ t', t ≠ LF :: t'.
Proof.
  induction s as [|c s (j & t & -> & Ht)]; [by exists 0, []|].
  destruct (decide (c = LF)) as [->|Hc].
  - by exists (S j), t.
  - exists 0, (c :: replicate j LF ++ t). split; [done|]. by intros t' [= ?].
Qed.

Lemma lf_run_longer (m k : nat) (c : ascii) (u b : str) :
  c ≠ LF -> m < k -> replicate m LF ++ c :: u ≠ replicate k LF ++ b.
Proof.
  intros Hc. revert k; induction m as [|m IH]; intros [|k] Hlt; try lia.
  - by intros [= ?].
  - cbn [replicate app]. intros [= H]. apply (IH k); [lia|done].
Qed.

Lemma lf_run_longer_nil (m k : nat) (b : str) :
  m < k -> replicate m LF ≠ replicate k LF ++ b.
Proof.
  revert k; induction m as [|m IH]; intros [|k] Hlt; try lia; [done|].
  cbn [replicate app]. intros [= H]. apply (IH k); [lia|done].
Qed.

Lemma empty_lines_match_long prev i (j : nat) (t : str) :
  (∀ t', t ≠ LF :: t') ->
  match_at false EMPTY_LINES_RE prev i (replicate (4 + j) LF ++ t)
  = Some (RMatch i (i + (4 + j)) []).
Proof.
  intros Ht. unfold match_at, EMPTY_LINES_RE.
  change (replicate (4 + j) LF ++ t) with ([LF; LF; LF; LF] ++ replicate j LF ++ t).
  rewrite exec_Cat, exec_Chars_app, exec_Star. cbn [m_prev m_rest m_groups].
  erewrite star_greedy_app; [| | |reflexivity].
  - cbn [m_rest m_groups]. do 3 f_equal. cbn [app length].
    rewrite length_app, length_replicate. lia.
  - apply Forall_replicate. apply chr_eqb_refl.
  - intros c t' ->. apply chr_eqb_neq. intros <-. by apply (Ht t').
Qed.

Lemma empty_lines_match_short prev i (j : nat) (t : str) :
  j < 4 -> (∀ t', t ≠ LF :: t') ->
  match_at false EMPTY_LINES_RE prev i (replicate j LF ++ t) = None.
Proof.
  intros Hj Ht. unfold match_at, EMPTY_LINES_RE.
  rewrite exec_Cat, exec_Chars_None; [done|]. cbn [m_rest].
  intros [t0 H]. destruct t as [|c u].
  - rewrite app_nil_r in H. by apply (lf_run_longer_nil j 4 t0).
  - apply (lf_run_longer j 4 c u t0); [|done|done].
    intros ->. by apply (Ht u).
Qed.

Lemma clean_long prev i (j : nat) (t : str) :
  (∀ t', t ≠ LF :: t') ->
  sub_from false EMPTY_LINES_RE (fun _ => [LF; LF; LF]) prev i 0
    (replicate (4 + j) LF ++ t)
  = [LF; LF; LF]
    ++ sub_from false EMPTY_LINES_RE (fun _ => [LF; LF; LF])
         (last_chr prev (replicate (4 + j) LF)) (i + (4 + j)) 0 t.
Proof.
  intros Ht. erewrite sub_from_match; [|done|by apply empty_lines_match_long|].
  - by rewrite length_replicate.
  - cbn [m_end m_start]. rewrite length_replicate. lia.
Qed.

Lemma clean_short prev i (j : nat) (t : str) :
  j < 4 -> (∀ t', t ≠ LF :: t') ->
  sub_from false EMPTY_LINES_RE (fun _ => [LF; LF; LF]) prev i 0
    (replicate j LF ++ t)
  = replicate j LF
    ++ sub_from false EMPTY_LINES_RE (fun _ => [LF; LF; LF])
         (last_chr prev (replicate j LF)) (i + j) 0 t.
Proof.
  intros Hj Ht. revert prev i; induction j as [|j IH]; intros prev i.
  - cbn [replicate app]. by rewrite Nat.add_0_r.
  - cbn [replicate app]. rewrite sub_from_nomatch.
    + rewrite IH by lia. rewrite last_chr_cons. do 3 f_equal. lia.
    + by apply (empty_lines_match_short prev i (S j) t).
Qed.

Lemma clean_other prev i (c : ascii) (t : str) :
  c ≠ LF ->
  sub_from false EMPTY_LINES_RE (fun _ => [LF; LF; LF]) prev i 0 (c :: t)
  = c :: sub_from false EMPTY_LINES_RE (fun _ => [LF; LF; LF]) (Some c) (S i) 0 t.
Proof.
  intros Hc. apply sub_from_nomatch.
  apply (empty_lines_match_short prev i 0 (c :: t)); [lia|].
  by intros t' [= ?].
Qed.

Lemma clean_nil prev i :
  sub_from false EMPTY_LINES_RE (fun _ => [LF; LF; LF]) prev i 0 [] = [].
Proof.
  cbn [sub_from].
  pose proof (empty_lines_match_short prev i 0 [] ltac:(lia) ltac:(done)) as H.
  cbn [replicate app] in H. by rewrite H.
Qed.

(** Behind at most three line feeds and another character, four line feeds
    in a row can only stand in the rest. *)
Lemma no_four_block (m : nat) (c : ascii) (u : str) :
  m < 4 -> c ≠ LF ->
  (∀ a b, u ≠ a ++ [LF; LF; LF; LF] ++ b) ->
  ∀ a b, replicate m LF ++ c :: u ≠ a ++ [LF; LF; LF; LF] ++ b.
Proof.
  intros Hm Hc Hu. induction m as [|m IH]; intros a b.
  - destruct a as [|x a]; cbn [replicate app].
    + intros [= ?]. done.
    + intros [= _ H]. by apply (Hu a b).
  - destruct a as [|x a]; cbn [replicate app].
    + intros [= H]. apply (lf_run_longer m 3 c u b); [done|lia|done].
    + intros [= _ H]. apply (IH ltac:(lia) a b H).
Qed.

Lemma no_four_run (m : nat) :
  m < 4 -> ∀ a b, replicate m LF ≠ a ++ [LF; LF; LF; LF] ++ b.
Proof.
  intros Hm a b H. apply (f_equal length) in H.
  rewrite length_replicate, !length_app in H. cbn [length] in H. lia.
Qed.

Lemma clean_no_four (n : nat) :
  ∀ (s : str) prev i, length s <= n ->
    ∀ a b,
      sub_from false EMPTY_LINES_RE (fun _ => [LF; LF; LF]) prev i 0 s
      ≠ a ++ [LF; LF; LF; LF] ++ b.
Proof.
  induction n as [|n IH]; intros s prev i Hlen.
  { destruct s; [|cbn [length] in Hlen; lia]. rewrite clean_nil.
    intros a b H. by destruct a. }
  destruct (lf_run_split s) as (j & t & -> & Ht).
  rewrite length_app, length_replicate in Hlen.
  assert (Hblock : ∀ m prev' i', m < 4 -> ∀ a b,
            replicate m LF
            ++ sub_from false EMPTY_LINES_RE (fun _ => [LF; LF; LF]) prev' i' 0 t
            ≠ a ++ [LF; LF; LF; LF] ++ b).
  { intros m prev' i' Hm. destruct t as [|c u].
    - rewrite clean_nil, app_nil_r. by apply no_four_run.
    - assert (Hc : c ≠ LF) by (intros ->; by apply (Ht u)).
      rewrite clean_other by done. apply no_four_block; [done|done|].
      apply IH. cbn [length] in Hlen. lia. }
  destruct (decide (j < 4)) as [Hj|Hj].
  - rewrite clean_short by done. by apply Hblock.
  - replace j with (4 + (j - 4)) by lia. rewrite clean_long by done.
    apply (Hblock 3). lia.
Qed.

Lemma clean_fixed (n : nat) :
  ∀ (s : str) prev i, length s <= n ->
    (∀ a b, s ≠ a ++ [LF; LF; LF; LF] ++ b) ->
    sub_from false EMPTY_LINES_RE (fun _ => [LF; LF; LF]) prev i 0 s = s.
Proof.
  induction n as [|n IH]; intros s prev i Hlen Hs.
  { destruct s; [|cbn [length] in Hlen; lia]. apply clean_nil. }
  destruct (lf_run_split s) as (j & t & -> & Ht).
  rewrite length_app, length_replicate in Hlen.
  assert (Hj : j < 4).
  { destruct (decide (j < 4)) as [|Hj]; [done|].
    destruct (Hs [] (replicate (j - 4) LF ++ t)).
    replace j with (4 + (j - 4)) at 1 by lia. done. }
  rewrite clean_short by done. f_equal. destruct t as [|c u]; [apply clean_nil|].
  assert (Hc : c ≠ LF) by (intros ->; by apply (Ht u)).
  rewrite clean_other by done. f_equal. apply IH.
  - cbn [length] in Hlen. lia.
  - intros a b ->. apply (Hs (replicate j LF ++ c :: a) b).
    by rewrite <- app_assoc.
Qed.

(** X15.  After the clean-up no four line feeds stand in a row (at most two
    empty lines are left between two lines of text), and cleaning a second
    time changes nothing. *)
Theorem clean_empty_lines_bound (content : str) :
  (∀ a b, _clean_empty_lines content ≠ a ++ [LF; LF; LF; LF] ++ b)
  /\ _clean_empty_lines (_clean_empty_lines content) = _clean_empty_lines content.
Proof.
  split.
  - by apply (clean_no_four (length content)).
  - apply (clean_fixed (length (_clean_empty_lines content))); [done|].
    by apply (clean_no_four (length content)).
Qed.

(** X16.  A text in which no four line feeds stand in a row is left as it
    is. *)
Theorem clean_empty_lines_keeps (content : str) :
  (∀ a b, content ≠ a ++ [LF; LF; LF; LF] ++ b) ->
  _clean_empty_lines content = content.
Proof. by apply (clean_fixed (length content)). Qed.

Lemma clean_empty_lines_keeps_witness :
  _clean_empty_lines (py "a" ++ [LF; LF; LF] ++ py "b")
  = py "a" ++ [LF; LF; LF] ++ py "b".
Proof.
  apply (clean_empty_lines_keeps (py "a" ++ [LF; LF; LF] ++ py "b")).
  intros a b H.
  assert (Hc : contains [LF; LF; LF; LF] (py "a" ++ [LF; LF; LF] ++ py "b") = true).
  { apply contains_true. by exists a, b. }
  by vm_compute in Hc.
Defined.

End EmptyLinesFacts.

(** ** Matching away from the line anchors *)

Section ShiftFacts.
Import PyStr Re ReSpec.

Lemma same_result_orelse (a1 b1 a2 b2 : option mstate) :
  same_result a1 a2 -> same_result b1 b2 ->
  same_result (orelse a1 b1) (orelse a2 b2).
Proof. by destruct a1, a2. Qed.

Lemma star_greedy_shift (p : ascii -> bool) k1 k2 gs (s : str) :
  (∀ a b, same_ahead a b -> same_result (k1 a) (k2 b)) ->
  ∀ prev1 prev2,
    same_result (star_greedy p k1 prev1 gs s) (star_greedy p k2 prev2 gs s).
Proof.
  intros Hk. induction s as [|c s IH]; intros prev1 prev2; cbn [star_greedy].
  - by apply Hk.
  - destruct (p c); [|by apply Hk].
    apply same_result_orelse; [apply IH|by apply Hk].
Qed.

Lemma star_lazy_shift (p : ascii -> bool) k1 k2 gs (s : str) :
  (∀ a b, same_ahead a b -> same_result (k1 a) (k2 b)) ->
  ∀ prev1 prev2,
    same_result (star_lazy p k1 prev1 gs s) (star_lazy p k2 prev2 gs s).
Proof.
  intros Hk. induction s as [|c s IH]; intros prev1 prev2; cbn [star_lazy].
  - apply same_result_orelse; [by apply Hk|done].
  - apply same_result_orelse; [by apply Hk|]. destruct (p c); [apply IH|done].
Qed.

(** A pattern without anchors gives the same result wherever the text it
    reads stands. *)
Lemma exec_shift ml (r : regex) :
  anchor_free r = true ->
  ∀ k1 k2 s1 s2,
    (∀ a b, same_ahead a b -> same_result (k1 a) (k2 b)) ->
    same_ahead s1 s2 ->
    same_result (exec ml r k1 s1) (exec ml r k2 s2).
Proof.
  induction r as [cs|p|p|p|p|r IH|r IH|r1 IH1 r2 IH2| |];
    intros Hr k1 k2 s1 s2 Hk [Hrest Hgs]; cbn [exec]; try done.
  - rewrite Hrest, Hgs. destruct (strip_prefix cs (m_rest s2)); [|done].
    by apply Hk.
  - rewrite Hrest, Hgs. destruct (m_rest s2) as [|c t]; [done|].
    destruct (p c); [|done]. by apply Hk.
  - rewrite Hrest, Hgs. by apply star_greedy_shift.
  - rewrite Hrest, Hgs. destruct (m_rest s2) as [|c t]; [done|].
    destruct (p c); [|done]. by apply star_greedy_shift.
  - rewrite Hrest, Hgs. by apply star_lazy_shift.
  - apply same_result_orelse; [by apply IH|by apply Hk].
  - apply IH; [done| |done]. intros a b [Ha Hb]. apply Hk.
    split; cbn [m_rest m_groups]; [done|]. by rewrite Ha, Hb, Hrest.
  - cbn [anchor_free] in Hr. apply andb_true_iff in Hr as [Hr1 Hr2].
    apply IH1; [done| |done]. intros a b Hab. by apply IH2.
Qed.

Lemma match_at_shift ml (r : regex) prev i prev' i' (s : str) :
  anchor_free r = true ->
  match match_at ml r prev i s, match_at ml r prev' i' s with
  | Some m, Some m' =>
      groups m = groups m' /\ m_start m = i /\ m_start m' = i'
      /\ m_end m - m_start m = m_end m' - m_start m'
  | None, None => True
  | _, _ => False
  end.
Proof.
  intros Hr. unfold match_at.
  pose proof (exec_shift ml r Hr Some Some (MState prev s []) (MState prev' s [])) as H.
  destruct (exec ml r Some (MState prev s [])) as [e|],
           (exec ml r Some (MState prev' s [])) as [e'|];
    cbn [same_result] in H.
  - destruct H as [H1 H2]; [by intros a b|done|]. cbn [groups m_start m_end].
    rewrite H1. repeat split; [done|]. lia.
  - apply H; [by intros a b|done].
  - apply H; [by intros a b|done].
  - done.
Qed.

Lemma match_at_shift_None ml (r : regex) prev i prev' i' (s : str) :
  anchor_free r = true ->
  match_at ml r prev i s = None -> match_at ml r prev' i' s = None.
Proof.
  intros Hr H. pose proof (match_at_shift ml r prev i prev' i' s Hr) as Hs.
  rewrite H in Hs. by destruct (match_at ml r prev' i' s).
Qed.

(** Substituting with a pattern without anchors, by a function of the
    groups: the result does not depend on where the text stands. *)
Lemma sub_from_shift ml (r : regex) (f : rmatch -> str) :
  anchor_free r = true ->
  (∀ m m', groups m = groups m' -> f m = f m') ->
  ∀ (s : str) prev i prev' i' skip,
    sub_from ml r f prev i skip s = sub_from ml r f prev' i' skip s.
Proof.
  intros Hr Hf. induction s as [|c s IH]; intros prev i prev' i' skip.
  - destruct skip; [|done]. cbn [sub_from].
    pose proof (match_at_shift ml r prev i prev' i' [] Hr) as H.
    destruct (match_at ml r prev i []) as [m|],
             (match_at ml r prev' i' []) as [m'|]; try done.
    destruct H as (Hg & _). by rewrite (Hf _ _ Hg).
  - destruct skip as [|n]; [|apply IH]. cbn [sub_from].
    pose proof (match_at_shift ml r prev i prev' i' (c :: s) Hr) as H.
    destruct (match_at ml r prev i (c :: s)) as [m|],
             (match_at ml r prev' i' (c :: s)) as [m'|]; try done.
    + destruct H as (Hg & _ & _ & Hlen). rewrite (Hf _ _ Hg), Hlen.
      f_equal. destruct (m_end m' - m_start m'); [f_equal|]; apply IH.
    + f_equal. apply IH.
Qed.

(** Passing over a stretch of text in which no match starts. *)
Lemma sub_from_app_nomatch ml (r : regex) (f : rmatch -> str) prev i (pre s' : str) :
  (∀ p1 c p2, pre = p1 ++ c :: p2 ->
     match_at ml r (last_chr prev p1) (i + length p1) (c :: p2 ++ s') = None) ->
  sub_from ml r f prev i 0 (pre ++ s')
  = pre ++ sub_from ml r f (last_chr prev pre) (i + length pre) 0 s'.
Proof.
  revert prev i; induction pre as [|c pre IH]; intros prev i H.
  - cbn [app length]. by rewrite Nat.add_0_r.
  - pose proof (H [] c pre eq_refl) as H0. cbn [length app] in H0.
    rewrite Nat.add_0_r in H0. change (last_chr prev []) with prev in H0.
    rewrite <- app_comm_cons, sub_from_nomatch by done. rewrite IH.
    + rewrite last_chr_cons. cbn [length app]. do 3 f_equal. lia.
    + intros p1 d p2 ->. specialize (H (c :: p1) d p2 eq_refl).
      rewrite last_chr_cons in H. cbn [length] in H.
      by replace (S i + length p1) with (i + S (length p1)) by lia.
Qed.

Lemma sub_from_nowhere ml (r : regex) (f : rmatch -> str) (s : str) :
  (∀ p1 p2 prev i, s = p1 ++ p2 -> match_at ml r prev i p2 = None) ->
  ∀ prev i, sub_from ml r f prev i 0 s = s.
Proof.
  intros H prev i. rewrite <- (app_nil_r s) at 1. rewrite sub_from_app_nomatch.
  - cbn [sub_from]. rewrite (H s []) by by rewrite app_nil_r.
    by rewrite app_nil_r.
  - intros p1 c p2 ->. rewrite app_nil_r. by apply (H p1).
Qed.

End ShiftFacts.

(** ** Cut sections of the landing page *)

Section CutFacts.
Import PyStr Re ReSpec Generate Pages.

(** A marker starts with [<] and holds no other: two occurrences of it do
    not overlap. *)
Lemma marker_overlap (mk s1 x z : str) :
  ("<"%char ∉ mk) ->
  s1 ++ ("<"%char :: mk) ++ x = ("<"%char :: mk) ++ z ->
  s1 = [] \/ ∃ y, s1 = ("<"%char :: mk) ++ y.
Proof.
  intros Hmk H. apply app_eq_inv in H as [(k & -> & _)|(k & Hm & Hk)].
  - right. by exists k.
  - destruct s1 as [|c s1]; [by left|]. injection Hm as <- Hm.
    destruct k as [|d k].
    + right. exists []. rewrite app_nil_r in Hm. by rewrite Hm, app_nil_r.
    + injection Hk as <- _. destruct Hmk. rewrite Hm.
      apply elem_of_app. right. apply list_elem_of_here.
Qed.

Lemma cut_start_shape : ∃ mk, CUT_START = "<"%char :: mk /\ ("<"%char ∉ mk).
Proof.
  eexists. split; [reflexivity|]. apply (bool_decide_unpack _). vm_compute. exact I.
Qed.

Lemma cut_end_shape : ∃ mk, CUT_END = "<"%char :: mk /\ ("<"%char ∉ mk).
Proof.
  eexists. split; [reflexivity|]. apply (bool_decide_unpack _). vm_compute. exact I.
Qed.

Lemma cut_anchor_free : anchor_free CUT_RE = true.
Proof. reflexivity. Qed.

Lemma cut_match_inv prev i (s : str) (m : rmatch) :
  match_at false CUT_RE prev i s = Some m ->
  ∃ mid rest, s = CUT_START ++ mid ++ CUT_END ++ rest.
Proof.
  unfold match_at. destruct (exec _ _ _ _) as [e|] eqn:E; [|done]. intros _.
  unfold CUT_RE in E. rewrite exec_Cat in E.
  apply exec_Chars_inv in E as (t1 & H1 & E). cbn [m_rest m_prev m_groups] in *.
  subst s. rewrite exec_Cat, exec_StarLazy in E. cbn [m_rest m_prev m_groups] in E.
  apply star_lazy_inv in E as (mid & t2 & -> & _ & _ & E).
  rewrite exec_Cat in E. apply exec_Chars_inv in E as (rest & H2 & _).
  cbn [m_rest] in H2. subst t2. by exists mid, rest.
Qed.

(** A cut section is matched up to its end marker and one line feed. *)
Lemma cut_match prev i (mid rest : str) :
  (∀ a b, mid ≠ a ++ CUT_END ++ b) ->
  match_at false CUT_RE prev i (CUT_START ++ mid ++ CUT_END ++ rest)
  = Some (RMatch i
            (i + (length (CUT_START ++ mid ++ CUT_END ++ rest)
                  - length (match rest with
                            | c :: rest' => if chr_eqb LF c then rest' else rest
                            | [] => []
                            end)))
            []).
Proof.
  intros Hmid. unfold match_at, CUT_RE.
  rewrite exec_Cat, exec_Chars_app, exec_Cat, exec_StarLazy.
  cbn [m_rest m_prev m_groups]. rewrite star_lazy_app.
  2:{ by apply Forall_forall. }
  2:{ intros x1 c x2 ->. rewrite exec_Cat. apply exec_Chars_None.
      cbn [m_rest]. intros [t Ht].
      destruct cut_end_shape as (mk & Hmk & Hlt).
      rewrite Hmk in Ht.
      change (c :: x2 ++ ("<"%char :: mk) ++ rest)
        with ((c :: x2) ++ ("<"%char :: mk) ++ rest) in Ht.
      apply marker_overlap in Ht as [?|[y Hy]]; [done| |done].
      apply (Hmid x1 y). by rewrite Hmk, <- Hy. }
  destruct rest as [|c rest]; [|destruct (chr_eqb LF c) eqn:Ec].
  - erewrite star_lazy_here; cycle 1.
    { rewrite exec_Cat, exec_Chars_app, exec_Opt. reflexivity. }
    reflexivity.
  - erewrite star_lazy_here; cycle 1.
    { rewrite exec_Cat, exec_Chars_app, exec_Opt.
      cbn [exec m_rest m_prev m_groups strip_prefix]. rewrite Ec. reflexivity. }
    reflexivity.
  - erewrite star_lazy_here; cycle 1.
    { rewrite exec_Cat, exec_Chars_app, exec_Opt.
      cbn [exec m_rest m_prev m_groups strip_prefix]. rewrite Ec. reflexivity. }
    reflexivity.
Qed.

(** X17.  A text in which no start marker of a cut section is followed,
    anywhere later, by an end marker is left as it is: a section that is
    opened and never closed stays on the page. *)
Theorem cut_needs_both_markers (content : str) :
  (∀ a b c, content ≠ a ++ CUT_START ++ b ++ CUT_END ++ c) ->
  _strip_cut_sections content = content.
Proof.
  intros H. apply sub_from_nowhere. intros p1 p2 prev i ->.
  destruct (match_at false CUT_RE prev i p2) as [m|] eqn:E; [|done].
  apply cut_match_inv in E as (mid & rest & ->). by destruct (H p1 mid rest).
Qed.

Lemma cut_needs_both_markers_witness :
  _strip_cut_sections (py "intro" ++ [LF] ++ CUT_START ++ [LF] ++ py "badges")
  = py "intro" ++ [LF] ++ CUT_START ++ [LF] ++ py "badges".
Proof.
  apply (cut_needs_both_markers (py "intro" ++ [LF] ++ CUT_START ++ [LF] ++ py "badges")).
  intros a b c H.
  assert (Hc : contains CUT_END
                 (py "intro" ++ [LF] ++ CUT_START ++ [LF] ++ py "badges") = true).
  { apply contains_true. exists (a ++ CUT_START ++ b), c.
    by rewrite H, <- !app_assoc. }
  by vm_compute in Hc.
Defined.

(** X18.  The first cut section of a text: with no start marker before it
    and no end marker inside it, the section goes from its start marker to
    its end marker, with one line feed right behind the end marker if there
    is one, and is taken out; the text before it stays, and the text behind
    it is treated in the same way. *)
Theorem cut_section_removed (pre mid rest : str) :
  (∀ a b, pre ≠ a ++ CUT_START ++ b) ->
  (∀ a b, mid ≠ a ++ CUT_END ++ b) ->
  _strip_cut_sections (pre ++ CUT_START ++ mid ++ CUT_END ++ rest)
  = pre ++ _strip_cut_sections
             (match rest with
              | c :: rest' => if chr_eqb LF c then rest' else rest
              | [] => []
              end).
Proof.
  intros Hpre Hmid. unfold _strip_cut_sections, re_sub.
  rewrite sub_from_app_nomatch.
  2:{ intros p1 c p2 ->.
      destruct (match_at _ _ _ _ _) as [m|] eqn:E; [|done].
      apply cut_match_inv in E as (mid' & rest' & E).
      destruct cut_start_shape as (mk & Hmk & Hlt). rewrite Hmk in E.
      change (c :: p2 ++ ("<"%char :: mk) ++ mid ++ CUT_END ++ rest)
        with ((c :: p2) ++ ("<"%char :: mk) ++ mid ++ CUT_END ++ rest) in E.
      apply marker_overlap in E as [?|[y Hy]]; [done| |done].
      destruct (Hpre p1 y). by rewrite Hmk, <- Hy. }
  f_equal.
  set (lf := match rest with c :: _ => if chr_eqb LF c then [LF] else [] | [] => [] end).
  set (rest' := match rest with
                | c :: rest' => if chr_eqb LF c then rest' else rest
                | [] => []
                end).
  assert (Hrest : rest = lf ++ rest').
  { subst lf rest'. destruct rest as [|c rest]; [done|].
    destruct (chr_eqb LF c) eqn:E; [|done]. by apply chr_eqb_eq in E as <-. }
  assert (Hsplit : CUT_START ++ mid ++ CUT_END ++ rest
                   = (CUT_START ++ mid ++ CUT_END ++ lf) ++ rest').
  { rewrite Hrest. by rewrite <- !app_assoc. }
  rewrite Hsplit.
  erewrite sub_from_match.
  2:{ done. }
  2:{ rewrite <- Hsplit. by apply cut_match. }
  2:{ cbn [m_end m_start]. fold rest'. rewrite Hsplit, (length_app _ rest'). lia. }
  cbn [app]. apply sub_from_shift; [apply cut_anchor_free|done].
Qed.

Lemma cut_section_removed_witness :
  _strip_cut_sections
    (py "intro" ++ CUT_START ++ py "badge <img>" ++ CUT_END ++ ([LF] ++ py "text"))
  = py "intro" ++ _strip_cut_sections (py "text").
Proof.
  apply (cut_section_removed (py "intro") (py "badge <img>") ([LF] ++ py "text")).
  - intros a b H.
    assert (Hc : contains CUT_START (py "intro") = true).
    { apply contains_true. by exists a, b. }
    by vm_compute in Hc.
  - intros a b H.
    assert (Hc : contains CUT_END (py "badge <img>") = true).
    { apply contains_true. by exists a, b. }
    by vm_compute in Hc.
Defined.

End CutFacts.

(** ** The order of the types on a page *)

Section SortFacts.
Import PyStr Re Generate Pages.

Lemma code_inj (x y : ascii) : code x = code y -> x = y.
Proof.
  unfold code. intros H.
  by rewrite <- (ascii_N_embedding x), <- (ascii_N_embedding y), H.
Qed.

Lemma str_ltb_cons (x y : ascii) (a b : str) :
  str_ltb (x :: a) (y :: b)
  = (code x <? code y)%N || ((code x =? code y)%N && str_ltb a b).
Proof. done. Qed.

Lemma str_ltb_irrefl (a : str) : str_ltb a a = false.
Proof.
  induction a as [|x a IH]; [done|].
  by rewrite str_ltb_cons, N.ltb_irrefl, N.eqb_refl, IH.
Qed.

Lemma str_ltb_trans (a b c : str) :
  str_ltb a b = true -> str_ltb b c = true -> str_ltb a c = true.
Proof.
  revert b c; induction a as [|x a IH]; intros [|y b] [|z c]; try done.
  rewrite !str_ltb_cons, !orb_true_iff, !andb_true_iff, !N.ltb_lt, !N.eqb_eq.
  intros [H1|[H1 H1']] [H2|[H2 H2']].
  - left. lia.
  - left. lia.
  - left. lia.
  - right. split; [lia|]. by apply (IH b).
Qed.

Lemma str_ltb_connex (a b : str) :
  str_ltb a b = false -> str_ltb b a = false -> a = b.
Proof.
  revert b; induction a as [|x a IH]; intros [|y b]; try done.
  rewrite !str_ltb_cons, !orb_false_iff, !andb_false_iff, !N.ltb_ge, !N.eqb_neq.
  intros [H1 H1'] [H2 H2'].
  assert (Hxy : code x = code y) by lia.
  apply code_inj in Hxy as ->. f_equal. apply IH.
  - by destruct H1'.
  - by destruct H2'.
Qed.

Lemma str_ltb_asym (a b : str) : str_ltb a b = true -> str_ltb b a = false.
Proof.
  intros H. destruct (str_ltb b a) eqn:E; [|done].
  pose proof (str_ltb_trans _ _ _ H E) as Ht. by rewrite str_ltb_irrefl in Ht.
Qed.

(** [a <= b <= c] gives [a <= c], with [a <= b] read as not [b < a]. *)
Lemma str_leb_trans (a b c : str) :
  str_ltb b a = false -> str_ltb c b = false -> str_ltb c a = false.
Proof.
  intros Hab Hbc. destruct (str_ltb c a) eqn:Hca; [|done].
  destruct (str_ltb a b) eqn:E.
  - pose proof (str_ltb_trans _ _ _ Hca E) as Ht. congruence.
  - pose proof (str_ltb_connex _ _ E Hab) as ->. congruence.
Qed.

Lemma insert_by_perm {A} (key : A -> str) (x : A) (l : list A) :
  insert_by key x l ≡ₚ x :: l.
Proof.
  induction l as [|y l IH]; [done|]. cbn [insert_by].
  destruct (str_ltb (key y) (key x)); [|done].
  rewrite IH. apply Permutation_swap.
Qed.

Lemma sorted_by_perm {A} (key : A -> str) (l : list A) : sorted_by key l ≡ₚ l.
Proof.
  induction l as [|x l IH]; [done|]. unfold sorted_by in *. cbn [foldr].
  by rewrite insert_by_perm, IH.
Qed.

Lemma insert_by_sorted {A} (key : A -> str) (x : A) (l : list A) :
  StronglySorted (fun a b => str_ltb (key b) (key a) = false) l ->
  StronglySorted (fun a b => str_ltb (key b) (key a) = false) (insert_by key x l).
Proof.
  induction 1 as [|y l Hl IH Hy]; cbn [insert_by].
  - repeat constructor.
  - destruct (str_ltb (key y) (key x)) eqn:E.
    + constructor; [done|]. rewrite insert_by_perm. constructor; [|done].
      by apply str_ltb_asym.
    + constructor; [by constructor|]. constructor; [done|].
      eapply Forall_impl; [exact Hy|]. intros z Hz. cbv beta in *.
      by apply (str_leb_trans _ (key y)).
Qed.

Lemma sorted_by_sorted {A} (key : A -> str) (l : list A) :
  StronglySorted (fun a b => str_ltb (key b) (key a) = false) (sorted_by key l).
Proof.
  induction l as [|x l IH]; [constructor|]. by apply insert_by_sorted.
Qed.

Lemma key_inj_on {A} (key : A -> str) (l : list A) (x y : A) :
  NoDup (key <$> l) -> x ∈ l -> y ∈ l -> key x = key y -> x = y.
Proof.
  induction l as [|z l IH]; cbn [fmap list_fmap]; [by intros _ H; apply elem_of_nil in H|].
  intros Hnd Hx Hy Hk. apply NoDup_cons in Hnd as [Hz Hnd].
  apply elem_of_cons in Hx as [->|Hx]; apply elem_of_cons in Hy as [->|Hy].
  - done.
  - destruct Hz. rewrite Hk. by apply list_elem_of_fmap_2.
  - destruct Hz. rewrite <- Hk. by apply list_elem_of_fmap_2.
  - by apply IH.
Qed.

(** Two sorted lists of the same items, the keys all different, are the
    same list. *)
Lemma sorted_unique {A} (key : A -> str) (l1 l2 : list A) :
  StronglySorted (fun a b => str_ltb (key b) (key a) = false) l1 ->
  StronglySorted (fun a b => str_ltb (key b) (key a) = false) l2 ->
  l1 ≡ₚ l2 -> NoDup (key <$> l1) -> l1 = l2.
Proof.
  intros H1; revert l2; induction H1 as [|x l1 Hl1 IH Hx]; intros l2 H2 Hp Hnd.
  { by apply Permutation_nil_l in Hp. }
  destruct H2 as [|y l2 Hl2 Hy].
  { by apply Permutation_nil_r in Hp. }
  assert (Hxy : x = y).
  { assert (Hx2 : x ∈ y :: l2) by (rewrite <- Hp; apply list_elem_of_here).
    assert (Hy1 : y ∈ x :: l1) by (rewrite Hp; apply list_elem_of_here).
    apply elem_of_cons in Hx2 as [?|Hx2]; [done|].
    apply elem_of_cons in Hy1 as [?|Hy1]; [done|].
    rewrite Forall_forall in Hx, Hy.
    apply (key_inj_on key (x :: l1)); [done|apply list_elem_of_here| |].
    - by apply list_elem_of_further.
    - apply str_ltb_connex; [by apply Hy|by apply Hx]. }
  subst y. f_equal. apply IH; [done|by apply Permutation_cons_inv in Hp|].
  cbn [fmap list_fmap] in Hnd. by apply NoDup_cons in Hnd as [_ ?].
Qed.

Lemma sorted_by_permutation {A} (key : A -> str) (l1 l2 : list A) :
  l1 ≡ₚ l2 -> NoDup (key <$> l1) -> sorted_by key l1 = sorted_by key l2.
Proof.
  intros Hp Hnd. apply (sorted_unique key); try apply sorted_by_sorted.
  - by rewrite !sorted_by_perm.
  - by rewrite sorted_by_perm.
Qed.

(** X19.  The enums page and the keys page do not depend on the order in
    which the types were loaded, as long as no two of them have the same
    name: the sections follow the names in code-point order. *)
Theorem pages_independent_of_load_order (types types' : list TypeItem) :
  types ≡ₚ types' -> NoDup (name <$> types) ->
  generate_enums types = generate_enums types'
  /\ generate_keys types = generate_keys types'.
Proof.
  intros Hp Hnd. unfold generate_enums, generate_keys.
  by rewrite (sorted_by_permutation name _ _ Hp Hnd), (Permutation_length Hp).
Qed.

Lemma pages_independent_of_load_order_witness :
  generate_enums [Samples.status_enum; Samples.runtime_key]
  = generate_enums [Samples.runtime_key; Samples.status_enum]
  /\ generate_keys [Samples.status_enum; Samples.runtime_key]
     = generate_keys [Samples.runtime_key; Samples.status_enum].
Proof.
  apply (pages_independent_of_load_order
           [Samples.status_enum; Samples.runtime_key]
           [Samples.runtime_key; Samples.status_enum]).
  - apply Permutation_swap.
  - apply (bool_decide_unpack _). vm_compute. exact I.
Defined.

End SortFacts.

(** ** The pages as they are written *)

Section PageFacts.
Import PyStr Re Generate LinkSpec Pages.

Lemma not_link_start (c : ascii) (s : str) :
  c ≠ "["%char -> ¬ starts_with_docs_link (c :: s).
Proof. intros Hc (text & scheme & tail & after & _ & H). by injection H as ->. Qed.

Lemma rewrite_links_other (c : ascii) (s : str) :
  c ≠ "["%char ->
  rewrite_camunda_docs_links (c :: s) = c :: rewrite_camunda_docs_links s.
Proof.
  intros Hc. apply (rewrite_other (str_mul (py "../") DEPLOYMENT_DEPTH)).
  by apply not_link_start.
Qed.

(** The link rewriter passes over a text without opening bracket. *)
Lemma rewrite_prefix (pre s : str) :
  ("["%char ∉ pre) ->
  rewrite_camunda_docs_links (pre ++ s) = pre ++ rewrite_camunda_docs_links s.
Proof.
  intros H. induction pre as [|c pre IH]; [done|].
  apply not_elem_of_cons in H as [Hc H]. cbn [app].
  rewrite rewrite_links_other by congruence. by rewrite IH.
Qed.

(** A page that starts with text free of [#] and brackets, then an H1
    heading on its own line: the banner comes right behind the heading. *)
Lemma published_heading (fm title body : str) :
  ("["%char ∉ fm) -> ("#"%char ∉ fm) -> last fm = Some LF ->
  ("["%char ∉ title) -> (LF ∉ title) ->
  (∃ c t, title = c :: t /\ is_space c = false) ->
  published (fm ++ py "# " ++ title ++ [LF] ++ body)
  = fm ++ py "# " ++ title ++ [LF] ++ TECH_PREVIEW_BANNER
    ++ rewrite_camunda_docs_links ([LF] ++ body).
Proof.
  intros Hfm1 Hfm2 Hlast Ht1 Ht2 Ht3. unfold published.
  replace (fm ++ py "# " ++ title ++ [LF] ++ body)
    with ((fm ++ py "# " ++ title) ++ [LF] ++ body) by by rewrite <- !app_assoc.
  rewrite rewrite_prefix.
  2:{ rewrite !not_elem_of_app. split; [done|]. split; [|done].
      apply (bool_decide_unpack _). by vm_compute. }
  assert (Hrest : ∃ r, rewrite_camunda_docs_links ([LF] ++ body) = LF :: r).
  { exists (rewrite_camunda_docs_links body). cbn [app].
    apply rewrite_links_other. by vm_compute. }
  rewrite <- !app_assoc.
  change (py "# " ++ title ++ rewrite_camunda_docs_links ([LF] ++ body))
    with (py "#" ++ py " " ++ title ++ rewrite_camunda_docs_links ([LF] ++ body)).
  rewrite inject_behind_heading; try done.
  - intros p1 p2 ->. destruct Hfm2. apply elem_of_app. right. apply list_elem_of_here.
  - by right.
  - repeat constructor.
  - by right.
Qed.

Lemma enums_step_app (out : str) (t : TypeItem) :
  enums_step out t = out ++ enums_step [] t.
Proof.
  unfold enums_step. destruct (summary t); rewrite ?app_nil_l, <- ?app_assoc; done.
Qed.

Lemma keys_overview_step_app (out : str) (t : TypeItem) :
  keys_overview_step out t = out ++ keys_overview_step [] t.
Proof. unfold keys_overview_step. by rewrite ?app_nil_l, <- ?app_assoc. Qed.

Lemma keys_details_step_app (out : str) (t : TypeItem) :
  keys_details_step out t = out ++ keys_details_step [] t.
Proof.
  unfold keys_details_step. destruct (summary t); rewrite ?app_nil_l, <- ?app_assoc; done.
Qed.

(** A loop that only appends to [out]. *)
Lemma fold_left_out (step : str -> TypeItem -> str) (l : list TypeItem) (out : str) :
  (∀ out t, step out t = out ++ step [] t) ->
  fold_left step l out = out ++ fold_left step l [].
Proof.
  intros Hstep. revert out; induction l as [|t l IH]; intros out; cbn [fold_left].
  - by rewrite app_nil_r.
  - rewrite IH, (IH (step [] t)), Hstep. by rewrite <- app_assoc.
Qed.

(** X20.  On the enums page and on the keys page as [main] writes them, the
    banner stands right behind the H1 title of the page, whatever the types
    are (a heading in a summary cannot draw it away), and the front matter
    and the title are as generated; what follows the title is the generated
    rest with its links rewritten. *)
Theorem banner_behind_page_title (types : list TypeItem) :
  (∃ body,
     generate_enums types
     = frontmatter (py "Enums") (Some (py "Enums")) ++ [LF] ++ py "# Enums" ++ body
     /\ published (generate_enums types)
        = frontmatter (py "Enums") (Some (py "Enums")) ++ [LF] ++ py "# Enums"
          ++ [LF] ++ TECH_PREVIEW_BANNER ++ rewrite_camunda_docs_links body)
  /\ (∃ body,
        generate_keys types
        = frontmatter (py "Keys") (Some (py "Keys")) ++ [LF] ++ py "# Key Types"
          ++ body
        /\ published (generate_keys types)
           = frontmatter (py "Keys") (Some (py "Keys")) ++ [LF] ++ py "# Key Types"
             ++ [LF] ++ TECH_PREVIEW_BANNER ++ rewrite_camunda_docs_links body).
Proof.
  split.
  - set (fm := frontmatter (py "Enums") (Some (py "Enums"))).
    assert (E : ∃ body', generate_enums types
                  = (fm ++ [LF]) ++ py "# " ++ py "Enums" ++ [LF] ++ body').
    { eexists. unfold generate_enums. fold fm. clearbody fm.
      rewrite (fold_left_out enums_step) by apply enums_step_app.
      rewrite <- ?app_assoc. cbn [py list_ascii_of_string app]. reflexivity. }
    destruct E as [body' E]. exists ([LF] ++ body'). rewrite E. split.
    + by rewrite <- !app_assoc.
    + rewrite published_heading.
      * by rewrite <- !app_assoc.
      * apply (bool_decide_unpack _). by vm_compute.
      * apply (bool_decide_unpack _). by vm_compute.
      * by vm_compute.
      * apply (bool_decide_unpack _). by vm_compute.
      * apply (bool_decide_unpack _). by vm_compute.
      * by exists "E"%char, (py "nums").
  - set (fm := frontmatter (py "Keys") (Some (py "Keys"))).
    assert (E : ∃ body', generate_keys types
                  = (fm ++ [LF]) ++ py "# " ++ py "Key Types" ++ [LF] ++ body').
    { eexists. unfold generate_keys. fold fm. clearbody fm.
      rewrite (fold_left_out keys_details_step) by apply keys_details_step_app.
      rewrite (fold_left_out keys_overview_step) by apply keys_overview_step_app.
      rewrite <- ?app_assoc. cbn [py list_ascii_of_string app]. reflexivity. }
    destruct E as [body' E]. exists ([LF] ++ body'). rewrite E. split.
    + by rewrite <- !app_assoc.
    + rewrite published_heading.
      * by rewrite <- !app_assoc.
      * apply (bool_decide_unpack _). by vm_compute.
      * apply (bool_decide_unpack _). by vm_compute.
      * by vm_compute.
      * apply (bool_decide_unpack _). by vm_compute.
      * apply (bool_decide_unpack _). by vm_compute.
      * by exists "K"%char, (py "ey Types").
Qed.

End PageFacts.

(** ** The method groups of the client page *)

Section GroupFacts.
Import PyStr Re Generate Pages.

Lemma group_append_keys (g : str) (m : MemberItem)
    (groups : list (str * list MemberItem)) :
  (fst <$> group_append g m groups)
  = (fst <$> groups) ++ (if bool_decide (g ∈ fst <$> groups) then [] else [g]).
Proof.
  induction groups as [|[g0 ms0] groups IH]; [done|].
  cbn [group_append fmap list_fmap fst]. destruct (str_eqb g0 g) eqn:E.
  - apply str_eqb_eq in E as ->. cbn [fmap list_fmap fst app].
    rewrite bool_decide_true by apply list_elem_of_here. by rewrite app_nil_r.
  - apply str_eqb_neq in E. cbn [fmap list_fmap fst app]. rewrite IH. f_equal.
    rewrite (bool_decide_ext (g ∈ g0 :: groups.*1) (g ∈ groups.*1)); [done|].
    rewrite elem_of_cons. split; [|by right]. intros [->|?]; [by destruct E|done].
Qed.

Lemma group_append_elem (g : str) (m : MemberItem)
    (groups : list (str * list MemberItem)) (g' : str) (ms' : list MemberItem) :
  NoDup (fst <$> groups) ->
  (g', ms') ∈ group_append g m groups ->
  (g' ≠ g /\ (g', ms') ∈ groups)
  \/ (g' = g
      /\ ((∃ ms, (g, ms) ∈ groups /\ ms' = ms ++ [m])
          \/ ((g ∉ fst <$> groups) /\ ms' = [m]))).
Proof.
  induction groups as [|[g0 ms0] groups IH]; cbn [group_append fmap list_fmap fst].
  - intros _ H. apply list_elem_of_singleton in H as [= -> ->].
    right. split; [done|]. right. split; [|done]. by intros H; apply elem_of_nil in H.
  - intros Hnd H. apply NoDup_cons in Hnd as [Hg0 Hnd].
    destruct (str_eqb g0 g) eqn:E.
    + apply str_eqb_eq in E as ->. apply elem_of_cons in H as [[= -> ->]|H].
      * right. split; [done|]. left. exists ms0. split; [apply list_elem_of_here|done].
      * left. split; [|by apply list_elem_of_further]. intros ->. apply Hg0.
        by apply (list_elem_of_fmap_2 fst) in H.
    + apply str_eqb_neq in E. apply elem_of_cons in H as [[= -> ->]|H].
      * left. split; [done|apply list_elem_of_here].
      * destruct (IH Hnd H) as [[Hne Hin]|[-> [(ms & Hin & ->)|[Hnin ->]]]].
        -- left. split; [done|by apply list_elem_of_further].
        -- right. split; [done|]. left. exists ms.
           split; [by apply list_elem_of_further|done].
        -- right. split; [done|]. right. split; [|done].
           rewrite not_elem_of_cons. split; [congruence|done].
Qed.

Lemma filter_none {A} (f : A -> bool) (l : list A) :
  (∀ x, x ∈ l -> f x = false) -> List.filter f l = [].
Proof.
  induction l as [|x l IH]; intros H; [done|]. cbn [List.filter].
  rewrite (H x) by apply list_elem_of_here. apply IH. intros y Hy.
  by apply H, list_elem_of_further.
Qed.

(** The grouping loop after the methods [l], by any key. *)
Lemma group_fold_inv (key : MemberItem -> str) (l : list MemberItem) :
  NoDup (fst <$> fold_left (fun gs m => group_append (key m) m gs) l [])
  /\ (∀ g ms,
        (g, ms) ∈ fold_left (fun gs m => group_append (key m) m gs) l [] ->
        ms ≠ [] /\ ms = List.filter (fun m => str_eqb (key m) g) l)
  /\ (∀ m, m ∈ l ->
        key m ∈ fst <$> fold_left (fun gs m => group_append (key m) m gs) l []).
Proof.
  induction l as [|m l (Hnd & Hgroups & Hkeys)] using rev_ind.
  { split; [constructor|]. split; [intros g ms H|intros m H]; by apply elem_of_nil in H. }
  rewrite fold_left_app. cbn [fold_left].
  set (groups := fold_left (fun gs m => group_append (key m) m gs) l []) in *.
  split; [|split].
  - rewrite group_append_keys. case_bool_decide as Hin; [by rewrite app_nil_r|].
    apply NoDup_app. split; [done|]. split; [|apply NoDup_singleton].
    intros x Hx Hx'. apply list_elem_of_singleton in Hx' as ->. done.
  - intros g ms H. rewrite List.filter_app. cbn [List.filter].
    apply group_append_elem in H as [[Hne Hin]|[-> [(ms0 & Hin & ->)|[Hnin ->]]]];
      [| | |done].
    + destruct (Hgroups _ _ Hin) as [Hms ->]. split; [done|].
      assert (E : str_eqb (key m) g = false) by (apply str_eqb_neq; congruence).
      by rewrite E, app_nil_r.
    + destruct (Hgroups _ _ Hin) as [Hms ->]. rewrite str_eqb_refl.
      split; [by destruct (List.filter _ l)|done].
    + rewrite str_eqb_refl. split; [done|]. rewrite filter_none; [done|].
      intros x Hx. apply str_eqb_neq. intros E. apply Hnin. rewrite <- E.
      by apply Hkeys.
  - intros x Hx. rewrite group_append_keys. apply elem_of_app.
    apply elem_of_app in Hx as [Hx|Hx].
    + left. by apply Hkeys.
    + apply list_elem_of_singleton in Hx as ->.
      case_bool_decide as Hin; [by left|right; apply list_elem_of_here].
Qed.

(** X21.  The method groups of the client page: no heading comes twice;
    under each heading stand exactly the methods of the client whose name
    [_method_group] sends there, in the order of the members, and there is
    at least one; and every method stands under the heading of its group. *)
Theorem methods_grouped (members : list MemberItem) :
  NoDup (fst <$> group_methods members)
  /\ (∀ g ms,
        (g, ms) ∈ group_methods members ->
        ms ≠ []
        /\ ms = List.filter (fun m => str_eqb (_method_group (mi_name m)) g)
                  (List.filter (has_kind "Method") members))
  /\ (∀ m,
        m ∈ List.filter (has_kind "Method") members ->
        ∃ ms, (_method_group (mi_name m), ms) ∈ group_methods members /\ m ∈ ms).
Proof.
  unfold group_methods.
  destruct (group_fold_inv (fun m => _method_group (mi_name m))
              (List.filter (has_kind "Method") members)) as (Hnd & Hgroups & Hkeys).
  split; [done|]. split; [done|]. intros m Hm.
  pose proof (Hkeys m Hm) as Hk. apply list_elem_of_fmap in Hk as ([g ms] & Hg & Hin).
  cbn [fst] in Hg. subst g. exists ms. split; [done|].
  destruct (Hgroups _ _ Hin) as [_ ->]. apply list_elem_of_In, filter_In.
  split; [by apply list_elem_of_In|apply str_eqb_refl].
Qed.

End GroupFacts.

(** ** Signatures *)

Section SignatureFacts.
Import PyStr Re Generate Pages PagesSpec.

Lemma attr_match_inv prev i (s : str) (m : rmatch) :
  match_at true ATTRIBUTE_RE prev i s = Some m ->
  (prev = None \/ prev = Some LF) /\ ∃ t, s = "["%char :: t.
Proof.
  unfold match_at. destruct (exec _ _ _ _) as [e|] eqn:E; [|done]. intros _.
  unfold ATTRIBUTE_RE in E. rewrite exec_Cat in E.
  apply exec_Bol_inv in E as (Hb & E). rewrite exec_Cat in E.
  apply exec_Chars_inv in E as (t & Ht & _). cbn [m_rest m_prev] in *.
  split; [done|]. by exists t.
Qed.

Lemma attr_match prev i (attr rest : str) :
  prev = None \/ prev = Some LF ->
  ("]"%char ∉ attr) -> (LF ∉ attr) ->
  match_at true ATTRIBUTE_RE prev i (py "[" ++ attr ++ py "]" ++ [LF] ++ rest)
  = Some (RMatch i (i + length (py "[" ++ attr ++ py "]" ++ [LF])) []).
Proof.
  intros Hprev Hbr Hlf. unfold match_at, ATTRIBUTE_RE.
  rewrite exec_Cat, exec_Bol_line, exec_Cat, exec_Chars_app, exec_Cat, exec_StarLazy
    by done.
  cbn [m_rest m_prev m_groups]. rewrite star_lazy_app.
  2:{ rewrite Forall_forall. intros c Hc. unfold dot.
      apply negb_true_iff, chr_eqb_neq. by intros ->. }
  2:{ intros x1 c x2 ->. rewrite exec_Cat. apply exec_Chars_None.
      cbn [m_rest]. intros [t [= -> _]]. apply Hbr.
      apply elem_of_app. right. apply list_elem_of_here. }
  erewrite star_lazy_here; cycle 1.
  { rewrite exec_Cat, exec_Chars_app, exec_Opt, exec_Chars_app. reflexivity. }
  cbn [m_rest m_groups]. do 3 f_equal. rewrite !length_app. cbn [length]. lia.
Qed.

Lemma attr_sub_rest prev i (rest : str) :
  no_line_starts_with "[" rest ->
  (∃ d, prev = Some d /\ d ≠ LF) \/ (∀ t, rest ≠ "["%char :: t) ->
  sub_from true ATTRIBUTE_RE (fun _ => []) prev i 0 rest = rest.
Proof.
  intros Hrest Hstart. rewrite <- (app_nil_r rest) at 1.
  rewrite sub_from_app_nomatch.
  - cbn [sub_from]. destruct (match_at _ _ _ _ _) as [m|] eqn:E.
    + by apply attr_match_inv in E as (_ & t & ?).
    + by rewrite app_nil_r.
  - intros p1 c p2 ->. rewrite app_nil_r.
    destruct (match_at _ _ _ _ _) as [m|] eqn:E; [|done].
    apply attr_match_inv in E as (Hp & t & [= -> _]).
    destruct p1 as [|x p1].
    + change (last_chr prev []) with prev in Hp.
      destruct Hstart as [(d & -> & Hd)|Hs]; [by destruct Hp as [|[= ->]]|].
      by destruct (Hs p2).
    + destruct (Hrest (x :: p1) p2 eq_refl) as (d & Hd & Hne).
      unfold last_chr in Hp. rewrite Hd in Hp. by destruct Hp as [|[= ->]].
Qed.

Lemma attr_sub prev i (attrs : list str) (rest : str) :
  prev = None \/ prev = Some LF ->
  Forall (fun a => ("]"%char ∉ a) /\ (LF ∉ a)) attrs ->
  no_line_starts_with "[" rest -> (∀ t, rest ≠ "["%char :: t) ->
  sub_from true ATTRIBUTE_RE (fun _ => []) prev i 0 (attribute_lines attrs ++ rest)
  = rest.
Proof.
  intros Hprev Hattrs Hrest Hstart. revert prev i Hprev.
  induction Hattrs as [|a attrs [Hbr Hlf] _ IH]; intros prev i Hprev.
  - cbn [attribute_lines map concat app]. apply attr_sub_rest; [done|by right].
  - unfold attribute_lines. cbn [map concat]. fold (attribute_lines attrs).
    rewrite <- app_assoc. erewrite sub_from_match.
    + cbn [app]. apply IH. right. unfold last_chr.
      by rewrite !app_assoc, last_snoc.
    + done.
    + rewrite <- !app_assoc. by apply attr_match.
    + cbn [m_end m_start]. lia.
Qed.

(** X22.  A signature under attribute lines: every attribute line (an
    attribute in brackets, without closing bracket or line feed inside, on
    a line of its own) is dropped, and the declaration that follows, no
    line of which starts with an opening bracket, is stripped and put in a
    fenced [csharp] block. *)
Theorem md_signature_drops_attributes (attrs : list str) (decl : str) :
  Forall (fun a => ("]"%char ∉ a) /\ (LF ∉ a)) attrs ->
  no_line_starts_with "[" decl -> (∀ t, decl ≠ "["%char :: t) ->
  attribute_lines attrs ++ decl ≠ [] ->
  _md_signature (attribute_lines attrs ++ decl)
  = py "```csharp" ++ [LF] ++ strip decl ++ [LF] ++ py "```" ++ [LF].
Proof.
  intros Hattrs Hdecl Hstart Hne. unfold _md_signature.
  destruct (attribute_lines attrs ++ decl) as [|c s] eqn:E; [done|].
  rewrite <- E. unfold re_sub. rewrite attr_sub by (done || by left). done.
Qed.

Lemma md_signature_drops_attributes_witness :
  _md_signature
    (attribute_lines [py "Obsolete"; py "JsonPropertyName(name)"]
     ++ py "public string Name { get; set; }" ++ [LF])
  = py "```csharp" ++ [LF]
    ++ strip (py "public string Name { get; set; }" ++ [LF])
    ++ [LF] ++ py "```" ++ [LF].
Proof.
  apply (md_signature_drops_attributes
           [py "Obsolete"; py "JsonPropertyName(name)"]
           (py "public string Name { get; set; }" ++ [LF])).
  - repeat constructor; apply (bool_decide_unpack _); vm_compute; exact I.
  - intros p1 p2 H. exfalso.
    assert (Hin : "["%char ∈ p1 ++ "["%char :: p2).
    { apply elem_of_app. right. apply list_elem_of_here. }
    rewrite <- H in Hin. revert Hin. apply (bool_decide_unpack _).
    vm_compute. exact I.
  - intros t H. by vm_compute in H.
  - by vm_compute.
Defined.

End SignatureFacts.

(** ** The text of a region, and of a resolved example *)

Section RegionResolution.
Import PyStr Re Generate ExampleSpec ResolutionSpec Samples.

Lemma region_step_keeps (st : region_state) (line name v : str) :
  regions st !! name = Some v ->
  ∃ v', regions (region_step st line) !! name = Some v'.
Proof.
  intros H. unfold region_step. destruct (m_open line); [by exists v|].
  destruct (m_close line) as [mc|], (current_tag st) as [tag|]; try by exists v.
  destruct (str_eqb tag (group 1 mc)); [|by exists v]. cbn [regions].
  destruct (decide (tag = name)) as [->|Hne].
  - rewrite lookup_insert_eq. by eexists.
  - rewrite lookup_insert_ne by done. by exists v.
Qed.

Lemma region_loop_keeps (st : region_state) (ls : list str) (name v : str) :
  regions st !! name = Some v ->
  ∃ v', regions (region_loop st ls) !! name = Some v'.
Proof.
  revert st v; induction ls as [|l ls IH]; intros st v H; [by exists v|].
  cbn [region_loop fold_left]. destruct (region_step_keeps st l name v H) as [v' Hv'].
  by apply (IH _ v').
Qed.

(** The loop of [parse_region_tags] over the lines [ls], from a state with
    no region open: what is recorded at the end was recorded at the start or
    is the text of a region of [ls]. *)
Lemma region_loop_sound_from (st0 : region_state) (ls : list str) :
  current_tag st0 = None ->
  (∀ name v, regions (region_loop st0 ls) !! name = Some v ->
     regions st0 !! name = Some v
     \/ ∃ pre o body c post,
          ls = pre ++ [o] ++ body ++ [c] ++ post
          /\ is_region name o body c
          /\ v = Textwrap.dedent (join [LF] body))
  /\ (∀ tag, current_tag (region_loop st0 ls) = Some tag ->
        ∃ pre o,
          ls = pre ++ [o] ++ lines (region_loop st0 ls)
          /\ start_marker tag o
          /\ ∀ l, l ∈ lines (region_loop st0 ls) ->
               (∀ n, ¬ start_marker n l) /\ ¬ end_marker tag l).
Proof.
  intros Hst0. induction ls as [|l ls [I1 I2]] using rev_ind.
  { split; [by left|]. cbn [region_loop fold_left]. rewrite Hst0. by intros ? [=]. }
  rewrite region_loop_app. cbn [region_loop fold_left].
  fold (region_loop st0 ls).
  set (st := region_loop st0 ls) in *.
  assert (Hkeep : ∀ name v, regions st !! name = Some v ->
            regions st0 !! name = Some v
            \/ ∃ pre o body c post,
                 ls ++ [l] = pre ++ [o] ++ body ++ [c] ++ post
                 /\ is_region name o body c
                 /\ v = Textwrap.dedent (join [LF] body)).
  { intros name v H.
    destruct (I1 name v H) as [?|(pre & o & body & c & post & -> & R)]; [by left|right].
    exists pre, o, body, c, (post ++ [l]). split; [|done]. by rewrite <- !app_assoc. }
  assert (Hbody : ∀ tag, current_tag st = Some tag ->
            (∀ n, ¬ start_marker n l) -> ¬ end_marker tag l ->
            ∃ pre o,
              ls ++ [l] = pre ++ [o] ++ lines st ++ [l]
              /\ start_marker tag o
              /\ ∀ x, x ∈ lines st ++ [l] ->
                   (∀ n, ¬ start_marker n x) /\ ¬ end_marker tag x).
  { intros tag Ht Hs He. destruct (I2 tag Ht) as (pre & o & E & Ho & Hl).
    exists pre, o. split; [|split; [done|]].
    - rewrite E at 1. by rewrite <- !app_assoc.
    - intros x Hx. apply elem_of_app in Hx as [Hx|Hx]; [by apply Hl|].
      apply list_elem_of_singleton in Hx as ->. done. }
  unfold region_step. destruct (m_open l) as [mo|] eqn:Eo.
  { split; [exact Hkeep|]. cbn [current_tag lines]. intros tag [= <-].
    exists ls, l. split; [done|]. split; [by apply m_open_inv|].
    intros x Hx. by apply elem_of_nil in Hx. }
  pose proof (m_open_none_start _ Eo) as Hs.
  destruct (m_close l) as [mc|] eqn:Ec, (current_tag st) as [tag|] eqn:Et.
  - destruct (str_eqb tag (group 1 mc)) eqn:Eq.
    + apply str_eqb_eq in Eq. split; [|by intros ? [=]].
      cbn [regions]. intros name v. destruct (decide (tag = name)) as [<-|Hne].
      * rewrite lookup_insert_eq. intros [= <-]. right.
        destruct (I2 tag eq_refl) as (pre & o & E & Ho & Hl).
        exists pre, o, (lines st), l, []. split; [|split; [|done]].
        -- rewrite E at 1. by rewrite <- !app_assoc.
        -- split; [done|]. split; [|done]. rewrite Eq. by apply m_close_inv.
      * rewrite lookup_insert_ne by done. apply Hkeep.
    + apply str_eqb_neq in Eq. split; [exact Hkeep|]. cbn [current_tag lines].
      intros ? [= <-]. apply Hbody; [done|done|]. by eapply m_close_other_end.
  - split; [exact Hkeep|]. rewrite Et. by intros ? [=].
  - split; [exact Hkeep|]. cbn [current_tag lines].
    intros ? [= <-]. apply Hbody; [done|done|]. by apply m_close_None_inv.
  - split; [exact Hkeep|]. rewrite Et. by intros ? [=].
Qed.

(** Lines that hold no region called [name] leave the entry of [name] as
    it is, whatever markers they hold. *)
Lemma region_loop_no_region (st0 : region_state) (post : list str) (name v : str) :
  current_tag st0 = None -> regions st0 !! name = Some v ->
  (∀ p1 o body c p2,
     post = p1 ++ [o] ++ body ++ [c] ++ p2 -> ¬ is_region name o body c) ->
  regions (region_loop st0 post) !! name = Some v.
Proof.
  intros Hst0 Hv Hpost. destruct (region_loop_keeps st0 post name v Hv) as [v' Hv'].
  rewrite Hv'. destruct (proj1 (region_loop_sound_from st0 post Hst0) name v' Hv')
    as [H|(p1 & o & body & c & p2 & E & Hr & _)].
  - congruence.
  - by destruct (Hpost p1 o body c p2 E).
Qed.

(** C4, as amended.  A region of a file: a start marker [// <Name>], lines
    none of which is a start marker or a close marker of Name, and a close
    marker [// </Name>].  When no region of the same name follows it in the
    file (of two regions with the same name the later one wins; a close
    marker that closes nothing does no harm), [parse_region_tags] maps Name
    to the lines strictly between the two markers, joined with line feeds
    and dedented.  And every resolution follows the reference: an example
    that [load_overwrite_examples] stores for a unique-id was declared for
    it in an overwrite file, whose next section with a code reference names
    a region, and the example is the dedented text between the markers of a
    region of that name in an example file. *)
Theorem region_text_between_markers :
  (∀ (text : str) (pre body post : list str) (o c name : str),
     splitlines text = pre ++ [o] ++ body ++ [c] ++ post ->
     is_region name o body c ->
     (∀ p1 o' body' c' p2,
        post = p1 ++ [o'] ++ body' ++ [c'] ++ p2 -> ¬ is_region name o' body' c') ->
     parse_region_tags text !! name = Some (Textwrap.dedent (join [LF] body)))
  /\ (∀ (overwrite_files examples_files : list str) (u v : str),
        load_overwrite_examples overwrite_files examples_files !! u = Some v ->
        ∃ text pre decl mid ref rest region,
          text ∈ overwrite_files
          /\ re_split true HR_RE text = pre ++ [decl] ++ mid ++ [ref] ++ rest
          /\ declares_uid decl u
          /\ (∀ s, s ∈ mid -> inert s)
          /\ references ref region
          /\ ∃ cs lpre o body c lpost,
               cs ∈ examples_files
               /\ splitlines cs = lpre ++ [o] ++ body ++ [c] ++ lpost
               /\ is_region region o body c
               /\ parse_region_tags cs !! region = Some v
               /\ v = Textwrap.dedent (join [LF] body)).
Proof.
  split.
  - intros text pre body post o c name Hsplit (Ho & Hc & Hbody) Hpost.
    unfold parse_region_tags. rewrite Hsplit, !region_loop_app.
    apply region_loop_no_region; [| |done].
    + cbn [region_loop fold_left].
      rewrite (region_step_start _ name o) by done.
      rewrite (region_loop_body _ name) by done.
      by rewrite (region_step_end _ name c).
    + cbn [region_loop fold_left].
      rewrite (region_step_start _ name o) by done.
      rewrite (region_loop_body _ name) by done.
      rewrite (region_step_end _ name c) by done.
      cbn [regions lines app]. apply lookup_insert_eq.
  - intros ows exs u v. unfold load_overwrite_examples.
    set (all_regions := fold_left _ exs ∅).
    assert (H : ∀ files acc,
              fold_left (overwrite_file all_regions) files acc !! u = Some v ->
              acc !! u = Some v
              \/ ∃ text pre decl mid ref rest region,
                   text ∈ files
                   /\ re_split true HR_RE text = pre ++ [decl] ++ mid ++ [ref] ++ rest
                   /\ declares_uid decl u
                   /\ (∀ s, s ∈ mid -> inert s)
                   /\ references ref region
                   /\ all_regions !! region = Some v).
    { induction files as [|text files IH]; intros acc H; [by left|].
      cbn [fold_left] in H. apply IH in H
        as [H|(text' & pre & decl & mid & ref & rest & region & Hin & R)].
      - apply (proj1 (sections_sound all_regions acc _)) in H
          as [H|(pre & decl & mid & ref & rest & region & Hs & Hd & _ & R)];
          [by left|right].
        exists text, pre, decl, mid, ref, rest, region.
        split; [apply list_elem_of_here|done].
      - right. exists text', pre, decl, mid, ref, rest, region.
        split; [by apply list_elem_of_further|done]. }
    intros Hl. apply H in Hl
      as [Hl|(text & pre & decl & mid & ref & rest & region & Hin & Hs & Hd
              & Hm & Hr & Hv)]; [done|].
    apply all_regions_source in Hv as [Hv|(cs & Hcs & Hv)]; [done|].
    exists text, pre, decl, mid, ref, rest, region. do 5 (split; [done|]).
    destruct (proj1 (region_loop_sound (splitlines cs)) region v Hv)
      as (lpre & o & body & c & lpost & E & Ho & Hc & Hbody & ->).
    by exists cs, lpre, o, body, c, lpost.
Qed.

Lemma region_text_between_markers_witness :
  parse_region_tags stray_close_file !! py "A"
  = Some (Textwrap.dedent (join [LF] [py "  x"])).
Proof.
  apply (proj1 region_text_between_markers stray_close_file
           [] [py "  x"] [py "y"; py "// </A>"]
           (py "// <A>") (py "// </A>") (py "A")).
  - reflexivity.
  - split; [|split].
    + exists [], (py " "), []. repeat split; try done; by repeat constructor.
    + exists [], (py " "), []. repeat split; try done; by repeat constructor.
    + intros l Hl. split.
      * apply m_open_None_inv.
        repeat (apply elem_of_cons in Hl as [->|Hl]; [by vm_compute|]).
        by apply elem_of_nil in Hl.
      * apply m_close_other_inv.
        repeat (apply elem_of_cons in Hl as [->|Hl]; [by vm_compute|]).
        by apply elem_of_nil in Hl.
  - intros p1 o' body' c' p2 E (Ho' & _).
    assert (Hin : o' ∈ [py "y"; py "// </A>"]).
    { rewrite E. apply elem_of_app. right. apply list_elem_of_here. }
    revert Ho'. apply m_open_None_inv.
    repeat (apply elem_of_cons in Hin as [->|Hin]; [by vm_compute|]).
    by apply elem_of_nil in Hin.
Defined.

End RegionResolution.

(** ** A unique-id and the first code reference behind it *)

Section UidResolution.
Import PyStr Re Generate ExampleSpec ResolutionSpec Samples.

(** A section that does not declare [uid], met while [uid] is not the
    current unique-id, stores nothing for [uid] and does not make it
    current. *)
Lemma section_step_other_uid (all_regions : gmap str str) (st : overwrite_state)
    (section uid : str) :
  current_uid st ≠ Some uid -> ¬ declares_uid section uid ->
  uid_to_example (section_step all_regions st section) !! uid
  = uid_to_example st !! uid
  /\ current_uid (section_step all_regions st section) ≠ Some uid.
Proof.
  intros Hc Hd. unfold section_step.
  destruct (strip section) as [|c t] eqn:Es; [done|].
  destruct (re_search true UID_RE (c :: t)) as [um|] eqn:Eu.
  { split; [done|]. cbn [current_uid]. intros [= E]. apply Hd.
    exists um. by rewrite Es. }
  destruct (re_search false CODE_REF_RE (c :: t)) as [cm|];
    [|by destruct (current_uid st)].
  destruct (current_uid st) as [u|] eqn:Ecur; [|by rewrite Ecur].
  destruct (truthy (Some u)); [|by rewrite Ecur].
  destruct (all_regions !! group 2 cm) as [ex|]; [|done].
  split; [|done]. cbn [uid_to_example]. apply lookup_insert_ne. congruence.
Qed.

Lemma sections_other_uid (all_regions : gmap str str) (st : overwrite_state)
    (rest : list str) (uid : str) :
  current_uid st ≠ Some uid -> (∀ s, s ∈ rest -> ¬ declares_uid s uid) ->
  uid_to_example (fold_left (section_step all_regions) rest st) !! uid
  = uid_to_example st !! uid.
Proof.
  revert st; induction rest as [|s rest IH]; intros st Hc H; [done|].
  cbn [fold_left].
  destruct (section_step_other_uid all_regions st s uid Hc) as [E Hc'].
  { apply H, list_elem_of_here. }
  rewrite IH; [done|done|]. intros x Hx. by apply H, list_elem_of_further.
Qed.

Lemma files_other_uid (all_regions : gmap str str) (files : list str)
    (acc : gmap str str) (uid : str) :
  (∀ f, f ∈ files -> ∀ s, s ∈ re_split true HR_RE f -> ¬ declares_uid s uid) ->
  fold_left (overwrite_file all_regions) files acc !! uid = acc !! uid.
Proof.
  revert acc; induction files as [|f files IH]; intros acc H; [done|].
  cbn [fold_left]. rewrite IH by (intros x Hx; by apply H, list_elem_of_further).
  unfold overwrite_file. apply (sections_other_uid all_regions (OverwriteState acc None));
    [done|]. apply H, list_elem_of_here.
Qed.

(** C10, as amended.  In [load_overwrite_examples], once a section has
    declared a unique-id, the first later section that holds a code
    reference and no unique-id line uses the unique-id up (the current id is
    none behind it), whether the region it names is in the region mapping or
    not.  When the region is not known and no later section, of this file
    or of a later one, declares the unique-id again, the result holds for
    the unique-id what it held before the declaration, whatever code
    references to known regions follow; when the region is known, it holds
    the text of that region. *)
Theorem uid_consumed_by_first_reference
    (before_files after_files examples_files : list str)
    (text : str) (pre mid rest : list str) (decl ref uid region : str) :
  re_split true HR_RE text = pre ++ [decl] ++ mid ++ [ref] ++ rest ->
  declares_uid decl uid -> uid ≠ [] ->
  (∀ s, s ∈ mid -> inert s) ->
  references ref region ->
  (∀ s, s ∈ rest -> ¬ declares_uid s uid) ->
  (∀ f, f ∈ after_files ->
        ∀ s, s ∈ re_split true HR_RE f -> ¬ declares_uid s uid) ->
  let all_regions := all_regions_of examples_files in
  let acc := load_overwrite_examples before_files examples_files in
  let before :=
    uid_to_example
      (fold_left (section_step all_regions) pre (OverwriteState acc None)) in
  current_uid
    (fold_left (section_step all_regions) (pre ++ [decl] ++ mid ++ [ref])
       (OverwriteState acc None)) = None
  /\ (all_regions !! region = None ->
      load_overwrite_examples (before_files ++ [text] ++ after_files) examples_files
        !! uid
      = before !! uid)
  /\ (∀ example, all_regions !! region = Some example ->
      load_overwrite_examples (before_files ++ [text] ++ after_files) examples_files
        !! uid
      = Some example).
Proof.
  intros Hsplit Hdecl Huid Hmid Href Hrest Hafter all_regions acc before.
  set (st := fold_left (section_step all_regions) pre (OverwriteState acc None)) in *.
  assert (Hopen : fold_left (section_step all_regions) (pre ++ [decl] ++ mid)
                    (OverwriteState acc None)
                  = OverwriteState (uid_to_example st) (Some uid)).
  { rewrite !fold_left_app. fold st. cbn [fold_left].
    rewrite (section_step_declares _ _ decl uid) by done.
    by rewrite sections_inert. }
  assert (Hload : load_overwrite_examples (before_files ++ [text] ++ after_files)
                    examples_files !! uid
                  = overwrite_file all_regions acc text !! uid).
  { unfold load_overwrite_examples. rewrite !fold_left_app. cbn [fold_left].
    by apply files_other_uid. }
  split; [|split].
  - rewrite !app_assoc, fold_left_app, <- !app_assoc, Hopen. cbn [fold_left].
    destruct (all_regions !! region) as [example|] eqn:E.
    + by rewrite (section_step_known _ _ ref region uid example).
    + by rewrite (section_step_unknown _ _ ref region uid).
  - intros Hr. rewrite Hload. unfold overwrite_file. rewrite Hsplit.
    rewrite !app_assoc, fold_left_app, fold_left_app, <- !app_assoc, Hopen.
    cbn [fold_left]. rewrite (section_step_unknown _ _ ref region uid) by done.
    by rewrite sections_other_uid.
  - intros example Hr. rewrite Hload. unfold overwrite_file. rewrite Hsplit.
    rewrite !app_assoc, fold_left_app, fold_left_app, <- !app_assoc, Hopen.
    cbn [fold_left]. rewrite (section_step_known _ _ ref region uid example) by done.
    rewrite sections_other_uid by done. cbn [uid_to_example].
    apply lookup_insert_eq.
Qed.

Lemma uid_consumed_by_first_reference_witness :
  load_overwrite_examples ([] ++ [sample_overwrite_file] ++ []) [sample_example_file]
    !! py "M:Foo.Bar" = None.
Proof.
  refine (proj1 (proj2 (uid_consumed_by_first_reference [] [] [sample_example_file]
            sample_overwrite_file [[]] []
            [[LF] ++ py "[!code-csharp[](../examples/Foo.cs#Sample)]"]
            ([LF] ++ py "uid: M:Foo.Bar" ++ [LF] ++ py "example:" ++ [LF]
               ++ py "- *content" ++ [LF])
            ([LF] ++ py "[!code-csharp[](../examples/Foo.cs#Missing)]" ++ [LF])
            (py "M:Foo.Bar") (py "Missing") _ _ _ _ _ _ _)) _).
  - reflexivity.
  - eexists. split; vm_compute; reflexivity.
  - done.
  - intros s Hs. by apply elem_of_nil in Hs.
  - split; [by vm_compute|]. split; [by vm_compute|].
    eexists. split; vm_compute; reflexivity.
  - intros s Hs (m & Hm & _). apply list_elem_of_singleton in Hs as ->.
    vm_compute in Hm. discriminate Hm.
  - intros f Hf. by apply elem_of_nil in Hf.
  - by vm_compute.
Defined.

(** C10 as stated fails for a section that holds a code reference and a
    unique-id line: it is read as a declaration, so that behind it the
    current id is the new one, not none. *)
Lemma uid_redeclared_counterexample :
  ¬ (∀ (all_regions acc : gmap str str) (pre mid : list str)
       (decl ref uid region : str),
       declares_uid decl uid -> uid ≠ [] ->
       (∀ s, s ∈ mid -> inert s) ->
       holds_code_reference ref region ->
       current_uid
         (fold_left (section_step all_regions) (pre ++ [decl] ++ mid ++ [ref])
            (OverwriteState acc None)) = None).
Proof.
  intros H.
  specialize (H sample_regions ∅ [] [] (py "uid: M:Foo.Bar") redeclaring_section
                (py "M:Foo.Bar") (py "Sample")).
  assert (E : current_uid
                (fold_left (section_step sample_regions)
                   ([] ++ [py "uid: M:Foo.Bar"] ++ [] ++ [redeclaring_section])
                   (OverwriteState ∅ None)) = Some (py "M:Other"))
    by by vm_compute.
  rewrite H in E; [done|..].
  - eexists. split; vm_compute; reflexivity.
  - done.
  - intros s Hs. by apply elem_of_nil in Hs.
  - split; [by vm_compute|]. eexists. split; vm_compute; reflexivity.
Qed.

End UidResolution.

(** ** The banner and the first heading *)

Section BannerResolution.
Import PyStr Re Generate BannerSpec Samples.


























End BannerResolution.
